(** * ClassTable: course-time parser, schedule generation and conflict detection

    A shallow embedding of
      - [src/utils/courseTimeParser.ts] (parser, deduplication, week-range merge)
      - [src/utils/schedulingAlgorithm.ts] (schedule generation, conflict detection)
    together with the properties the specification states about them.

    Conventions.
      - A JavaScript number that holds an integer is a [Z]; the model is exact on
        the safe-integer range of the source language.
      - A JavaScript string is the list of its UTF-16 code units ([jsstring]).
        [js "..."] turns a UTF-8 literal of this file into that list.
      - An optional field ([weeks?], [location?]) is an [option]; [undefined] is [None].
      - Object identity (used by [Array.prototype.includes]) is an explicit
        address carried next to the object. *)

From Stdlib Require Import String Ascii.
From Stdlib Require Import ZArith List Bool Lia Sorting.Permutation.
Import ListNotations.
Open Scope Z_scope.

(* ================================================================== *)
(** ** The fragment of the JavaScript runtime the two modules rely on *)
(* ================================================================== *)

Module Js.

(** *** Strings *)

Definition jsstring := list Z.

Definition bytes_of (s : string) : list Z :=
  map (fun a => Z.of_N (N_of_ascii a)) (list_ascii_of_string s).

(** UTF-8 bytes to UTF-16 code units (a code point above U+FFFF becomes a
    surrogate pair). *)
Fixpoint utf8_to_utf16 (bs : list Z) : jsstring :=
  match bs with
  | [] => []
  | b :: r =>
      if b <? 128 then b :: utf8_to_utf16 r
      else if b <? 224 then
        match r with
        | b1 :: r1 => ((b - 192) * 64 + (b1 - 128)) :: utf8_to_utf16 r1
        | _ => []
        end
      else if b <? 240 then
        match r with
        | b1 :: b2 :: r2 =>
            ((b - 224) * 4096 + (b1 - 128) * 64 + (b2 - 128)) :: utf8_to_utf16 r2
        | _ => []
        end
      else
        match r with
        | b1 :: b2 :: b3 :: r3 =>
            let cp := (b - 240) * 262144 + (b1 - 128) * 4096
                      + (b2 - 128) * 64 + (b3 - 128) - 65536 in
            (55296 + cp / 1024) :: (56320 + cp mod 1024) :: utf8_to_utf16 r3
        | _ => []
        end
  end.

Definition js (s : string) : jsstring := utf8_to_utf16 (bytes_of s).

Fixpoint str_eqb (a b : jsstring) : bool :=
  match a, b with
  | [], [] => true
  | x :: a', y :: b' => (x =? y) && str_eqb a' b'
  | _, _ => false
  end.

(** A string is falsy exactly when it is empty; [undefined] is falsy. *)
Definition truthy_str (o : option jsstring) : bool :=
  match o with
  | Some (_ :: _) => true
  | _ => false
  end.

(** [a || b] on optional strings. *)
Definition or_str (a b : option jsstring) : option jsstring :=
  if truthy_str a then a else b.

(** A number is falsy exactly when it is [0]; [undefined] is falsy. *)
Definition truthy_num (o : option Z) : bool :=
  match o with
  | Some n => negb (n =? 0)
  | None => false
  end.

(** *** Character classes *)

Definition isDigit (c : Z) : bool := (48 <=? c) && (c <=? 57).

(** [\s], also the set [String.prototype.trim] strips: WhiteSpace and
    LineTerminator code units. *)
Definition isSpace (c : Z) : bool :=
  (c =? 9) || (c =? 10) || (c =? 11) || (c =? 12) || (c =? 13) || (c =? 32)
  || (c =? 160) || (c =? 5760) || ((8192 <=? c) && (c <=? 8202))
  || (c =? 8232) || (c =? 8233) || (c =? 8239) || (c =? 8287)
  || (c =? 12288) || (c =? 65279).

(** *** Number to string and back *)

Fixpoint digits_aux (fuel : nat) (n : Z) (acc : jsstring) : jsstring :=
  match fuel with
  | O => acc
  | S f =>
      let acc' := (48 + n mod 10) :: acc in
      if n <? 10 then acc' else digits_aux f (n / 10) acc'
  end.

Definition digits (n : Z) : jsstring :=
  digits_aux (S (Z.to_nat (Z.log2 n))) n [].

(** [Number.prototype.toString] on an integer (below [10^21], from where on
    the source prints an exponent). *)
Definition toString (n : Z) : jsstring :=
  if n <? 0 then 45 :: digits (- n) else digits n.

Fixpoint takeWhile (p : Z -> bool) (s : jsstring) : jsstring :=
  match s with
  | c :: s' => if p c then c :: takeWhile p s' else []
  | [] => []
  end.

Fixpoint dropWhile (p : Z -> bool) (s : jsstring) : jsstring :=
  match s with
  | c :: s' => if p c then dropWhile p s' else s
  | [] => []
  end.

Definition digits_value (ds : jsstring) : Z :=
  fold_left (fun a c => a * 10 + (c - 48)) ds 0.

(** [parseInt] on a string that starts with a decimal digit or is empty (the
    only arguments it receives here: a [\d+] capture, or the text before the
    first [-] of a key).  [None] is [NaN].  The value is exact: up to [2^53]
    it is the number the source gets, past it the source gets [to_double] of
    it. *)
Definition parseInt (s : jsstring) : option Z :=
  match takeWhile isDigit s with
  | [] => None
  | ds => Some (digits_value ds)
  end.

(** *** String methods *)

Definition trim (s : jsstring) : jsstring :=
  rev (dropWhile isSpace (rev (dropWhile isSpace s))).

Fixpoint starts_with (p s : jsstring) : bool :=
  match p, s with
  | [], _ => true
  | x :: p', y :: s' => (x =? y) && starts_with p' s'
  | _ :: _, [] => false
  end.

(** [s.replace(p, '')] with a string pattern: the first occurrence goes. *)
Fixpoint replace_str (p s : jsstring) : jsstring :=
  if starts_with p s then skipn (length p) s
  else match s with
       | [] => []
       | c :: s' => c :: replace_str p s'
       end.

(** [a.join(sep)] *)
Fixpoint join (sep : jsstring) (l : list jsstring) : jsstring :=
  match l with
  | [] => []
  | [x] => x
  | x :: r => x ++ sep ++ join sep r
  end.

(** [s.split(sep)] for a one-unit separator. *)
Fixpoint split_on (sep : Z) (s : jsstring) : list jsstring :=
  match s with
  | [] => [[]]
  | c :: s' =>
      if c =? sep then [] :: split_on sep s'
      else match split_on sep s' with
           | w :: ws => (c :: w) :: ws
           | [] => [[c]]
           end
  end.

(** *** Regular expressions

    The constructs the source patterns use, with the backtracking order of the
    language: [run r st] lists every way [r] can match at the head of the
    input, in the order the engine tries them; the engine takes the first. *)

Inductive regex : Type :=
| Lit (c : Z)                 (* one literal code unit *)
| Cls (p : Z -> bool)         (* one code unit of a class *)
| Cat (r1 r2 : regex)         (* r1r2 *)
| Alt (r1 r2 : regex)         (* r1|r2 *)
| Opt (r : regex)             (* (?:r)? , greedy *)
| Star (p : Z -> bool)        (* class*, greedy *)
| Plus (p : Z -> bool)        (* class+, greedy *)
| Grp (n : nat) (r : regex).  (* n-th capturing group *)

Definition captures := list (nat * jsstring).
Definition mstate := (jsstring * captures)%type.

(** Remainders after a greedy [class*], longest match first. *)
Fixpoint star (p : Z -> bool) (s : jsstring) : list jsstring :=
  match s with
  | c :: s' => if p c then star p s' ++ [s] else [s]
  | [] => [[]]
  end.

Fixpoint run (r : regex) (st : mstate) : list mstate :=
  match r with
  | Lit c =>
      match fst st with
      | x :: s' => if x =? c then [(s', snd st)] else []
      | [] => []
      end
  | Cls p =>
      match fst st with
      | x :: s' => if p x then [(s', snd st)] else []
      | [] => []
      end
  | Cat r1 r2 => flat_map (run r2) (run r1 st)
  | Alt r1 r2 => run r1 st ++ run r2 st
  | Opt r1 => run r1 st ++ [st]
  | Star p => map (fun s' => (s', snd st)) (star p (fst st))
  | Plus p =>
      match fst st with
      | x :: s' => if p x then map (fun s'' => (s'', snd st)) (star p s') else []
      | [] => []
      end
  | Grp n r1 =>
      map (fun st' =>
             (fst st',
              (n, firstn (length (fst st) - length (fst st')) (fst st)) :: snd st'))
          (run r1 st)
  end.

(** A match object: [index], [m[0]], the captures and the text after the match. *)
Record Match : Type := mkMatch
  { m_index : nat; m_full : jsstring; m_caps : captures; m_after : jsstring }.

(** [m[n]]: [None] when the group did not take part in the match. *)
Fixpoint group (caps : captures) (n : nat) : option jsstring :=
  match caps with
  | [] => None
  | (k, v) :: r => if Nat.eqb k n then Some v else group r n
  end.

(** One attempt at the current position. *)
Definition match_here (r : regex) (i : nat) (s : jsstring) : option Match :=
  match run r (s, []) with
  | (rest, caps) :: _ =>
      Some (mkMatch i (firstn (length s - length rest) s) caps rest)
  | [] => None
  end.

(** [s.match(r)] / [r.exec(s)]: the leftmost position with a match. *)
Fixpoint search_from (r : regex) (i : nat) (s : jsstring) : option Match :=
  match match_here r i s with
  | Some m => Some m
  | None =>
      match s with
      | [] => None
      | _ :: s' => search_from r (S i) s'
      end
  end.

Definition search (r : regex) (s : jsstring) : option Match := search_from r 0 s.

(** A pattern that opens with [^]: only position 0 is tried. *)
Definition search_anchored (r : regex) (s : jsstring) : option Match :=
  match_here r 0 s.

(** [s.replace(r, '')] for a pattern without the [g] flag. *)
Definition replace_re (r : regex) (s : jsstring) : jsstring :=
  match search r s with
  | Some m => firstn (m_index m) s ++ m_after m
  | None => s
  end.

(** The loop [while ((m = r.exec(s)) !== null) ...] of a [g] pattern: every
    [exec] resumes at [lastIndex], the end of the previous match.  [pos] is
    [lastIndex] and [s] the text from there on. *)
Fixpoint exec_loop (fuel : nat) (r : regex) (pos : nat) (s : jsstring) : list Match :=
  match fuel with
  | O => []
  | S f =>
      match search_from r pos s with
      | Some m =>
          m :: exec_loop f r (m_index m + length (m_full m))%nat (m_after m)
      | None => []
      end
  end.

Definition exec_all (r : regex) (s : jsstring) : list Match :=
  exec_loop (S (length s)) r 0 s.

(** One code unit of a literal, and the class [[...]] of the units of a literal. *)
Definition ch (s : string) : Z := hd 0 (js s).
Definition one_of (s : string) (c : Z) : bool := existsb (Z.eqb c) (js s).

(** *** Numbers past the safe range

    A number of the source language is a double.  Every integer from 0 to
    [2^53] is one; a larger integer is rounded to the nearest double, a tie
    going to the double whose significand is even.  [to_double n] is the
    double that [parseInt] returns for a digit run of value [n] (of up to
    twenty digits; the language leaves the digits after the twentieth to the
    implementation) and that an addition returns for the exact sum [n]. *)
Definition to_double (n : Z) : Z :=
  if n <=? 2 ^ 53 then n
  else
    let ulp := 2 ^ (Z.log2 n - 52) in
    let q := n / ulp in
    let r := n mod ulp in
    if (2 * r <? ulp) || ((2 * r =? ulp) && Z.even q)
    then q * ulp else (q + 1) * ulp.

(** [i++] on a number that holds an integer. *)
Definition js_succ (i : Z) : Z := to_double (i + 1).

End Js.

(* ================================================================== *)
(** ** types/index.ts *)
(* ================================================================== *)

Module Types.
Import Js.

Record WeekRange : Type := mkWeekRange { start : Z; end_ : Z }.

Record FixedTimeSlot : Type := mkFixedTimeSlot
  { dayOfWeek : Z;
    timeSlotIds : list jsstring;
    weeks : option (list WeekRange);
    location : option jsstring }.

(** [!ranges || ranges.length === 0] *)
Definition no_weeks (ranges : option (list WeekRange)) : bool :=
  match ranges with
  | Some (_ :: _) => false
  | _ => true
  end.

End Types.

(* ================================================================== *)
(** ** utils/courseTimeParser.ts *)
(* ================================================================== *)

Module CourseTimeParser.
Import Js Types.

Definition DAY_MAP : list (jsstring * Z) :=
  [ (js "星期一", 1); (js "星期二", 2); (js "星期三", 3); (js "星期四", 4);
    (js "星期五", 5); (js "星期六", 6); (js "星期日", 7);
    (js "周一", 1); (js "周二", 2); (js "周三", 3); (js "周四", 4);
    (js "周五", 5); (js "周六", 6); (js "周日", 7);
    (js "一", 1); (js "二", 2); (js "三", 3); (js "四", 4);
    (js "五", 5); (js "六", 6); (js "日", 7) ].

Fixpoint lookup (k : jsstring) (m : list (jsstring * Z)) : option Z :=
  match m with
  | [] => None
  | (k', v) :: r => if str_eqb k' k then Some v else lookup k r
  end.

(** [/(\d+)(?:-(\d+))?周?/] *)
Definition re_weekRange : regex :=
  Cat (Grp 1 (Plus isDigit))
      (Cat (Opt (Cat (Lit (ch "-")) (Grp 2 (Plus isDigit))))
           (Opt (Lit (ch "周")))).

Definition parseWeekRange (weekStr : jsstring) : option WeekRange :=
  match search re_weekRange weekStr with
  | None => None
  | Some m =>
      match group (m_caps m) 1 with
      | Some g1 =>
          (* a [NaN] bound cannot arise, [g1] and [g2] being [\d+] captures *)
          match parseInt g1 with
          | Some start =>
              match (match group (m_caps m) 2 with
                     | Some (c :: g2) => parseInt (c :: g2)
                     | _ => Some start
                     end) with
              | Some end_ => Some (mkWeekRange start end_)
              | None => None
              end
          | None => None
          end
      | None => None
      end
  end.

(** [/第(\d+)(?:-(\d+))?节/] *)
Definition re_timeSlots : regex :=
  Cat (Lit (ch "第"))
      (Cat (Grp 1 (Plus isDigit))
           (Cat (Opt (Cat (Lit (ch "-")) (Grp 2 (Plus isDigit))))
                (Lit (ch "节")))).

(** The values [i] takes in [for (let i = start; i <= end; i++)] when the
    loop ends; [for_loop] below is the loop itself. *)
Fixpoint count_from (n : nat) (i : Z) : list Z :=
  match n with
  | O => []
  | S k => i :: count_from k (i + 1)
  end.

Definition for_range (start end_ : Z) : list Z :=
  count_from (Z.to_nat (end_ - start + 1)) start.

Definition parseTimeSlots (timeStr : jsstring) : list jsstring :=
  match search re_timeSlots timeStr with
  | None => []
  | Some m =>
      match group (m_caps m) 1 with
      | Some g1 =>
          (* with a [NaN] bound the test [i <= end] fails at once *)
          match parseInt g1 with
          | Some start =>
              match (match group (m_caps m) 2 with
                     | Some (c :: g2) => parseInt (c :: g2)
                     | _ => Some start
                     end) with
              | Some end_ => map toString (for_range start end_)
              | None => []
              end
          | None => []
          end
      | None => []
      end
  end.

(** The loop of [parseTimeSlots] itself, run for at most [fuel] tests of
    [i <= end]: [None] when it is still running.  Its counter is a double, so
    [i++] is [js_succ]. *)
Fixpoint for_loop (fuel : nat) (i end_ : Z) (slots : list jsstring)
  : option (list jsstring) :=
  match fuel with
  | O => None
  | S f =>
      if i <=? end_ then for_loop f (js_succ i) end_ (slots ++ [toString i])
      else Some slots
  end.

(** The call [parseTimeSlots(timeStr)] with its numbers as doubles and its
    loop run for at most [fuel] tests: [Some slots] when the call returns
    [slots], [None] when it is still running. *)
Definition parseTimeSlots_run (fuel : nat) (timeStr : jsstring)
  : option (list jsstring) :=
  match search re_timeSlots timeStr with
  | None => Some []
  | Some m =>
      match group (m_caps m) 1 with
      | Some g1 =>
          match parseInt g1 with
          | Some start =>
              match (match group (m_caps m) 2 with
                     | Some (c :: g2) => parseInt (c :: g2)
                     | _ => Some start
                     end) with
              | Some end_ => for_loop fuel (to_double start) (to_double end_) []
              | None => Some []
              end
          | None => Some []
          end
      | None => Some []
      end
  end.

(** [/\(([^)]+)\)/] *)
Definition re_location : regex :=
  Cat (Lit (ch "("))
      (Cat (Grp 1 (Plus (fun c => negb (c =? ch ")")))) (Lit (ch ")"))).

Definition parseLocation (text : jsstring) : option jsstring :=
  match search re_location text with
  | Some m => group (m_caps m) 1
  | None => None
  end.

(** [DAY_MAP[dayStr] || null], on the keys of the table and on texts that name
    no property an object inherits; the line parser passes it the fourteen
    weekday tokens only. *)
Definition parseDay (dayStr : jsstring) : option Z :=
  match lookup dayStr DAY_MAP with
  | Some d => if d =? 0 then None else Some d
  | None => None
  end.

(** [/^(\d+(?:-\d+)?周?)[，,]/], without its [^] (see [search_anchored]) *)
Definition re_weekPrefix : regex :=
  Cat (Grp 1 (Cat (Plus isDigit)
                  (Cat (Opt (Cat (Lit (ch "-")) (Plus isDigit)))
                       (Opt (Lit (ch "周"))))))
      (Cls (one_of "，,")).

(** [/(星期[一二三四五六日]|周[一二三四五六日])/] *)
Definition re_day : regex :=
  Grp 1 (Alt (Cat (Lit (ch "星")) (Cat (Lit (ch "期")) (Cls (one_of "一二三四五六日"))))
             (Cat (Lit (ch "周")) (Cls (one_of "一二三四五六日")))).

(** [/(星期[一二三四五六日]|周[一二三四五六日])\s*第\d+(?:-\d+)?节/g] *)
Definition re_time : regex :=
  Cat re_day
      (Cat (Star isSpace)
           (Cat (Lit (ch "第"))
                (Cat (Plus isDigit)
                     (Cat (Opt (Cat (Lit (ch "-")) (Plus isDigit)))
                          (Lit (ch "节")))))).

Record TimeLine : Type := mkTimeLine
  { tl_weeks : option WeekRange;
    tl_timeSlots : list FixedTimeSlot;
    tl_location : option jsstring }.

(** The body of the [while] loop for one occurrence: the slot it pushes, or
    nothing when one of its [continue]s is taken. *)
Definition slot_of_match (weeks : option WeekRange) (location : option jsstring)
    (m : Match) : list FixedTimeSlot :=
  let fullMatch := m_full m in
  match search re_day fullMatch with
  | None => []
  | Some dayMatch =>
      match group (m_caps dayMatch) 1 with
      | None => []
      | Some day =>
          match parseDay day with
          | None => []
          | Some dayOfWeek =>
              match parseTimeSlots fullMatch with
              | [] => []
              | timeSlotIds =>
                  [ mkFixedTimeSlot dayOfWeek timeSlotIds
                      (match weeks with Some w => Some [w] | None => None end)
                      location ]
              end
          end
      end
  end.

Definition parseTimeLine (line : jsstring) : TimeLine :=
  let trimmedLine := trim line in
  let weekMatch := search_anchored re_weekPrefix trimmedLine in
  let weeks :=
    match weekMatch with
    | Some m =>
        match group (m_caps m) 1 with
        | Some g => parseWeekRange g
        | None => None
        end
    | None => None
    end in
  let location := parseLocation trimmedLine in
  let timeContent := trimmedLine in
  let timeContent :=
    match weekMatch with
    | Some m => replace_str (m_full m) timeContent
    | None => timeContent
    end in
  let timeContent :=
    if truthy_str location then replace_re re_location timeContent
    else timeContent in
  let timeContent := trim timeContent in
  let timeSlots :=
    flat_map (slot_of_match weeks location) (exec_all re_time timeContent) in
  mkTimeLine weeks timeSlots location.

(** [a.sort((a, b) => a.start - b.start)]: the sort is stable. *)
Fixpoint insert_by_start (x : WeekRange) (l : list WeekRange) : list WeekRange :=
  match l with
  | [] => [x]
  | y :: l' =>
      if start x <=? start y then x :: y :: l' else y :: insert_by_start x l'
  end.

Definition sort_by_start (l : list WeekRange) : list WeekRange :=
  fold_right insert_by_start [] l.

(** One turn of the loop over [sorted]; [merged] is the array built so far. *)
Definition merge_step (merged : list WeekRange) (range : WeekRange) : list WeekRange :=
  match rev merged with
  | [] => [range]
  | last :: front =>
      if start range <=? end_ last + 1
      then rev front ++ [mkWeekRange (start last) (Z.max (end_ last) (end_ range))]
      else merged ++ [range]
  end.

Definition mergeWeekRanges (weekRanges : list WeekRange) : list WeekRange :=
  match weekRanges with
  | [] => []
  | _ => fold_left merge_step (sort_by_start weekRanges) []
  end.

(** The [Map<string, FixedTimeSlot>]: entries in insertion order. *)
Definition SlotMap := list (jsstring * FixedTimeSlot).

Fixpoint map_has (k : jsstring) (m : SlotMap) : bool :=
  match m with
  | [] => false
  | (k', _) :: r => str_eqb k' k || map_has k r
  end.

(** In-place change of the entry [slotMap.get(k)]. *)
Fixpoint map_modify (k : jsstring) (f : FixedTimeSlot -> FixedTimeSlot)
    (m : SlotMap) : SlotMap :=
  match m with
  | [] => []
  | (k', v) :: r =>
      if str_eqb k' k then (k', f v) :: r else (k', v) :: map_modify k f r
  end.

(** [`${slot.dayOfWeek}-${slot.timeSlotIds.join(',')}-${slot.location || ''}`] *)
Definition slot_key (slot : FixedTimeSlot) : jsstring :=
  toString (dayOfWeek slot) ++ js "-" ++ join (js ",") (timeSlotIds slot)
  ++ js "-" ++ match or_str (location slot) (Some []) with
               | Some l => l
               | None => []
               end.

Definition with_weeks (slot : FixedTimeSlot) (w : option (list WeekRange))
  : FixedTimeSlot :=
  mkFixedTimeSlot (dayOfWeek slot) (timeSlotIds slot) w (location slot).

(** What the branch [slotMap.has(key)] does to [existingSlot]. *)
Definition absorb_weeks (slot existingSlot : FixedTimeSlot) : FixedTimeSlot :=
  match weeks slot with
  | Some (w :: ws) =>
      match weeks existingSlot with
      | Some (e :: es) =>
          with_weeks existingSlot
            (Some (mergeWeekRanges ((e :: es) ++ (w :: ws))))
      | _ => with_weeks existingSlot (Some (w :: ws))
      end
  | _ => existingSlot
  end.

Definition dedup_step (slotMap : SlotMap) (slot : FixedTimeSlot) : SlotMap :=
  let key := slot_key slot in
  if map_has key slotMap
  then map_modify key (absorb_weeks slot) slotMap
  else slotMap ++ [(key, with_weeks slot
                           (match weeks slot with
                            | Some w => Some w
                            | None => None
                            end))].

Definition deduplicateTimeSlots (timeSlots : list FixedTimeSlot) : list FixedTimeSlot :=
  map snd (fold_left dedup_step timeSlots []).

(** [isWeekInRanges(week, ranges?)] *)
Definition isWeekInRanges (week : Z) (ranges : option (list WeekRange)) : bool :=
  match ranges with
  | Some (r :: rs) =>
      existsb (fun range => (start range <=? week) && (week <=? end_ range)) (r :: rs)
  | _ => true
  end.

(** [formatWeekRanges(ranges?)] *)
Definition format_range (range : WeekRange) : jsstring :=
  if start range =? end_ range then toString (start range) ++ js "周"
  else toString (start range) ++ js "-" ++ toString (end_ range) ++ js "周".

Definition formatWeekRanges (ranges : option (list WeekRange)) : jsstring :=
  match ranges with
  | Some (r :: rs) => join (js "，") (map format_range (r :: rs))
  | _ => js "全学期"
  end.

(** [.split(/\n|\r\n/)]: a line ends at a line feed, or at a carriage return
    that a line feed follows. *)
Definition cons_head (c : Z) (l : list jsstring) : list jsstring :=
  match l with
  | w :: ws => (c :: w) :: ws
  | [] => [[c]]
  end.

Fixpoint split_lines (s : jsstring) : list jsstring :=
  match s with
  | [] => [[]]
  | c :: s' =>
      if c =? 10 then [] :: split_lines s'
      else
        match s' with
        | d :: s'' =>
            if (c =? 13) && (d =? 10) then [] :: split_lines s''
            else cons_head c (split_lines s')
        | [] => cons_head c (split_lines s')
        end
  end.

(** [line.trim() !== ''] *)
Definition not_blank (line : jsstring) : bool :=
  match trim line with
  | [] => false
  | _ :: _ => true
  end.

Definition parseCourseTime (timeText : jsstring) : list FixedTimeSlot :=
  if not_blank timeText then
    let lines := filter not_blank (split_lines timeText) in
    let allTimeSlots := flat_map (fun line => tl_timeSlots (parseTimeLine line)) lines in
    deduplicateTimeSlots allTimeSlots
  else [].

(** [parseCourseInfo(courseText)] *)

(** What [parseCourseInfo] returns. *)
Record CourseInfo : Type := mkCourseInfo
  { ci_name : jsstring;
    ci_teachers : list jsstring;
    ci_department : jsstring;
    ci_campus : jsstring;
    ci_credits : option Z;
    ci_timeSlots : list FixedTimeSlot }.

(** A call either returns or throws [new Error(message)]. *)
Inductive outcome (A : Type) : Type :=
| Returned (a : A)
| Thrown (message : jsstring).

Arguments Returned {A} a.
Arguments Thrown {A} message.

(** [s !== ''] *)
Definition nonempty (s : jsstring) : bool :=
  match s with
  | [] => false
  | _ :: _ => true
  end.

(** [s.split(/[...]/)] for a pattern that is one class. *)
Fixpoint split_where (p : Z -> bool) (s : jsstring) : list jsstring :=
  match s with
  | [] => [[]]
  | c :: s' =>
      if p c then [] :: split_where p s'
      else match split_where p s' with
           | w :: ws => (c :: w) :: ws
           | [] => [[c]]
           end
  end.

(** [r.test(s)] *)
Definition re_test (r : regex) (s : jsstring) : bool :=
  match search r s with
  | Some _ => true
  | None => false
  end.

(** [/^r$/.test(s)]: tried at position 0 only, and an attempt counts when it
    ends at the end of the text. *)
Definition test_whole (r : regex) (s : jsstring) : bool :=
  existsb (fun st => negb (nonempty (fst st))) (run r (s, [])).

(** [field.split(/[,，]/).map(t => t.trim()).filter(t => t !== '')] *)
Definition split_teachers (field : jsstring) : list jsstring :=
  filter nonempty (map trim (split_where (one_of ",，") field)).

(** [/\d+[-–]?\d*周|星期[一二三四五六日]|第\d+/] *)
Definition re_timeHint : regex :=
  Alt (Cat (Plus isDigit)
           (Cat (Opt (Cls (one_of "-–"))) (Cat (Star isDigit) (Lit (ch "周")))))
      (Alt (Cat (Lit (ch "星")) (Cat (Lit (ch "期")) (Cls (one_of "一二三四五六日"))))
           (Cat (Lit (ch "第")) (Plus isDigit))).

(** The loop over [allLines] from index 1: the lines it pushes.  A line with a
    tab ends the loop, pushed or not. *)
Fixpoint continuation_lines (lines : list jsstring) : list jsstring :=
  match lines with
  | [] => []
  | line :: rest =>
      if existsb (Z.eqb 9) line then
        if re_test re_timeHint line then [line] else []
      else line :: continuation_lines rest
  end.

(** [a || b] on strings. *)
Definition or_default (a b : jsstring) : jsstring :=
  if nonempty a then a else b.

Definition parseCourseInfo (courseText : jsstring) : outcome CourseInfo :=
  let allLines := filter nonempty (map trim (split_lines courseText)) in
  match allLines with
  | [] => Thrown (js "课程信息为空")
  | firstLine :: otherLines =>
      let firstLineFields := map trim (split_on 9 firstLine) in
      if (length firstLineFields <? 4)%nat then
        Thrown (js "课程信息格式不正确，至少需要包含：课程名、学分/教师、学院等信息")
      else
        let field := fun i => nth i firstLineFields [] in
        let timeOfFirstLine :=
          if (6 <? length firstLineFields)%nat
          then [join [9] (skipn 6 firstLineFields)] else [] in
        let '(name, teachers, department, campus, credits, timeTextLines) :=
          if (6 <=? length firstLineFields)%nat then
            if test_whole (Plus isDigit) (field 1%nat) then
              (field 0%nat, split_teachers (field 4%nat), field 3%nat, field 5%nat,
               (if truthy_num (parseInt (field 1%nat))
                then parseInt (field 1%nat) else None),
               timeOfFirstLine)
            else
              (field 0%nat, split_teachers (field 1%nat), field 2%nat, field 3%nat,
               match search (Plus isDigit) (field 5%nat) with
               | Some creditsMatch => parseInt (m_full creditsMatch)
               | None => None
               end,
               timeOfFirstLine)
          else
            (field 0%nat,
             (if nonempty (field 1%nat) then split_teachers (field 1%nat)
              else [js "未知教师"]),
             or_default (field 2%nat) (js "未知学院"),
             or_default (field 3%nat) (js "未知校区"),
             None,
             [])
        in
        let timeTextLines := timeTextLines ++ continuation_lines otherLines in
        let timeText := join [10] timeTextLines in
        Returned (mkCourseInfo name teachers department campus credits
                    (parseCourseTime timeText))
  end.

End CourseTimeParser.

(* ================================================================== *)
(** ** utils/schedulingAlgorithm.ts *)
(* ================================================================== *)

Module SchedulingAlgorithm.
Import Js Types CourseTimeParser.

Record TimeSlot : Type := mkTimeSlot
  { ts_id : jsstring; ts_name : jsstring; ts_order : Z }.

(** The fields of a course the algorithm reads.  [scheduleForCourse] checks at
    run time that [fixedTimeSlots] is an array and that the [timeSlotIds] of
    each entry is one: [c_fixedTimeSlots] is [None] when the first check fails
    and an entry is [None] when the second one does. *)
Record Course : Type := mkCourse
  { c_id : jsstring;
    c_teacherId : jsstring;
    c_fixedTimeSlots : option (list (option FixedTimeSlot));
    c_location : option jsstring }.

Record ScheduleItem : Type := mkScheduleItem
  { i_id : jsstring;
    i_courseId : jsstring;
    i_teacherId : jsstring;
    i_timeSlotId : jsstring;
    i_dayOfWeek : Z;
    i_weeks : option (list WeekRange);
    i_location : option jsstring }.

(** A [ScheduleItem] object: its address and its fields.  Every object literal
    evaluated by [scheduleForCourse] is a new object; its address is the
    number of objects created before it. *)
Definition ItemRef := (nat * ScheduleItem)%type.
Definition addr (r : ItemRef) : nat := fst r.
Definition obj (r : ItemRef) : ScheduleItem := snd r.

Inductive ConflictType : Type := time | teacher.

Record Conflict : Type := mkConflict
  { k_type : ConflictType; k_message : jsstring; k_items : list ItemRef }.

Record SchedulingResult : Type := mkResult
  { schedule : list ItemRef;
    conflicts : list Conflict;
    success : bool;
    message : jsstring }.

Record SchedulingOptions : Type := mkOptions
  { selectedWeek : option Z; weekRange : option (Z * Z) }.

(** [options = {}] *)
Definition no_options : SchedulingOptions := mkOptions None None.

(** [timeSlots.sort((a, b) => a.order - b.order)] in the constructor. *)
Fixpoint insert_by_order (x : TimeSlot) (l : list TimeSlot) : list TimeSlot :=
  match l with
  | [] => [x]
  | y :: l' =>
      if ts_order x <=? ts_order y then x :: y :: l' else y :: insert_by_order x l'
  end.

Definition sort_by_order (l : list TimeSlot) : list TimeSlot :=
  fold_right insert_by_order [] l.

Definition getWeekSuffix (weeks : option (list WeekRange))
    (options : SchedulingOptions) : jsstring :=
  if truthy_num (selectedWeek options) then
    js "w" ++ toString (match selectedWeek options with Some w => w | None => 0 end)
  else
    match weeks with
    | Some (r :: _) => js "w" ++ toString (start r) ++ js "-" ++ toString (end_ r)
    | _ => js "all"
    end.

Definition hasWeekRangeOverlap (timeSlotWeeks : list WeekRange)
    (targetRange : Z * Z) : bool :=
  existsb (fun range => (start range <=? snd targetRange)
                        && (fst targetRange <=? end_ range)) timeSlotWeeks.

(** Whether the week tests of the loop body let [fixedSlot] through. *)
Definition slot_selected (options : SchedulingOptions) (fixedSlot : FixedTimeSlot)
  : bool :=
  if truthy_num (selectedWeek options) then
    match selectedWeek options with
    | Some w => isWeekInRanges w (weeks fixedSlot)
    | None => true
    end
  else
    match weekRange options with
    | Some target =>
        match weeks fixedSlot with
        | Some ws => hasWeekRangeOverlap ws target
        | None => true
        end
    | None => true
    end.

Definition make_item (course : Course) (fixedSlot : FixedTimeSlot)
    (options : SchedulingOptions) (timeSlotId : jsstring) : ScheduleItem :=
  mkScheduleItem
    (c_id course ++ js "-" ++ toString (dayOfWeek fixedSlot) ++ js "-"
     ++ timeSlotId ++ js "-" ++ getWeekSuffix (weeks fixedSlot) options)
    (c_id course)
    (c_teacherId course)
    timeSlotId
    (dayOfWeek fixedSlot)
    (weeks fixedSlot)
    (or_str (location fixedSlot) (c_location course)).

(** [this.schedule.push(scheduleItem)] with a new object. *)
Definition push_item (sched : list ItemRef) (it : ScheduleItem) : list ItemRef :=
  sched ++ [(length sched, it)].

(** The loop body of [scheduleForCourse] for one entry of [fixedTimeSlots]. *)
Definition scheduleForSlot (course : Course) (options : SchedulingOptions)
    (sched : list ItemRef) (entry : option FixedTimeSlot) : list ItemRef :=
  match entry with
  | None => sched
  | Some fixedSlot =>
      if slot_selected options fixedSlot
      then fold_left
             (fun sc timeSlotId => push_item sc (make_item course fixedSlot options timeSlotId))
             (timeSlotIds fixedSlot) sched
      else sched
  end.

(** [scheduleForCourse], on the state [this.schedule]. *)
Definition scheduleForCourse (options : SchedulingOptions)
    (sched : list ItemRef) (course : Course) : list ItemRef :=
  match c_fixedTimeSlots course with
  | None => sched
  | Some slots => fold_left (scheduleForSlot course options) slots sched
  end.

Definition hasWeekOverlap (weeks1 weeks2 : option (list WeekRange)) : bool :=
  match weeks1, weeks2 with
  | Some (a :: w1), Some (b :: w2) =>
      existsb (fun range1 =>
                 existsb (fun range2 =>
                            (start range1 <=? end_ range2)
                            && (start range2 <=? end_ range1))
                         (b :: w2))
              (a :: w1)
  | _, _ => true
  end.

(** [conflicting.includes(item)]: the same object. *)
Definition includes (l : list ItemRef) (x : ItemRef) : bool :=
  existsb (fun y => Nat.eqb (addr y) (addr x)) l.

(** The inner loop, [j] from [i + 1]: [rest] is [items.slice(i + 1)]. *)
Fixpoint conflict_inner (item1 : ItemRef) (rest : list ItemRef)
    (hasConflict : bool) (conflicting : list ItemRef) : bool * list ItemRef :=
  match rest with
  | [] => (hasConflict, conflicting)
  | item2 :: rest' =>
      if hasWeekOverlap (i_weeks (obj item1)) (i_weeks (obj item2))
      then conflict_inner item1 rest' true
             (if includes conflicting item2 then conflicting
              else conflicting ++ [item2])
      else conflict_inner item1 rest' hasConflict conflicting
  end.

(** The outer loop, on [items.slice(i)]. *)
Fixpoint conflict_outer (items : list ItemRef) (conflicting : list ItemRef)
  : list ItemRef :=
  match items with
  | [] => conflicting
  | item1 :: rest =>
      let (hasConflict, conflicting') := conflict_inner item1 rest false conflicting in
      conflict_outer rest
        (if hasConflict && negb (includes conflicting' item1)
         then conflicting' ++ [item1] else conflicting')
  end.

Definition findWeekConflictingItems (items : list ItemRef)
    (selectedWeek : option Z) : list ItemRef :=
  if truthy_num selectedWeek then
    match selectedWeek with
    | Some w =>
        filter (fun item =>
                  match i_weeks (obj item) with
                  | None => true
                  | Some ws => isWeekInRanges w (Some ws)
                  end) items
    | None => items
    end
  else conflict_outer items [].

(** The [Map<string, ScheduleItem[]>]: entries in insertion order. *)
Definition TimeMap := list (jsstring * list ItemRef).

(** [`${item.dayOfWeek}-${item.timeSlotId}`] *)
Definition time_key (item : ItemRef) : jsstring :=
  toString (i_dayOfWeek (obj item)) ++ js "-" ++ i_timeSlotId (obj item).

(** [timeMap.get(key).push(item)], after [timeMap.set(key, [])] for a new key. *)
Fixpoint timeMap_push (key : jsstring) (item : ItemRef) (m : TimeMap) : TimeMap :=
  match m with
  | [] => [(key, [item])]
  | (k, items) :: r =>
      if str_eqb k key then (k, items ++ [item]) :: r
      else (k, items) :: timeMap_push key item r
  end.

Definition group_step (selectedWeek : option Z) (m : TimeMap) (item : ItemRef)
  : TimeMap :=
  if truthy_num selectedWeek
     && match selectedWeek, i_weeks (obj item) with
        | Some w, Some ws => negb (isWeekInRanges w (Some ws))
        | _, _ => false
        end
  then m
  else timeMap_push (time_key item) item m.

Definition DAY_NAMES : list jsstring :=
  [ []; js "周一"; js "周二"; js "周三"; js "周四"; js "周五"; js "周六"; js "周日" ].

(** A value interpolated in a template literal. *)
Definition show (o : option jsstring) : jsstring :=
  match o with
  | Some v => v
  | None => js "undefined"
  end.

Definition conflict_message (timeSlots : list TimeSlot) (selectedWeek : option Z)
    (timeKey : jsstring) : jsstring :=
  let parts := split_on (ch "-") timeKey in
  let dayOfWeek := nth 0 parts [] in
  let timeSlotId := nth_error parts 1 in
  let timeSlot :=
    match timeSlotId with
    | Some i => find (fun ts => str_eqb (ts_id ts) i) timeSlots
    | None => None
    end in
  let dayName :=
    match parseInt dayOfWeek with
    | Some n => nth_error DAY_NAMES (Z.to_nat n)
    | None => None
    end in
  let weekInfo :=
    match selectedWeek with
    | Some w => if negb (w =? 0) then js "第" ++ toString w ++ js "周 " else []
    | None => []
    end in
  weekInfo ++ show dayName ++ js " "
  ++ show (or_str (match timeSlot with Some ts => Some (ts_name ts) | None => None end)
                  timeSlotId)
  ++ js " 有多个课程安排".

(** The callback of [timeMap.forEach]: the conflict it pushes, if any. *)
Definition conflict_of_group (timeSlots : list TimeSlot) (selectedWeek : option Z)
    (entry : jsstring * list ItemRef) : list Conflict :=
  let (timeKey, items) := entry in
  if (1 <? length items)%nat then
    let conflictItems := findWeekConflictingItems items selectedWeek in
    if (1 <? length conflictItems)%nat
    then [mkConflict time (conflict_message timeSlots selectedWeek timeKey) conflictItems]
    else []
  else [].

Definition group_items (sched : list ItemRef) (selectedWeek : option Z) : TimeMap :=
  fold_left (group_step selectedWeek) sched [].

Definition detectTimeConflicts (timeSlots : list TimeSlot) (sched : list ItemRef)
    (selectedWeek : option Z) : list Conflict :=
  flat_map (conflict_of_group timeSlots selectedWeek) (group_items sched selectedWeek).

Definition detectConflicts := detectTimeConflicts.

(** [generateSchedule] of an instance built by
    [new SchedulingAlgorithm(courses, teachers, timeSlots)].  On data of the
    declared types no statement of its [try] block throws, so this is the
    result of every call. *)
Definition generateSchedule (courses : list Course) (timeSlots : list TimeSlot)
    (options : SchedulingOptions) : SchedulingResult :=
  let this_timeSlots := sort_by_order timeSlots in
  let sched := fold_left (scheduleForCourse options) courses [] in
  let conflicts := detectConflicts this_timeSlots sched (selectedWeek options) in
  let weekInfo :=
    if truthy_num (selectedWeek options) then
      js "第" ++ toString (match selectedWeek options with Some w => w | None => 0 end)
      ++ js "周"
    else match weekRange options with
         | Some r => js "第" ++ toString (fst r) ++ js "-" ++ toString (snd r) ++ js "周"
         | None => js "全学期"
         end in
  mkResult sched conflicts
    (Nat.eqb (length conflicts) 0)
    (if Nat.eqb (length conflicts) 0
     then weekInfo ++ js "课表生成成功！"
     else weekInfo ++ js "课表生成完成，但存在 "
          ++ toString (Z.of_nat (length conflicts)) ++ js " 个时间冲突").

End SchedulingAlgorithm.


(* ================================================================== *)
(** ** Facts about the runtime fragment *)
(* ================================================================== *)

Module JsFacts.
Import Js.

Lemma str_eqb_eq (a b : jsstring) : str_eqb a b = true <-> a = b.
Proof.
  revert b. induction a as [|x a IH]; intros [|y b]; simpl;
    try (split; [discriminate|discriminate]); [tauto|].
  rewrite andb_true_iff, Z.eqb_eq, IH. split.
  - intros [-> ->]. reflexivity.
  - intros E. inversion E. tauto.
Qed.

Lemma str_eqb_refl (a : jsstring) : str_eqb a a = true.
Proof. apply str_eqb_eq. reflexivity. Qed.

Lemma str_eqb_neq (a b : jsstring) : str_eqb a b = false <-> a <> b.
Proof.
  rewrite <- str_eqb_eq. destruct (str_eqb a b); split; congruence.
Qed.

(** *** Decimal digits *)

Definition all_digits (ds : jsstring) : Prop := Forall (fun c => isDigit c = true) ds.

(** [s] is empty or opens with a unit that is no digit. *)
Definition no_digit_ahead (s : jsstring) : Prop :=
  match s with
  | [] => True
  | c :: _ => isDigit c = false
  end.

Lemma digits_value_snoc (ds : jsstring) (d : Z) :
  digits_value (ds ++ [d]) = digits_value ds * 10 + (d - 48).
Proof. unfold digits_value. rewrite fold_left_app. reflexivity. Qed.

Lemma isDigit_mod (n : Z) : isDigit (48 + n mod 10) = true.
Proof.
  unfold isDigit. pose proof (Z.mod_pos_bound n 10 ltac:(lia)).
  apply andb_true_iff. split; apply Z.leb_le; lia.
Qed.

Lemma digits_aux_spec (f : nat) :
  forall n acc,
    0 <= n < 2 ^ Z.of_nat (S f) ->
    exists ds,
      digits_aux (S f) n acc = ds ++ acc
      /\ ds <> [] /\ all_digits ds /\ digits_value ds = n.
Proof.
  induction f as [|f IH]; intros n acc Hn.
  - exists [48 + n mod 10]. change (2 ^ Z.of_nat 1) with 2 in Hn.
    assert (E : (n <? 10) = true) by (apply Z.ltb_lt; lia).
    cbn [digits_aux]. rewrite E. repeat split; try discriminate.
    + constructor; [apply isDigit_mod|constructor].
    + unfold digits_value. cbn [fold_left]. rewrite Z.mod_small by lia. lia.
  - change (digits_aux (S (S f)) n acc)
      with (if n <? 10 then (48 + n mod 10) :: acc
            else digits_aux (S f) (n / 10) ((48 + n mod 10) :: acc)).
    destruct (n <? 10) eqn:E.
    + apply Z.ltb_lt in E. exists [48 + n mod 10].
      repeat split; try discriminate.
      * constructor; [apply isDigit_mod|constructor].
      * unfold digits_value. cbn [fold_left]. rewrite Z.mod_small by lia. lia.
    + apply Z.ltb_ge in E.
      assert (Hq : 0 <= n / 10 < 2 ^ Z.of_nat (S f)).
      { split; [apply Z.div_pos; lia|].
        apply Z.div_lt_upper_bound; [lia|].
        rewrite (Nat2Z.inj_succ (S f)), Z.pow_succ_r in Hn by lia. lia. }
      destruct (IH (n / 10) ((48 + n mod 10) :: acc) Hq) as [ds [E1 [E2 [E3 E4]]]].
      exists (ds ++ [48 + n mod 10]). repeat split.
      * rewrite E1, <- app_assoc. reflexivity.
      * destruct ds; discriminate.
      * apply Forall_app. split; [exact E3|].
        constructor; [apply isDigit_mod|constructor].
      * rewrite digits_value_snoc, E4.
        pose proof (Z.div_mod n 10 ltac:(lia)). lia.
Qed.

Lemma digits_spec (n : Z) :
  0 <= n -> digits n <> [] /\ all_digits (digits n) /\ digits_value (digits n) = n.
Proof.
  intros Hn. unfold digits.
  assert (Hb : 0 <= n < 2 ^ Z.of_nat (S (Z.to_nat (Z.log2 n)))).
  { split; [exact Hn|]. rewrite Nat2Z.inj_succ, Z2Nat.id by apply Z.log2_nonneg.
    destruct (Z.eq_dec n 0) as [->|Hne]; [reflexivity|].
    apply Z.log2_spec. lia. }
  destruct (digits_aux_spec _ n [] Hb) as [ds [E1 [E2 [E3 E4]]]].
  rewrite E1, app_nil_r. tauto.
Qed.

Lemma toString_nonneg (n : Z) : 0 <= n -> toString n = digits n.
Proof.
  intros Hn. unfold toString.
  destruct (n <? 0) eqn:E; [apply Z.ltb_lt in E; lia|reflexivity].
Qed.

Lemma takeWhile_digits (ds rest : jsstring) :
  all_digits ds -> no_digit_ahead rest -> takeWhile isDigit (ds ++ rest) = ds.
Proof.
  intros Hd Hr. induction Hd as [|d ds Hd _ IH]; simpl.
  - destruct rest as [|c r]; [reflexivity|]. simpl in Hr. simpl. rewrite Hr. reflexivity.
  - rewrite Hd, IH. reflexivity.
Qed.

Lemma parseInt_digits (ds : jsstring) :
  ds <> [] -> all_digits ds -> parseInt ds = Some (digits_value ds).
Proof.
  intros Hne Hd. unfold parseInt.
  rewrite <- (app_nil_r ds) at 1. rewrite takeWhile_digits by (exact Hd || exact I).
  destruct ds; [contradiction|reflexivity].
Qed.

(** [parseInt(n.toString())] is [n]. *)
Lemma parseInt_toString (n : Z) : 0 <= n -> parseInt (toString n) = Some n.
Proof.
  intros Hn. rewrite toString_nonneg by exact Hn.
  destruct (digits_spec n Hn) as [H1 [H2 H3]].
  rewrite parseInt_digits by assumption. rewrite H3. reflexivity.
Qed.

(** A run of digits closed by [-] is read back in one way only. *)
Lemma digits_dash_inj (d1 d2 r1 r2 : jsstring) :
  all_digits d1 -> all_digits d2 ->
  d1 ++ 45 :: r1 = d2 ++ 45 :: r2 -> d1 = d2 /\ r1 = r2.
Proof.
  intros H1. revert d2. induction H1 as [|x d1 Hx _ IH]; intros d2 H2 E.
  - destruct d2 as [|y d2]; simpl in E.
    + inversion E. tauto.
    + inversion H2 as [|? ? Hy _]; subst. inversion E; subst. discriminate.
  - destruct d2 as [|y d2]; simpl in E.
    + inversion E; subst. discriminate.
    + inversion H2 as [|? ? Hy H2']; subst. inversion E; subst.
      destruct (IH d2 H2' H1) as [-> ->]. tauto.
Qed.

(** [`${n}-${x}`] determines [n] and [x]. *)
Lemma toString_dash_inj (a b : Z) (x y : jsstring) :
  toString a ++ js "-" ++ x = toString b ++ js "-" ++ y -> a = b /\ x = y.
Proof.
  change (js "-") with [45]. unfold toString.
  destruct (a <? 0) eqn:Ea; destruct (b <? 0) eqn:Eb;
    try apply Z.ltb_lt in Ea; try apply Z.ltb_ge in Ea;
    try apply Z.ltb_lt in Eb; try apply Z.ltb_ge in Eb; intros E.
  - destruct (digits_spec (- a) ltac:(lia)) as [_ [Ha Va]].
    destruct (digits_spec (- b) ltac:(lia)) as [_ [Hb Vb]].
    simpl in E. inversion E as [E'].
    destruct (digits_dash_inj _ _ _ _ Ha Hb E') as [Ed Ex].
    split; [|exact Ex]. rewrite Ed in Va. lia.
  - destruct (digits_spec b Eb) as [Nb [Hb _]].
    destruct (digits b) as [|c ds]; [contradiction|].
    inversion Hb; subst. simpl in E. inversion E; subst. discriminate.
  - destruct (digits_spec a Ea) as [Na [Ha _]].
    destruct (digits a) as [|c ds]; [contradiction|].
    inversion Ha; subst. simpl in E. inversion E; subst. discriminate.
  - destruct (digits_spec a Ea) as [_ [Ha Va]].
    destruct (digits_spec b Eb) as [_ [Hb Vb]].
    destruct (digits_dash_inj _ _ _ _ Ha Hb E) as [Ed Ex].
    split; [|exact Ex]. rewrite Ed in Va. lia.
Qed.

End JsFacts.

(* ================================================================== *)
(** ** Facts about the regular-expression engine *)
(* ================================================================== *)

Module RegexFacts.
Import Js JsFacts.

(** [x] is the first way to match: the one the engine takes. *)
Definition leads (l : list mstate) (x : mstate) : Prop := exists tl, l = x :: tl.

(** [s] is empty or opens with a unit outside the class [p]. *)
Definition stops (p : Z -> bool) (s : jsstring) : Prop :=
  match s with
  | [] => True
  | c :: _ => p c = false
  end.

Lemma star_leads (p : Z -> bool) (ds rest : jsstring) :
  Forall (fun c => p c = true) ds -> stops p rest ->
  exists tl, star p (ds ++ rest) = rest :: tl.
Proof.
  intros Hd Hr. induction Hd as [|d ds Hd _ [tl IH]]; simpl.
  - destruct rest as [|c r]; [exists []; reflexivity|].
    simpl in Hr. simpl. rewrite Hr. exists []. reflexivity.
  - rewrite Hd, IH. eexists. reflexivity.
Qed.

Lemma leads_lit (c : Z) (s : jsstring) (caps : captures) :
  leads (run (Lit c) (c :: s, caps)) (s, caps).
Proof. simpl. rewrite Z.eqb_refl. exists []. reflexivity. Qed.

Lemma leads_cls (p : Z -> bool) (c : Z) (s : jsstring) (caps : captures) :
  p c = true -> leads (run (Cls p) (c :: s, caps)) (s, caps).
Proof. intros H. simpl. rewrite H. exists []. reflexivity. Qed.

Lemma leads_cat (r1 r2 : regex) (st st1 st2 : mstate) :
  leads (run r1 st) st1 -> leads (run r2 st1) st2 ->
  leads (run (Cat r1 r2) st) st2.
Proof.
  intros [t1 E1] [t2 E2]. simpl. rewrite E1. simpl. rewrite E2.
  eexists. reflexivity.
Qed.

Lemma leads_alt_l (r1 r2 : regex) (st x : mstate) :
  leads (run r1 st) x -> leads (run (Alt r1 r2) st) x.
Proof. intros [t E]. simpl. rewrite E. eexists. reflexivity. Qed.

Lemma leads_alt_r (r1 r2 : regex) (st x : mstate) :
  run r1 st = [] -> leads (run r2 st) x -> leads (run (Alt r1 r2) st) x.
Proof. intros E1 [t E]. simpl. rewrite E1, E. eexists. reflexivity. Qed.

Lemma leads_opt_in (r : regex) (st x : mstate) :
  leads (run r st) x -> leads (run (Opt r) st) x.
Proof. intros [t E]. simpl. rewrite E. eexists. reflexivity. Qed.

Lemma leads_opt_skip (r : regex) (st : mstate) :
  run r st = [] -> leads (run (Opt r) st) st.
Proof. intros E. simpl. rewrite E. exists []. reflexivity. Qed.

Lemma leads_plus (p : Z -> bool) (ds rest : jsstring) (caps : captures) :
  ds <> [] -> Forall (fun c => p c = true) ds -> stops p rest ->
  leads (run (Plus p) (ds ++ rest, caps)) (rest, caps).
Proof.
  intros Hne Hd Hr. destruct ds as [|d ds]; [contradiction|].
  inversion Hd as [|? ? Hp Hd']; subst. simpl. rewrite Hp.
  destruct (star_leads p ds rest Hd' Hr) as [tl E]. rewrite E.
  eexists. reflexivity.
Qed.

Lemma leads_star (p : Z -> bool) (ds rest : jsstring) (caps : captures) :
  Forall (fun c => p c = true) ds -> stops p rest ->
  leads (run (Star p) (ds ++ rest, caps)) (rest, caps).
Proof.
  intros Hd Hr. simpl.
  destruct (star_leads p ds rest Hd Hr) as [tl E]. rewrite E.
  eexists. reflexivity.
Qed.

Lemma leads_grp (n : nat) (r : regex) (s s' : jsstring) (caps caps' : captures) :
  leads (run r (s, caps)) (s', caps') ->
  leads (run (Grp n r) (s, caps))
        (s', (n, firstn (length s - length s') s) :: caps').
Proof. intros [t E]. simpl. rewrite E. eexists. reflexivity. Qed.

Lemma firstn_consumed (ds rest : jsstring) :
  firstn (length (ds ++ rest) - length rest) (ds ++ rest) = ds.
Proof.
  rewrite length_app, Nat.add_sub, firstn_app, Nat.sub_diag, firstn_all.
  simpl. apply app_nil_r.
Qed.

Lemma match_here_leads (r : regex) (i : nat) (s rest : jsstring) (caps : captures) :
  leads (run r (s, [])) (rest, caps) ->
  match_here r i s = Some (mkMatch i (firstn (length s - length rest) s) caps rest).
Proof. intros [t E]. unfold match_here. rewrite E. reflexivity. Qed.

Lemma search_from_here (r : regex) (i : nat) (s : jsstring) (m : Match) :
  match_here r i s = Some m -> search_from r i s = Some m.
Proof. intros E. destruct s; simpl; rewrite E; reflexivity. Qed.

Lemma search_from_skip (r : regex) (i : nat) (c : Z) (s : jsstring) :
  match_here r i (c :: s) = None ->
  search_from r i (c :: s) = search_from r (S i) s.
Proof. intros E. simpl. rewrite E. reflexivity. Qed.

(** *** Every match of a pattern that must read a unit shortens the input *)

Fixpoint consuming (r : regex) : bool :=
  match r with
  | Lit _ | Cls _ | Plus _ => true
  | Cat r1 r2 => consuming r1 || consuming r2
  | Alt r1 r2 => consuming r1 && consuming r2
  | Opt _ | Star _ => false
  | Grp _ r1 => consuming r1
  end.

Lemma star_shorter (p : Z -> bool) (s s' : jsstring) :
  In s' (star p s) -> (length s' <= length s)%nat.
Proof.
  induction s as [|c s IH]; simpl.
  - intros [<-|[]]. simpl. lia.
  - destruct (p c).
    + rewrite in_app_iff. intros [H|[<-|[]]]; [specialize (IH H)|simpl]; lia.
    + intros [<-|[]]. simpl. lia.
Qed.

Lemma run_shorter (r : regex) :
  forall st st',
    In st' (run r st) ->
    (length (fst st') <= length (fst st))%nat
    /\ (consuming r = true -> (length (fst st') < length (fst st))%nat).
Proof.
  induction r as [c|p|r1 IH1 r2 IH2|r1 IH1 r2 IH2|r1 IH1|p|p|n r1 IH1];
    intros [s caps] st'; simpl.
  - destruct s as [|x s]; [contradiction|].
    destruct (x =? c); [|contradiction]. intros [<-|[]]. simpl. lia.
  - destruct s as [|x s]; [contradiction|].
    destruct (p x); [|contradiction]. intros [<-|[]]. simpl. lia.
  - intros H. apply in_flat_map in H. destruct H as [st1 [H1 H2]].
    destruct (IH1 _ _ H1) as [A1 B1]. destruct (IH2 _ _ H2) as [A2 B2].
    simpl in A1, B1. split; [lia|].
    intros C. apply orb_true_iff in C. destruct C as [C|C].
    + specialize (B1 C). lia.
    + specialize (B2 C). lia.
  - rewrite in_app_iff. intros [H|H].
    + destruct (IH1 _ _ H) as [A B]. simpl in A, B. split; [exact A|].
      intros C. apply andb_true_iff in C. apply B, C.
    + destruct (IH2 _ _ H) as [A B]. simpl in A, B. split; [exact A|].
      intros C. apply andb_true_iff in C. apply B, C.
  - rewrite in_app_iff. intros [H|[<-|[]]].
    + destruct (IH1 _ _ H) as [A _]. simpl in A. split; [exact A|discriminate].
    + simpl. split; [lia|discriminate].
  - intros H. apply in_map_iff in H. destruct H as [s' [<- H]].
    simpl. split; [apply (star_shorter p), H|discriminate].
  - destruct s as [|x s]; [contradiction|].
    destruct (p x); [|contradiction].
    intros H. apply in_map_iff in H. destruct H as [s' [<- H]].
    apply star_shorter in H. simpl. lia.
  - intros H. apply in_map_iff in H. destruct H as [st1 [<- H]].
    destruct (IH1 _ _ H) as [A B]. simpl in *. split; assumption.
Qed.

Lemma match_here_after (r : regex) (i : nat) (s : jsstring) (m : Match) :
  consuming r = true -> match_here r i s = Some m ->
  (length (m_after m) < length s)%nat.
Proof.
  intros C. unfold match_here.
  destruct (run r (s, [])) as [|[rest caps] tl] eqn:E; [discriminate|].
  intros H. inversion H; subst. simpl.
  assert (Hin : In (rest, caps) (run r (s, []))) by (rewrite E; left; reflexivity).
  destruct (run_shorter r _ _ Hin) as [_ B]. apply B, C.
Qed.

Lemma search_from_after (r : regex) (s : jsstring) :
  consuming r = true ->
  forall i m, search_from r i s = Some m -> (length (m_after m) < length s)%nat.
Proof.
  intros C. induction s as [|c s IH]; intros i m; simpl.
  - destruct (match_here r i []) eqn:E; [|discriminate].
    intros H. inversion H; subst. apply (match_here_after r i [] m C E).
  - destruct (match_here r i (c :: s)) eqn:E.
    + intros H. inversion H; subst. apply (match_here_after r i (c :: s) m C E).
    + intros H. specialize (IH _ _ H). simpl. lia.
Qed.

(** The loop over the occurrences never stops for want of fuel: any larger
    bound gives the same list. *)
Lemma exec_loop_fuel (r : regex) :
  consuming r = true ->
  forall f1 f2 pos s,
    (length s < f1)%nat -> (length s < f2)%nat ->
    exec_loop f1 r pos s = exec_loop f2 r pos s.
Proof.
  intros C. induction f1 as [|f1 IH]; intros f2 pos s H1 H2; [lia|].
  destruct f2 as [|f2]; [lia|]. simpl.
  destruct (search_from r pos s) as [m|] eqn:E; [|reflexivity].
  pose proof (search_from_after r s C pos m E) as Hlt.
  f_equal. apply IH; lia.
Qed.

End RegexFacts.
(* ================================================================== *)
(** ** Week membership *)
(* ================================================================== *)

Module WeekFacts.
Import Js Types CourseTimeParser.

Definition in_range (w : Z) (r : WeekRange) : Prop := start r <= w <= end_ r.

Lemma in_range_test (w : Z) (r : WeekRange) :
  (start r <=? w) && (w <=? end_ r) = true <-> in_range w r.
Proof.
  unfold in_range. rewrite andb_true_iff, !Z.leb_le. tauto.
Qed.

(** C6. [isWeekInRanges w rs] is true when [rs] is absent or empty, and otherwise
    exactly when some range of [rs] has [start <= w <= end]; the three values
    the specification lists are the ones computed. *)
Theorem isWeekInRanges_spec :
  (forall w, isWeekInRanges w None = true) /\
  (forall w, isWeekInRanges w (Some []) = true) /\
  (forall w r rs,
      isWeekInRanges w (Some (r :: rs)) = true
      <-> exists x, In x (r :: rs) /\ start x <= w <= end_ x) /\
  isWeekInRanges 5 (Some [mkWeekRange 1 6; mkWeekRange 7 8]) = true /\
  isWeekInRanges 10 (Some [mkWeekRange 1 6; mkWeekRange 7 8]) = false /\
  isWeekInRanges 5 None = true.
Proof.
  repeat split; try reflexivity.
  - intros H. unfold isWeekInRanges in H. apply existsb_exists in H.
    destruct H as [x [Hin Hx]]. exists x. split; [exact Hin|].
    apply in_range_test in Hx. exact Hx.
  - intros [x [Hin Hx]]. unfold isWeekInRanges. apply existsb_exists.
    exists x. split; [exact Hin|]. apply in_range_test. exact Hx.
Qed.

End WeekFacts.

(* ================================================================== *)
(** ** Schedule generation *)
(* ================================================================== *)

Module ScheduleFacts.
Import Js Types CourseTimeParser SchedulingAlgorithm.

(** The entries of a course that pass both run-time checks. *)
Definition valid_slots (c : Course) : list FixedTimeSlot :=
  match c_fixedTimeSlots c with
  | None => []
  | Some entries =>
      flat_map (fun e => match e with Some fs => [fs] | None => [] end) entries
  end.

Definition items_of_slot (o : SchedulingOptions) (c : Course) (fs : FixedTimeSlot)
  : list ScheduleItem :=
  if slot_selected o fs then map (make_item c fs o) (timeSlotIds fs) else [].

Definition items_of_course (o : SchedulingOptions) (c : Course) : list ScheduleItem :=
  flat_map (items_of_slot o c) (valid_slots c).

(** Addresses are handed out in creation order. *)
Definition fresh (sched : list ItemRef) : Prop :=
  map addr sched = seq 0 (length sched).

Lemma push_item_obj (sched : list ItemRef) (it : ScheduleItem) :
  map obj (push_item sched it) = map obj sched ++ [it].
Proof. unfold push_item. rewrite map_app. reflexivity. Qed.

Lemma push_item_fresh (sched : list ItemRef) (it : ScheduleItem) :
  fresh sched -> fresh (push_item sched it).
Proof.
  unfold fresh, push_item. intros H.
  rewrite map_app, length_app, H. simpl.
  rewrite Nat.add_1_r, seq_S. reflexivity.
Qed.

Lemma push_loop_obj (f : jsstring -> ScheduleItem) (ids : list jsstring) :
  forall sched,
    map obj (fold_left (fun sc t => push_item sc (f t)) ids sched)
    = map obj sched ++ map f ids.
Proof.
  induction ids as [|t ids IH]; intros sched; simpl.
  - rewrite app_nil_r. reflexivity.
  - rewrite IH, push_item_obj, <- app_assoc. reflexivity.
Qed.

Lemma push_loop_fresh (f : jsstring -> ScheduleItem) (ids : list jsstring) :
  forall sched,
    fresh sched -> fresh (fold_left (fun sc t => push_item sc (f t)) ids sched).
Proof.
  induction ids as [|t ids IH]; intros sched H; simpl; [exact H|].
  apply IH, push_item_fresh, H.
Qed.

Lemma scheduleForSlot_obj (c : Course) (o : SchedulingOptions)
    (sched : list ItemRef) (e : option FixedTimeSlot) :
  map obj (scheduleForSlot c o sched e)
  = map obj sched
    ++ flat_map (items_of_slot o c) (match e with Some fs => [fs] | None => [] end).
Proof.
  destruct e as [fs|]; simpl; [|rewrite app_nil_r; reflexivity].
  unfold items_of_slot. destruct (slot_selected o fs).
  - rewrite push_loop_obj, app_nil_r. reflexivity.
  - rewrite app_nil_r. reflexivity.
Qed.

Lemma scheduleForSlot_fresh (c : Course) (o : SchedulingOptions)
    (sched : list ItemRef) (e : option FixedTimeSlot) :
  fresh sched -> fresh (scheduleForSlot c o sched e).
Proof.
  intros H. destruct e as [fs|]; simpl; [|exact H].
  destruct (slot_selected o fs); [|exact H].
  apply push_loop_fresh, H.
Qed.

Lemma slots_loop_obj (c : Course) (o : SchedulingOptions)
    (entries : list (option FixedTimeSlot)) :
  forall sched,
    map obj (fold_left (scheduleForSlot c o) entries sched)
    = map obj sched
      ++ flat_map (items_of_slot o c)
           (flat_map (fun e => match e with Some fs => [fs] | None => [] end) entries).
Proof.
  induction entries as [|e entries IH]; intros sched; simpl.
  - rewrite app_nil_r. reflexivity.
  - rewrite IH, scheduleForSlot_obj, flat_map_app, <- app_assoc. reflexivity.
Qed.

Lemma slots_loop_fresh (c : Course) (o : SchedulingOptions)
    (entries : list (option FixedTimeSlot)) :
  forall sched,
    fresh sched -> fresh (fold_left (scheduleForSlot c o) entries sched).
Proof.
  induction entries as [|e entries IH]; intros sched H; simpl; [exact H|].
  apply IH, scheduleForSlot_fresh, H.
Qed.

Lemma scheduleForCourse_obj (o : SchedulingOptions) (sched : list ItemRef)
    (c : Course) :
  map obj (scheduleForCourse o sched c) = map obj sched ++ items_of_course o c.
Proof.
  unfold scheduleForCourse, items_of_course, valid_slots.
  destruct (c_fixedTimeSlots c) as [entries|]; simpl.
  - apply slots_loop_obj.
  - rewrite app_nil_r. reflexivity.
Qed.

Lemma scheduleForCourse_fresh (o : SchedulingOptions) (sched : list ItemRef)
    (c : Course) :
  fresh sched -> fresh (scheduleForCourse o sched c).
Proof.
  intros H. unfold scheduleForCourse.
  destruct (c_fixedTimeSlots c) as [entries|]; [|exact H].
  apply slots_loop_fresh, H.
Qed.

Lemma courses_loop_obj (o : SchedulingOptions) (courses : list Course) :
  forall sched,
    map obj (fold_left (scheduleForCourse o) courses sched)
    = map obj sched ++ flat_map (items_of_course o) courses.
Proof.
  induction courses as [|c courses IH]; intros sched; simpl.
  - rewrite app_nil_r. reflexivity.
  - rewrite IH, scheduleForCourse_obj, <- app_assoc. reflexivity.
Qed.

Lemma courses_loop_fresh (o : SchedulingOptions) (courses : list Course) :
  forall sched,
    fresh sched -> fresh (fold_left (scheduleForCourse o) courses sched).
Proof.
  induction courses as [|c courses IH]; intros sched H; simpl; [exact H|].
  apply IH, scheduleForCourse_fresh, H.
Qed.

Lemma generateSchedule_items (courses : list Course) (timeSlots : list TimeSlot)
    (o : SchedulingOptions) :
  map obj (schedule (generateSchedule courses timeSlots o))
  = flat_map (items_of_course o) courses.
Proof. unfold generateSchedule. simpl. apply courses_loop_obj. Qed.

Lemma generateSchedule_fresh (courses : list Course) (timeSlots : list TimeSlot)
    (o : SchedulingOptions) :
  fresh (schedule (generateSchedule courses timeSlots o)).
Proof.
  unfold generateSchedule. simpl. apply courses_loop_fresh. reflexivity.
Qed.

Lemma length_flat_map_sum {A B : Type} (f : A -> list B) (l : list A) :
  length (flat_map f l) = list_sum (map (fun x => length (f x)) l).
Proof.
  induction l as [|x l IH]; simpl; [reflexivity|].
  rewrite length_app, IH. reflexivity.
Qed.

Lemma items_of_slot_no_options (c : Course) (fs : FixedTimeSlot) :
  items_of_slot no_options c fs = map (make_item c fs no_options) (timeSlotIds fs).
Proof. reflexivity. Qed.

(** C5. Without week options the generated schedule holds, in order, one item
    per course, per valid fixed time slot of the course and per period id of
    the slot; its length is the sum of the numbers of period ids; each item is
    an object of its own.  One course with slots (1, ["5","6"]) and
    (3, ["5","6"]) gives 4 items. *)
Theorem generateSchedule_one_item_per_period :
  forall (courses : list Course) (timeSlots : list TimeSlot),
    let sched := schedule (generateSchedule courses timeSlots no_options) in
    map obj sched
    = flat_map (fun c =>
        flat_map (fun fs => map (make_item c fs no_options) (timeSlotIds fs))
                 (valid_slots c)) courses
    /\ length sched
       = list_sum (map (fun c =>
           list_sum (map (fun fs => length (timeSlotIds fs)) (valid_slots c)))
           courses)
    /\ NoDup (map addr sched)
    /\ forall cid tid loc w1 l1 w2 l2,
         length (schedule (generateSchedule
           [mkCourse cid tid
              (Some [Some (mkFixedTimeSlot 1 [js "5"; js "6"] w1 l1);
                     Some (mkFixedTimeSlot 3 [js "5"; js "6"] w2 l2)]) loc]
           timeSlots no_options)) = 4%nat.
Proof.
  intros courses timeSlots sched.
  assert (Hobj : map obj sched
    = flat_map (fun c =>
        flat_map (fun fs => map (make_item c fs no_options) (timeSlotIds fs))
                 (valid_slots c)) courses).
  { unfold sched. rewrite generateSchedule_items. reflexivity. }
  split; [exact Hobj|]. split; [|split].
  - rewrite <- (length_map obj), Hobj, length_flat_map_sum.
    f_equal. apply map_ext. intros c. rewrite length_flat_map_sum.
    f_equal. apply map_ext. intros fs. apply length_map.
  - unfold sched. rewrite generateSchedule_fresh. apply seq_NoDup.
  - intros. reflexivity.
Qed.

(** C2 (as the code has it). A call of [generateSchedule] that completes
    returns the whole generated schedule and the detected conflicts.  Its
    [success] flag is true exactly when no conflict was detected, and its
    message says so: after the week information it reads [课表生成成功！] when
    there is no conflict, and [课表生成完成，但存在 N 个时间冲突], with the number
    [N] of conflicts, when there is one or more, in which case [success] is
    false. *)
Theorem generateSchedule_success_iff_no_conflict :
  forall (courses : list Course) (timeSlots : list TimeSlot)
         (options : SchedulingOptions),
    let r := generateSchedule courses timeSlots options in
    let rangeInfo :=
      match weekRange options with
      | Some (s, e) => js "第" ++ toString s ++ js "-" ++ toString e ++ js "周"
      | None => js "全学期"
      end in
    let weekInfo :=
      match selectedWeek options with
      | Some w => if w =? 0 then rangeInfo else js "第" ++ toString w ++ js "周"
      | None => rangeInfo
      end in
    (success r = true <-> conflicts r = [])
    /\ (conflicts r = [] -> message r = weekInfo ++ js "课表生成成功！")
    /\ (conflicts r <> [] ->
        success r = false
        /\ message r
           = weekInfo ++ js "课表生成完成，但存在 "
             ++ toString (Z.of_nat (length (conflicts r))) ++ js " 个时间冲突")
    /\ map obj (schedule r) = flat_map (items_of_course options) courses
    /\ conflicts r
       = detectTimeConflicts (sort_by_order timeSlots) (schedule r)
           (selectedWeek options).
Proof.
  intros courses timeSlots options r rangeInfo weekInfo.
  assert (Hw : forall tail,
             (if truthy_num (selectedWeek options)
              then js "第"
                   ++ toString (match selectedWeek options with
                                | Some w => w
                                | None => 0
                                end) ++ js "周"
              else match weekRange options with
                   | Some x =>
                       js "第" ++ toString (fst x) ++ js "-" ++ toString (snd x)
                       ++ js "周"
                   | None => js "全学期"
                   end) ++ tail
             = weekInfo ++ tail).
  { intros tail. unfold weekInfo, rangeInfo, truthy_num.
    destruct (selectedWeek options) as [w|].
    - destruct (w =? 0); cbn [negb]; [|reflexivity].
      destruct (weekRange options) as [[s e]|]; reflexivity.
    - destruct (weekRange options) as [[s e]|]; reflexivity. }
  assert (Hm : message r
               = if Nat.eqb (length (conflicts r)) 0
                 then weekInfo ++ js "课表生成成功！"
                 else weekInfo ++ js "课表生成完成，但存在 "
                      ++ toString (Z.of_nat (length (conflicts r)))
                      ++ js " 个时间冲突").
  { unfold r, generateSchedule. cbn [message conflicts].
    destruct (Nat.eqb (length (detectConflicts (sort_by_order timeSlots)
                (fold_left (scheduleForCourse options) courses [])
                (selectedWeek options))) 0); apply Hw. }
  assert (Hs : success r = Nat.eqb (length (conflicts r)) 0) by reflexivity.
  split; [|split; [|split; [|split]]].
  - rewrite Hs, Nat.eqb_eq. split; [apply length_zero_iff_nil|intros ->; reflexivity].
  - intros E. rewrite Hm, E. reflexivity.
  - intros N. assert (E : Nat.eqb (length (conflicts r)) 0 = false).
    { apply Nat.eqb_neq. intros H. apply N, length_zero_iff_nil, H. }
    rewrite Hs, Hm, E. split; reflexivity.
  - apply generateSchedule_items.
  - reflexivity.
Qed.

(** Two courses on Monday's period 5, weeks 1-8 and 6-10. *)
Definition clash_courses : list Course :=
  [ mkCourse (js "1") (js "t1")
      (Some [Some (mkFixedTimeSlot 1 [js "5"] (Some [mkWeekRange 1 8]) None)]) None;
    mkCourse (js "2") (js "t2")
      (Some [Some (mkFixedTimeSlot 1 [js "5"] (Some [mkWeekRange 6 10]) None)]) None ].

(** C2, as stated, fails: a completed run with a conflict is not successful. *)
Lemma generateSchedule_conflict_not_success :
  let r := generateSchedule clash_courses [] no_options in
  length (schedule r) = 2%nat /\ length (conflicts r) = 1%nat /\ success r = false
  /\ message r = js "全学期课表生成完成，但存在 1 个时间冲突".
Proof. vm_compute. repeat split; reflexivity. Qed.

(** C10 (as the code has it). Every generated item comes from a valid fixed
    time slot of a course; its weeks are the slot's, and its location is the
    slot's when that is a non-empty string and the course's otherwise. *)
Theorem schedule_item_weeks_location :
  forall (courses : list Course) (timeSlots : list TimeSlot)
         (options : SchedulingOptions) (r : ItemRef),
    In r (schedule (generateSchedule courses timeSlots options)) ->
    exists course fixedSlot,
      In course courses /\ In fixedSlot (valid_slots course)
      /\ In (i_timeSlotId (obj r)) (timeSlotIds fixedSlot)
      /\ i_courseId (obj r) = c_id course
      /\ i_dayOfWeek (obj r) = dayOfWeek fixedSlot
      /\ i_weeks (obj r) = weeks fixedSlot
      /\ i_location (obj r)
         = match location fixedSlot with
           | Some (c :: l) => Some (c :: l)
           | _ => c_location course
           end.
Proof.
  intros courses timeSlots options r Hin.
  apply (in_map obj) in Hin. rewrite generateSchedule_items in Hin.
  apply in_flat_map in Hin. destruct Hin as [course [Hc Hin]].
  unfold items_of_course in Hin. apply in_flat_map in Hin.
  destruct Hin as [fs [Hfs Hin]]. unfold items_of_slot in Hin.
  destruct (slot_selected options fs); [|contradiction].
  apply in_map_iff in Hin. destruct Hin as [t [Ht Hin]].
  exists course, fs. rewrite <- Ht. simpl.
  repeat split; try assumption.
  unfold or_str, truthy_str. destruct (location fs) as [[|c l]|]; reflexivity.
Qed.

Definition one_course : list Course :=
  [ mkCourse (js "1") (js "t1")
      (Some [Some (mkFixedTimeSlot 1 [js "5"] None (Some (js "B411")))])
      (Some (js "A")) ].

Lemma schedule_item_weeks_location_witness :
  exists course fixedSlot,
    In course one_course /\ In fixedSlot (valid_slots course)
    /\ In (js "5") (timeSlotIds fixedSlot)
    /\ js "1" = c_id course
    /\ 1 = dayOfWeek fixedSlot
    /\ None = weeks fixedSlot
    /\ Some (js "B411")
       = match location fixedSlot with
         | Some (c :: l) => Some (c :: l)
         | _ => c_location course
         end.
Proof.
  apply (schedule_item_weeks_location one_course [] no_options
           (0%nat, make_item (mkCourse (js "1") (js "t1") None (Some (js "A")))
                     (mkFixedTimeSlot 1 [js "5"] None (Some (js "B411")))
                     no_options (js "5"))).
  vm_compute. left. reflexivity.
Defined.

(** The slot's location is the empty string, the course's is "A". *)
Definition empty_location_course : list Course :=
  [ mkCourse (js "1") (js "t1")
      (Some [Some (mkFixedTimeSlot 1 [js "5"] None (Some []))]) (Some (js "A")) ].

(** C10, as stated, fails: a slot whose location is present but empty does not
    pass it on; the item carries the course's location. *)
Lemma schedule_item_empty_location :
  map (fun fs => location fs) (flat_map valid_slots empty_location_course)
  = [Some []]
  /\ map (fun r => i_location (obj r))
         (schedule (generateSchedule empty_location_course [] no_options))
     = [Some (js "A")].
Proof. vm_compute. split; reflexivity. Qed.

End ScheduleFacts.

(* ================================================================== *)
(** ** Week-range merge *)
(* ================================================================== *)

Module MergeFacts.
Import Js Types CourseTimeParser WeekFacts.

Definition valid (r : WeekRange) : Prop := start r <= end_ r.

(** The set of weeks a list of ranges denotes. *)
Definition covers (l : list WeekRange) (w : Z) : Prop :=
  exists r, In r l /\ in_range w r.

Fixpoint sorted_by_start (l : list WeekRange) : Prop :=
  match l with
  | [] => True
  | r :: l' => Forall (fun r' => start r <= start r') l' /\ sorted_by_start l'
  end.

(** Ranges in ascending order, each non-empty, with at least one week missing
    between two neighbours: pairwise non-overlapping and non-adjacent. *)
Fixpoint canonical (l : list WeekRange) : Prop :=
  match l with
  | [] => True
  | r :: l' =>
      valid r /\ Forall (fun r' => end_ r + 1 < start r') l' /\ canonical l'
  end.

(** The loop of [mergeWeekRanges] once [merged] is not empty, with its last
    element [cur] held apart. *)
Fixpoint walk (cur : WeekRange) (l : list WeekRange) : list WeekRange :=
  match l with
  | [] => [cur]
  | r :: l' =>
      if start r <=? end_ cur + 1
      then walk (mkWeekRange (start cur) (Z.max (end_ cur) (end_ r))) l'
      else cur :: walk r l'
  end.

Lemma merge_step_last (m : list WeekRange) (cur next : WeekRange) :
  merge_step (m ++ [cur]) next
  = if start next <=? end_ cur + 1
    then m ++ [mkWeekRange (start cur) (Z.max (end_ cur) (end_ next))]
    else m ++ [cur; next].
Proof.
  unfold merge_step. rewrite rev_app_distr. simpl.
  destruct (start next <=? end_ cur + 1).
  - rewrite rev_involutive. reflexivity.
  - rewrite <- app_assoc. reflexivity.
Qed.

Lemma merge_loop_walk (l : list WeekRange) :
  forall m cur, fold_left merge_step l (m ++ [cur]) = m ++ walk cur l.
Proof.
  induction l as [|r l IH]; intros m cur; simpl; [reflexivity|].
  rewrite merge_step_last. destruct (start r <=? end_ cur + 1).
  - apply IH.
  - change (m ++ [cur; r]) with (m ++ [cur] ++ [r]).
    rewrite app_assoc, IH, <- app_assoc. reflexivity.
Qed.

Lemma merge_loop_from_empty (r : WeekRange) (l : list WeekRange) :
  fold_left merge_step (r :: l) [] = walk r l.
Proof. simpl. apply (merge_loop_walk l [] r). Qed.

(** *** The sort *)

Lemma insert_perm (x : WeekRange) (l : list WeekRange) :
  Permutation (insert_by_start x l) (x :: l).
Proof.
  induction l as [|y l IH]; simpl; [apply Permutation_refl|].
  destruct (start x <=? start y); [apply Permutation_refl|].
  eapply Permutation_trans; [apply perm_skip, IH|apply perm_swap].
Qed.

Lemma sort_perm (l : list WeekRange) : Permutation (sort_by_start l) l.
Proof.
  induction l as [|x l IH]; simpl; [apply perm_nil|].
  eapply Permutation_trans; [apply insert_perm|apply perm_skip, IH].
Qed.

Lemma insert_sorted (x : WeekRange) (l : list WeekRange) :
  sorted_by_start l -> sorted_by_start (insert_by_start x l).
Proof.
  induction l as [|y l IH]; simpl; intros H.
  - split; [constructor|exact I].
  - destruct H as [Hy Hl]. destruct (start x <=? start y) eqn:E.
    + apply Z.leb_le in E. simpl. split; [|split; assumption].
      constructor; [exact E|].
      eapply Forall_impl; [|exact Hy]. simpl. intros a Ha. lia.
    + apply Z.leb_gt in E. simpl. split; [|apply IH, Hl].
      eapply Permutation_Forall; [apply Permutation_sym, insert_perm|].
      constructor; [lia|exact Hy].
Qed.

Lemma sort_sorted (l : list WeekRange) : sorted_by_start (sort_by_start l).
Proof.
  induction l as [|x l IH]; simpl; [exact I|apply insert_sorted, IH].
Qed.

Lemma sort_nil_inv (l : list WeekRange) : sort_by_start l = [] -> l = [].
Proof.
  intros H. pose proof (sort_perm l) as P. rewrite H in P.
  apply Permutation_nil in P. exact P.
Qed.

(** *** The walk over a sorted list *)

Lemma walk_head (l : list WeekRange) :
  forall cur, exists e rest,
    walk cur l = mkWeekRange (start cur) e :: rest /\ end_ cur <= e.
Proof.
  induction l as [|r l IH]; intros cur; simpl.
  - exists (end_ cur), []. destruct cur; simpl. split; [reflexivity|lia].
  - destruct (start r <=? end_ cur + 1).
    + destruct (IH (mkWeekRange (start cur) (Z.max (end_ cur) (end_ r))))
        as [e [rest [E Hle]]].
      exists e, rest. simpl in *. split; [exact E|lia].
    + exists (end_ cur), (walk r l). destruct cur; simpl. split; [reflexivity|lia].
Qed.

Lemma walk_starts_after (l : list WeekRange) :
  forall cur b,
    b < start cur -> Forall (fun r => start cur <= start r) l ->
    sorted_by_start l ->
    Forall (fun r => b < start r) (walk cur l).
Proof.
  induction l as [|r l IH]; intros cur b Hb Hall Hs; simpl.
  - constructor; [exact Hb|constructor].
  - inversion Hall as [|? ? Hr Hl]; subst. destruct Hs as [Hrl Hs].
    destruct (start r <=? end_ cur + 1).
    + apply IH; simpl; assumption.
    + constructor; [exact Hb|].
      apply IH; [lia|exact Hrl|exact Hs].
Qed.

Lemma walk_canonical (l : list WeekRange) :
  forall cur,
    valid cur -> Forall valid l ->
    Forall (fun r => start cur <= start r) l -> sorted_by_start l ->
    canonical (walk cur l).
Proof.
  induction l as [|r l IH]; intros cur Hc Hv Hall Hs; simpl.
  - repeat split; [exact Hc|constructor].
  - inversion Hv as [|? ? Hvr Hvl]; subst.
    inversion Hall as [|? ? Hr Hl]; subst. destruct Hs as [Hrl Hs].
    destruct (start r <=? end_ cur + 1) eqn:E.
    + apply IH; simpl; try assumption. unfold valid in *. simpl. lia.
    + apply Z.leb_gt in E. simpl. split; [exact Hc|]. split.
      * apply walk_starts_after; assumption.
      * apply IH; try assumption.
Qed.

Lemma walk_covers (l : list WeekRange) :
  forall cur w,
    Forall valid l ->
    Forall (fun r => start cur <= start r) l -> sorted_by_start l ->
    (covers (walk cur l) w <-> in_range w cur \/ covers l w).
Proof.
  unfold covers.
  induction l as [|r l IH]; intros cur w Hv Hall Hs; simpl.
  - split.
    + intros [x [[<-|[]] Hx]]. left. exact Hx.
    + intros [H|[x [[] _]]]. exists cur. split; [left; reflexivity|exact H].
  - inversion Hv as [|? ? Hvr Hvl]; subst.
    inversion Hall as [|? ? Hr Hl]; subst. destruct Hs as [Hrl Hs].
    destruct (start r <=? end_ cur + 1) eqn:E.
    + apply Z.leb_le in E. rewrite IH; simpl; try assumption.
      unfold in_range, valid in *. simpl. split.
      * intros [H|[x [Hin Hx]]].
        -- destruct (Z_le_gt_dec w (end_ cur)).
           ++ left. lia.
           ++ right. exists r. split; [left; reflexivity|lia].
        -- right. exists x. split; [right; exact Hin|exact Hx].
      * intros [H|[x [[<-|Hin] Hx]]].
        -- left. lia.
        -- left. lia.
        -- right. exists x. split; assumption.
    + split.
      * intros [x [[<-|Hin] Hx]].
        -- left. exact Hx.
        -- right. assert (H : in_range w r \/ exists y, In y l /\ in_range w y).
           { apply IH; try assumption. exists x. split; assumption. }
           destruct H as [H|[y [Hy Hw]]].
           ++ exists r. split; [left; reflexivity|exact H].
           ++ exists y. split; [right; exact Hy|exact Hw].
      * intros [H|[x [[<-|Hin] Hx]]].
        -- exists cur. split; [left; reflexivity|exact H].
        -- assert (H : exists y, In y (walk r l) /\ in_range w y).
           { apply IH; try assumption. left. exact Hx. }
           destruct H as [y [Hy Hw]]. exists y. split; [right; exact Hy|exact Hw].
        -- assert (H : exists y, In y (walk r l) /\ in_range w y).
           { apply IH; try assumption. right. exists x. split; assumption. }
           destruct H as [y [Hy Hw]]. exists y. split; [right; exact Hy|exact Hw].
Qed.

(** *** No shorter list denotes the same weeks *)

Lemma canonical_minimal (out : list WeekRange) :
  canonical out ->
  forall L, Forall valid L -> (forall w, covers L w <-> covers out w) ->
            (length out <= length L)%nat.
Proof.
  induction out as [|o rest IH]; intros Hc L HL Hsame; simpl; [lia|].
  destruct Hc as [Ho [Hgap Hrest]].
  set (f := fun r : WeekRange => start r <=? end_ o).
  rewrite <- (filter_length f L).
  assert (H1 : (1 <= length (filter f L))%nat).
  { assert (Hcov : covers L (start o)).
    { apply Hsame. exists o. split; [left; reflexivity|].
      unfold in_range, valid in *. lia. }
    destruct Hcov as [r [Hr Hw]].
    assert (Hin : In r (filter f L)).
    { apply filter_In. split; [exact Hr|]. unfold f. apply Z.leb_le.
      unfold in_range, valid in *. lia. }
    destruct (filter f L); [contradiction|simpl; lia]. }
  assert (H2 : (length rest <= length (filter (fun x => negb (f x)) L))%nat).
  { apply IH; [exact Hrest| |].
    - apply Forall_forall. intros r Hr. apply filter_In in Hr.
      rewrite Forall_forall in HL. apply HL, Hr.
    - assert (Hnext : ~ covers (o :: rest) (end_ o + 1)).
      { intros [r [[<-|Hr] Hw]]; unfold in_range in Hw; [lia|].
        rewrite Forall_forall in Hgap. specialize (Hgap r Hr). lia. }
      intros w. split.
      + intros [r [Hr Hw]]. apply filter_In in Hr. destruct Hr as [Hr Hf].
        unfold f in Hf. apply negb_true_iff, Z.leb_gt in Hf.
        assert (Hcov : covers (o :: rest) w).
        { apply Hsame. exists r. split; assumption. }
        destruct Hcov as [x [[<-|Hx] Hxw]].
        * unfold in_range in *. lia.
        * exists x. split; assumption.
      + intros [x [Hx Hxw]].
        assert (Hcov : covers L w).
        { apply Hsame. exists x. split; [right; exact Hx|exact Hxw]. }
        destruct Hcov as [r [Hr Hw]].
        exists r. split; [|exact Hw]. apply filter_In. split; [exact Hr|].
        unfold f. apply negb_true_iff, Z.leb_gt.
        destruct (Z_le_gt_dec (start r) (end_ o)) as [Hle|Hgt]; [|lia].
        exfalso. apply Hnext. apply Hsame. exists r. split; [exact Hr|].
        rewrite Forall_forall in Hgap. specialize (Hgap x Hx).
        unfold in_range in *. lia. }
  lia.
Qed.

Lemma covers_perm (l l' : list WeekRange) (w : Z) :
  Permutation l l' -> (covers l w <-> covers l' w).
Proof.
  intros P. unfold covers. split; intros [r [Hr Hw]]; exists r; split; try exact Hw.
  - eapply Permutation_in; [exact P|exact Hr].
  - eapply Permutation_in; [apply Permutation_sym, P|exact Hr].
Qed.

Lemma mergeWeekRanges_walk (l : list WeekRange) :
  mergeWeekRanges l
  = match sort_by_start l with
    | [] => []
    | r :: l' => walk r l'
    end.
Proof.
  unfold mergeWeekRanges. destruct l as [|x l]; [reflexivity|].
  destruct (sort_by_start (x :: l)) as [|r l'] eqn:E.
  - apply sort_nil_inv in E. discriminate.
  - apply merge_loop_from_empty.
Qed.

Lemma mergeWeekRanges_canonical (l : list WeekRange) :
  Forall valid l -> canonical (mergeWeekRanges l).
Proof.
  intros Hv. rewrite mergeWeekRanges_walk.
  pose proof (sort_sorted l) as Hs. pose proof (sort_perm l) as P.
  assert (Hv' : Forall valid (sort_by_start l)).
  { eapply Permutation_Forall; [apply Permutation_sym, P|exact Hv]. }
  destruct (sort_by_start l) as [|r l']; [exact I|].
  inversion Hv'; subst. destruct Hs as [Hr Hs].
  apply walk_canonical; assumption.
Qed.

Lemma mergeWeekRanges_covers (l : list WeekRange) (w : Z) :
  Forall valid l -> (covers (mergeWeekRanges l) w <-> covers l w).
Proof.
  intros Hv. rewrite mergeWeekRanges_walk.
  pose proof (sort_sorted l) as Hs. pose proof (sort_perm l) as P.
  assert (Hv' : Forall valid (sort_by_start l)).
  { eapply Permutation_Forall; [apply Permutation_sym, P|exact Hv]. }
  rewrite <- (covers_perm _ _ w P).
  destruct (sort_by_start l) as [|r l']; [reflexivity|].
  inversion Hv'; subst. destruct Hs as [Hr Hs].
  rewrite walk_covers by assumption. unfold covers. split.
  - intros [H|[x [Hx Hw]]].
    + exists r. split; [left; reflexivity|exact H].
    + exists x. split; [right; exact Hx|exact Hw].
  - intros [x [[<-|Hx] Hw]]; [left; exact Hw|].
    right. exists x. split; assumption.
Qed.

(** C4. On ranges with [start <= end], [mergeWeekRanges] walks the ranges
    sorted by [start], merging the next range into the current one exactly when
    its start is at most the current end plus one (the end becomes the larger
    of the two); the result is in ascending order without overlap or
    adjacency, denotes the same weeks as the input, and no list of ranges
    denoting these weeks is shorter.  [{1,6},{7,8}] gives [{1,8}], and
    [{1,5},{8,10}] is returned as it is. *)
Theorem mergeWeekRanges_minimal_cover :
  forall l : list WeekRange,
    Forall valid l ->
    (mergeWeekRanges l = fold_left merge_step (sort_by_start l) []
     /\ Permutation (sort_by_start l) l /\ sorted_by_start (sort_by_start l))
    /\ (forall next, merge_step [] next = [next])
    /\ (forall m cur next,
          merge_step (m ++ [cur]) next
          = if start next <=? end_ cur + 1
            then m ++ [mkWeekRange (start cur) (Z.max (end_ cur) (end_ next))]
            else m ++ [cur; next])
    /\ canonical (mergeWeekRanges l)
    /\ (forall w, covers (mergeWeekRanges l) w <-> covers l w)
    /\ (forall l', Forall valid l' -> (forall w, covers l' w <-> covers l w) ->
                   (length (mergeWeekRanges l) <= length l')%nat)
    /\ mergeWeekRanges [mkWeekRange 1 6; mkWeekRange 7 8] = [mkWeekRange 1 8]
    /\ mergeWeekRanges [mkWeekRange 1 5; mkWeekRange 8 10]
       = [mkWeekRange 1 5; mkWeekRange 8 10].
Proof.
  intros l Hv. split; [split; [|split]|].
  - destruct l; reflexivity.
  - apply sort_perm.
  - apply sort_sorted.
  - split; [reflexivity|]. split; [apply merge_step_last|].
    split; [apply mergeWeekRanges_canonical, Hv|].
    split; [intros w; apply mergeWeekRanges_covers, Hv|].
    split; [|split; reflexivity].
    intros l' Hv' Hsame. apply canonical_minimal.
    + apply mergeWeekRanges_canonical, Hv.
    + exact Hv'.
    + intros w. rewrite Hsame. symmetry. apply mergeWeekRanges_covers, Hv.
Qed.

Lemma mergeWeekRanges_minimal_cover_witness :
  canonical (mergeWeekRanges [mkWeekRange 7 8; mkWeekRange 1 6; mkWeekRange 3 4])
  /\ (length (mergeWeekRanges [mkWeekRange 7 8; mkWeekRange 1 6; mkWeekRange 3 4])
      <= length [mkWeekRange 1 8])%nat.
Proof.
  assert (Hv : Forall valid [mkWeekRange 7 8; mkWeekRange 1 6; mkWeekRange 3 4]).
  { repeat constructor; unfold valid; simpl; lia. }
  destruct (mergeWeekRanges_minimal_cover _ Hv)
    as [_ [_ [_ [Hc [_ [Hmin _]]]]]].
  split; [exact Hc|]. simpl. lia.
Defined.

End MergeFacts.

(* ================================================================== *)
(** ** Deduplication of time slots *)
(* ================================================================== *)

Module DedupFacts.
Import Js JsFacts Types CourseTimeParser.

(** The input slots whose key is [k], in input order. *)
Definition group (k : jsstring) (l : list FixedTimeSlot) : list FixedTimeSlot :=
  filter (fun s => str_eqb k (slot_key s)) l.

Definition others (k : jsstring) (l : list FixedTimeSlot) : list FixedTimeSlot :=
  filter (fun s => negb (str_eqb k (slot_key s))) l.

(** The weeks of the kept slot after a later slot with weeks [w] was absorbed. *)
Definition absorb (cur w : option (list WeekRange)) : option (list WeekRange) :=
  match w with
  | Some (x :: xs) =>
      match cur with
      | Some (e :: es) => Some (mergeWeekRanges ((e :: es) ++ (x :: xs)))
      | _ => Some (x :: xs)
      end
  | _ => cur
  end.

Definition collapse (s : FixedTimeSlot) (rest : list FixedTimeSlot) : FixedTimeSlot :=
  fold_left (fun e x => absorb_weeks x e) rest s.

Lemma with_weeks_same (s : FixedTimeSlot) :
  with_weeks s (match weeks s with Some w => Some w | None => None end) = s.
Proof. destruct s as [d i [w|] loc]; reflexivity. Qed.

Lemma absorb_weeks_fields (x e : FixedTimeSlot) :
  dayOfWeek (absorb_weeks x e) = dayOfWeek e
  /\ timeSlotIds (absorb_weeks x e) = timeSlotIds e
  /\ location (absorb_weeks x e) = location e
  /\ weeks (absorb_weeks x e) = absorb (weeks e) (weeks x).
Proof.
  unfold absorb_weeks, absorb.
  destruct (weeks x) as [[|w ws]|]; [tauto| |tauto].
  destruct (weeks e) as [[|a es]|]; simpl; tauto.
Qed.

Lemma absorb_weeks_key (x e : FixedTimeSlot) :
  slot_key (absorb_weeks x e) = slot_key e.
Proof.
  destruct (absorb_weeks_fields x e) as [Hd [Hi [Hl _]]].
  unfold slot_key. rewrite Hd, Hi, Hl. reflexivity.
Qed.

Lemma collapse_fields (rest : list FixedTimeSlot) :
  forall s,
    dayOfWeek (collapse s rest) = dayOfWeek s
    /\ timeSlotIds (collapse s rest) = timeSlotIds s
    /\ location (collapse s rest) = location s
    /\ weeks (collapse s rest) = fold_left absorb (map weeks rest) (weeks s).
Proof.
  unfold collapse.
  induction rest as [|x rest IH]; intros s; simpl; [tauto|].
  destruct (IH (absorb_weeks x s)) as [Hd [Hi [Hl Hw]]].
  destruct (absorb_weeks_fields x s) as [Hd' [Hi' [Hl' Hw']]].
  rewrite Hd, Hi, Hl, Hw, Hd', Hi', Hl', Hw'. tauto.
Qed.

Lemma collapse_key (s : FixedTimeSlot) (rest : list FixedTimeSlot) :
  slot_key (collapse s rest) = slot_key s.
Proof.
  destruct (collapse_fields rest s) as [Hd [Hi [Hl _]]].
  unfold slot_key. rewrite Hd, Hi, Hl. reflexivity.
Qed.

(** A step leaves the entries of the other keys alone. *)
Lemma dedup_step_head (k : jsstring) (v : FixedTimeSlot) (m : SlotMap)
    (x : FixedTimeSlot) :
  dedup_step ((k, v) :: m) x
  = if str_eqb k (slot_key x) then (k, absorb_weeks x v) :: m
    else (k, v) :: dedup_step m x.
Proof.
  unfold dedup_step. simpl. destruct (str_eqb k (slot_key x)); simpl; [reflexivity|].
  destruct (map_has (slot_key x) m); reflexivity.
Qed.

Lemma dedup_loop_head (l : list FixedTimeSlot) :
  forall k v m,
    fold_left dedup_step l ((k, v) :: m)
    = (k, collapse v (group k l)) :: fold_left dedup_step (others k l) m.
Proof.
  unfold group, others, collapse.
  induction l as [|x l IH]; intros k v m; simpl; [reflexivity|].
  rewrite dedup_step_head. destruct (str_eqb k (slot_key x)); simpl; apply IH.
Qed.

(** The function, one key at a time. *)
Lemma deduplicateTimeSlots_cons (s : FixedTimeSlot) (l : list FixedTimeSlot) :
  deduplicateTimeSlots (s :: l)
  = collapse s (group (slot_key s) l)
    :: deduplicateTimeSlots (others (slot_key s) l).
Proof.
  unfold deduplicateTimeSlots. simpl. unfold dedup_step at 2. simpl.
  rewrite with_weeks_same, dedup_loop_head. reflexivity.
Qed.

Lemma others_length (k : jsstring) (l : list FixedTimeSlot) :
  (length (others k l) <= length l)%nat.
Proof. apply filter_length_le. Qed.

Lemma group_others (k k' : jsstring) (l : list FixedTimeSlot) :
  k <> k' -> group k' (others k l) = group k' l.
Proof.
  intros Hne. unfold group, others.
  induction l as [|x l IH]; simpl; [reflexivity|].
  destruct (str_eqb k (slot_key x)) eqn:E; simpl.
  - apply str_eqb_eq in E. subst k.
    apply str_eqb_neq in Hne. rewrite (proj2 (str_eqb_neq _ _)); [exact IH|].
    intros E'. apply str_eqb_neq in Hne. apply Hne. symmetry. exact E'.
  - destruct (str_eqb k' (slot_key x)); [rewrite IH|]; reflexivity || exact IH.
Qed.

Lemma in_others_keys (k k' : jsstring) (l : list FixedTimeSlot) :
  In k' (map slot_key (others k l)) <-> In k' (map slot_key l) /\ k <> k'.
Proof.
  unfold others. rewrite !in_map_iff. split.
  - intros [x [Hx Hin]]. apply filter_In in Hin. destruct Hin as [Hin Hf].
    apply negb_true_iff, str_eqb_neq in Hf. subst k'.
    split; [exists x; tauto|exact Hf].
  - intros [[x [Hx Hin]] Hne]. exists x. split; [exact Hx|].
    apply filter_In. split; [exact Hin|].
    apply negb_true_iff, str_eqb_neq. subst k'. exact Hne.
Qed.

(** What [deduplicateTimeSlots] returns for [l]: one slot per key of [l], and
    each one is the first slot of its key with the weeks of the later ones
    absorbed in input order. *)
Definition deduplicated (l out : list FixedTimeSlot) : Prop :=
  NoDup (map slot_key out)
  /\ (forall k, In k (map slot_key out) <-> In k (map slot_key l))
  /\ (forall o, In o out ->
        exists s rest,
          group (slot_key o) l = s :: rest
          /\ dayOfWeek o = dayOfWeek s
          /\ timeSlotIds o = timeSlotIds s
          /\ location o = location s
          /\ weeks o = fold_left absorb (map weeks rest) (weeks s)).

Lemma deduplicateTimeSlots_deduplicated_len (n : nat) :
  forall l, (length l <= n)%nat -> deduplicated l (deduplicateTimeSlots l).
Proof.
  induction n as [|n IH]; intros l Hlen.
  - destruct l; [|simpl in Hlen; lia].
    repeat split; try constructor; simpl; tauto.
  - destruct l as [|s l].
    { repeat split; try constructor; simpl; tauto. }
    rewrite deduplicateTimeSlots_cons.
    set (k := slot_key s).
    assert (Hlen' : (length (others k l) <= n)%nat).
    { pose proof (others_length k l). simpl in Hlen. lia. }
    destruct (IH _ Hlen') as [Hnd [Hkeys Hgrp]].
    split; [|split].
    + simpl. constructor; [|exact Hnd].
      rewrite collapse_key. fold k. rewrite Hkeys, in_others_keys. tauto.
    + intros k'. simpl. rewrite collapse_key, Hkeys, in_others_keys. fold k.
      destruct (str_eqb k k') eqn:E.
      * apply str_eqb_eq in E. tauto.
      * apply str_eqb_neq in E. tauto.
    + intros o [Ho|Ho].
      * subst o. rewrite collapse_key. fold k.
        exists s, (group k l). unfold group at 1. simpl.
        unfold k at 1. rewrite str_eqb_refl. fold k. fold (group k l).
        split; [reflexivity|]. apply collapse_fields.
      * destruct (Hgrp o Ho) as [s' [rest [Hg Hf]]].
        assert (Hne : k <> slot_key o).
        { assert (Hin : In (slot_key o) (map slot_key (others k l))).
          { apply Hkeys. apply in_map. exact Ho. }
          apply in_others_keys in Hin. tauto. }
        exists s', rest. split; [|exact Hf].
        rewrite group_others in Hg by exact Hne.
        unfold group. simpl. fold k.
        rewrite (proj2 (str_eqb_neq _ _)).
        -- exact Hg.
        -- intros E. apply Hne. symmetry. exact E.
Qed.

Lemma absorb_all_none (ws : list (option (list WeekRange))) :
  Forall (fun w => w = None) ws -> fold_left absorb ws None = None.
Proof.
  induction ws as [|w ws IH]; intros H; simpl; [reflexivity|].
  inversion H; subst. simpl. apply IH. assumption.
Qed.

(** The key the specification words: the period ids are sorted before they are
    joined. *)
Fixpoint str_leb (a b : jsstring) : bool :=
  match a, b with
  | [], _ => true
  | _ :: _, [] => false
  | x :: a', y :: b' => (x <? y) || ((x =? y) && str_leb a' b')
  end.

Fixpoint insert_str (x : jsstring) (l : list jsstring) : list jsstring :=
  match l with
  | [] => [x]
  | y :: l' => if str_leb x y then x :: y :: l' else y :: insert_str x l'
  end.

Definition sorted_ids_key (slot : FixedTimeSlot) : Z * jsstring * jsstring :=
  (dayOfWeek slot,
   join (js ",") (fold_right insert_str [] (timeSlotIds slot)),
   match location slot with Some l => l | None => [] end).

(** C3, as stated, fails, in its key and in its weeks.  Two slots whose period
    ids are the same up to order have one sorted key and still stay two slots.
    A slot without week information that shares its key with a dated slot
    does not keep [undefined]: the slot returned for the key gets the dated
    slot's weeks, whichever of the two comes first.  And the week list of a
    key's only slot is returned as it is, not passed through the merge. *)
Lemma deduplicateTimeSlots_unsorted_ids_narrowed_weeks :
  let a := mkFixedTimeSlot 1 [js "5"; js "6"] (Some [mkWeekRange 1 6]) None in
  let b := mkFixedTimeSlot 1 [js "6"; js "5"] (Some [mkWeekRange 7 8]) None in
  let whole := mkFixedTimeSlot 1 [js "5"; js "6"] None None in
  let lone := mkFixedTimeSlot 2 [js "1"] (Some [mkWeekRange 1 3; mkWeekRange 2 5]) None in
  (sorted_ids_key a = sorted_ids_key b /\ deduplicateTimeSlots [a; b] = [a; b])
  /\ deduplicateTimeSlots [whole; a] = [a]
  /\ deduplicateTimeSlots [a; whole] = [a]
  /\ deduplicateTimeSlots [lone] = [lone]
  /\ mergeWeekRanges [mkWeekRange 1 3; mkWeekRange 2 5] = [mkWeekRange 1 5].
Proof. vm_compute. repeat split; reflexivity. Qed.

(** C3 (as the code has it). [deduplicateTimeSlots] groups the slots by the
    key string made of the day, the period ids joined in their given order
    and the location (or the empty string).  It returns one slot per key; the
    slot has the day, period ids and location of the first slot of the key;
    its weeks are those of the first slot into which the later slots' weeks
    are absorbed in order: a later slot without weeks changes nothing, a later
    slot with weeks replaces missing or empty weeks and is otherwise appended
    and passed through [mergeWeekRanges].  A key none of whose slots has weeks
    keeps [undefined].  Two slots equal up to weeks {1,6} and {7,8} give one
    slot with weeks [{1,8}]. *)
Theorem deduplicateTimeSlots_groups_by_key :
  forall l : list FixedTimeSlot,
    let out := deduplicateTimeSlots l in
    NoDup (map slot_key out)
    /\ (forall k, In k (map slot_key out) <-> In k (map slot_key l))
    /\ (forall o, In o out ->
          exists s rest,
            group (slot_key o) l = s :: rest
            /\ dayOfWeek o = dayOfWeek s
            /\ timeSlotIds o = timeSlotIds s
            /\ location o = location s
            /\ weeks o = fold_left absorb (map weeks rest) (weeks s)
            /\ ((forall x, In x (s :: rest) -> weeks x = None) -> weeks o = None))
    /\ (forall cur w,
          absorb cur w
          = match w with
            | Some (x :: xs) =>
                match cur with
                | Some (e :: es) => Some (mergeWeekRanges ((e :: es) ++ (x :: xs)))
                | _ => Some (x :: xs)
                end
            | _ => cur
            end)
    /\ (forall d ids loc,
          deduplicateTimeSlots
            [mkFixedTimeSlot d ids (Some [mkWeekRange 1 6]) loc;
             mkFixedTimeSlot d ids (Some [mkWeekRange 7 8]) loc]
          = [mkFixedTimeSlot d ids (Some [mkWeekRange 1 8]) loc]).
Proof.
  intros l out.
  destruct (deduplicateTimeSlots_deduplicated_len (length l) l (le_n _))
    as [Hnd [Hkeys Hgrp]].
  split; [exact Hnd|]. split; [exact Hkeys|]. split; [|split].
  - intros o Ho. destruct (Hgrp o Ho) as [s [rest [Hg [Hd [Hi [Hl Hw]]]]]].
    exists s, rest. repeat split; try assumption.
    intros Hnone. rewrite Hw, (Hnone s (or_introl eq_refl)).
    apply absorb_all_none. apply Forall_forall. intros w Hin.
    apply in_map_iff in Hin. destruct Hin as [x [<- Hx]].
    apply Hnone. right. exact Hx.
  - reflexivity.
  - intros d ids loc. rewrite deduplicateTimeSlots_cons.
    unfold group, others. simpl. rewrite str_eqb_refl. reflexivity.
Qed.

End DedupFacts.

(* ================================================================== *)
(** ** Conflict detection *)
(* ================================================================== *)

Module ConflictFacts.
Import Js JsFacts Types CourseTimeParser SchedulingAlgorithm.

(** Two items of a group overlap in weeks. *)
Definition overlap (a b : ItemRef) : bool :=
  hasWeekOverlap (i_weeks (obj a)) (i_weeks (obj b)).

Definition ranges_meet (r1 r2 : WeekRange) : Prop :=
  start r1 <= end_ r2 /\ start r2 <= end_ r1.

Lemma hasWeekOverlap_meet (w1 w2 : option (list WeekRange)) :
  hasWeekOverlap w1 w2 = true
  <-> no_weeks w1 = true \/ no_weeks w2 = true
      \/ exists l1 l2 r1 r2,
           w1 = Some l1 /\ w2 = Some l2 /\ In r1 l1 /\ In r2 l2 /\ ranges_meet r1 r2.
Proof.
  unfold ranges_meet.
  destruct w1 as [[|a l1]|]; try (simpl; tauto).
  destruct w2 as [[|b l2]|]; try (simpl; tauto).
  unfold hasWeekOverlap. cbn [no_weeks]. rewrite existsb_exists. split.
  - intros [r1 [H1 H]]. apply existsb_exists in H. destruct H as [r2 [H2 H]].
    apply andb_true_iff in H. rewrite !Z.leb_le in H.
    right. right. exists (a :: l1), (b :: l2), r1, r2. tauto.
  - intros [H|[H|[m1 [m2 [r1 [r2 [E1 [E2 [H1 [H2 H]]]]]]]]]]; try discriminate.
    inversion E1; inversion E2; subst.
    exists r1. split; [exact H1|]. apply existsb_exists.
    exists r2. split; [exact H2|]. apply andb_true_iff. rewrite !Z.leb_le. exact H.
Qed.

Lemma hasWeekOverlap_sym (w1 w2 : option (list WeekRange)) :
  hasWeekOverlap w1 w2 = hasWeekOverlap w2 w1.
Proof.
  apply eq_true_iff_eq. rewrite !hasWeekOverlap_meet. unfold ranges_meet. split.
  - intros [H|[H|[l1 [l2 [r1 [r2 H]]]]]]; [tauto|tauto|].
    right. right. exists l2, l1, r2, r1. tauto.
  - intros [H|[H|[l1 [l2 [r1 [r2 H]]]]]]; [tauto|tauto|].
    right. right. exists l2, l1, r2, r1. tauto.
Qed.

Lemma overlap_sym (a b : ItemRef) : overlap a b = overlap b a.
Proof. apply hasWeekOverlap_sym. Qed.

(** *** Object identity *)

(** Within [G] an address names one object. *)
Definition uniq (G : list ItemRef) : Prop :=
  forall a b, In a G -> In b G -> addr a = addr b -> a = b.

Lemma NoDup_uniq (G : list ItemRef) : NoDup (map addr G) -> uniq G.
Proof.
  induction G as [|g G IH]; intros Hnd a b Ha Hb E; [contradiction|].
  simpl in Hnd. inversion Hnd as [|? ? Hg Hnd']; subst.
  destruct Ha as [<-|Ha]; destruct Hb as [<-|Hb].
  - reflexivity.
  - exfalso. apply Hg. rewrite E. apply in_map. exact Hb.
  - exfalso. apply Hg. rewrite <- E. apply in_map. exact Ha.
  - apply IH; assumption.
Qed.

Lemma includes_iff (G l : list ItemRef) (x : ItemRef) :
  uniq G -> incl l G -> In x G -> (includes l x = true <-> In x l).
Proof.
  intros Hu Hl Hx. unfold includes. rewrite existsb_exists. split.
  - intros [y [Hy E]]. apply Nat.eqb_eq in E.
    rewrite <- (Hu y x (Hl y Hy) Hx E). exact Hy.
  - intros H. exists x. split; [exact H|apply Nat.eqb_refl].
Qed.

(** *** The two loops *)

Section Loops.
Variable G : list ItemRef.
Hypothesis G_uniq : uniq G.

Lemma conflict_inner_spec (item1 : ItemRef) (rest : list ItemRef) :
  forall hc acc,
    incl acc G -> incl rest G ->
    fst (conflict_inner item1 rest hc acc) = hc || existsb (overlap item1) rest
    /\ incl (snd (conflict_inner item1 rest hc acc)) G
    /\ forall x, In x (snd (conflict_inner item1 rest hc acc))
                 <-> In x acc \/ (In x rest /\ overlap item1 x = true).
Proof.
  induction rest as [|y rest IH]; intros hc acc Hacc Hrest; simpl.
  - rewrite orb_false_r. repeat split; tauto.
  - assert (Hy : In y G) by (apply Hrest; left; reflexivity).
    assert (Hrest' : incl rest G) by (intros z Hz; apply Hrest; right; exact Hz).
    fold (overlap item1 y). destruct (overlap item1 y) eqn:E.
    + set (acc' := if includes acc y then acc else acc ++ [y]).
      assert (Hacc' : incl acc' G).
      { unfold acc'. destruct (includes acc y); [exact Hacc|].
        apply incl_app; [exact Hacc|]. intros z [<-|[]]. exact Hy. }
      assert (Hmem : forall x, In x acc' <-> In x acc \/ x = y).
      { intros x. unfold acc'. destruct (includes acc y) eqn:Ei.
        - apply (includes_iff G acc y G_uniq Hacc Hy) in Ei.
          split; [tauto|]. intros [H| ->]; assumption.
        - rewrite in_app_iff. simpl.
          split; [intros [H|[<-|[]]]; auto|intros [H| ->]; auto]. }
      destruct (IH true acc' Hacc' Hrest') as [H1 [H2 H3]].
      rewrite H1, orb_true_r. simpl. split; [reflexivity|]. split; [exact H2|].
      intros x. rewrite H3, Hmem. split.
      * intros [[H| ->]|[H H']]; auto.
      * intros [H|[[<-|H] H']]; auto.
    + destruct (IH hc acc Hacc Hrest') as [H1 [H2 H3]].
      split; [exact H1|]. split; [exact H2|].
      intros x. rewrite H3. split.
      * intros [H|[H H']]; auto.
      * intros [H|[[<-|H] H']]; auto. congruence.
Qed.

(** [x] is one of a pair of [items] that overlaps. *)
Fixpoint hits (items : list ItemRef) (x : ItemRef) : Prop :=
  match items with
  | [] => False
  | a :: rest =>
      (x = a /\ existsb (overlap a) rest = true)
      \/ (In x rest /\ overlap a x = true)
      \/ hits rest x
  end.

Lemma conflict_outer_spec (items : list ItemRef) :
  forall acc,
    incl acc G -> incl items G ->
    forall x, In x (conflict_outer items acc) <-> In x acc \/ hits items x.
Proof.
  induction items as [|a rest IH]; intros acc Hacc Hitems x; simpl; [tauto|].
  assert (Ha : In a G) by (apply Hitems; left; reflexivity).
  assert (Hrest : incl rest G) by (intros z Hz; apply Hitems; right; exact Hz).
  destruct (conflict_inner_spec a rest false acc Hacc Hrest) as [H1 [H2 H3]].
  destruct (conflict_inner a rest false acc) as [hc acc'] eqn:E. simpl in H1, H2, H3.
  set (acc'' := if hc && negb (includes acc' a) then acc' ++ [a] else acc').
  assert (Hacc'' : incl acc'' G).
  { unfold acc''. destruct (hc && negb (includes acc' a)); [|exact H2].
    apply incl_app; [exact H2|]. intros z [<-|[]]. exact Ha. }
  assert (Hmem : forall z, In z acc'' <-> In z acc' \/ (z = a /\ hc = true)).
  { intros z. unfold acc''. destruct hc; simpl.
    - destruct (includes acc' a) eqn:Ei; simpl.
      + apply (includes_iff G acc' a G_uniq H2 Ha) in Ei.
        split; [tauto|]. intros [H|[-> _]]; assumption.
      + rewrite in_app_iff. simpl. split.
        * intros [H|[<-|[]]]; auto.
        * intros [H|[-> _]]; auto.
    - split; [tauto|]. intros [H|[_ H]]; [exact H|discriminate]. }
  rewrite (IH acc'' Hacc'' Hrest x), Hmem, H3, H1. simpl. tauto.
Qed.

Lemma hits_partner (items : list ItemRef) (x : ItemRef) :
  incl items G -> NoDup (map addr items) ->
  (hits items x
   <-> In x items
       /\ exists y, In y items /\ addr y <> addr x /\ overlap x y = true).
Proof.
  induction items as [|a rest IH]; intros Hitems Hnd; simpl.
  - split; [contradiction|tauto].
  - simpl in Hnd. inversion Hnd as [|? ? Ha Hnd']; subst.
    assert (Hrest : incl rest G) by (intros z Hz; apply Hitems; right; exact Hz).
    assert (Hfar : forall z, In z rest -> addr z <> addr a).
    { intros z Hz E. apply Ha. rewrite <- E. apply in_map. exact Hz. }
    rewrite (IH Hrest Hnd'). split.
    + intros [[-> H]|[[Hx H]|[Hx [y [Hy [Hne H]]]]]].
      * apply existsb_exists in H. destruct H as [y [Hy H]].
        split; [left; reflexivity|]. exists y. split; [right; exact Hy|].
        split; [apply Hfar, Hy|exact H].
      * split; [right; exact Hx|]. exists a. split; [left; reflexivity|].
        split; [|rewrite overlap_sym; exact H].
        intros E. apply (Hfar x Hx). symmetry. exact E.
      * split; [right; exact Hx|]. exists y. split; [right; exact Hy|]. tauto.
    + intros [[<-|Hx] [y [[<-|Hy] [Hne H]]]].
      * congruence.
      * left. split; [reflexivity|]. apply existsb_exists. exists y. tauto.
      * right. left. split; [exact Hx|]. rewrite overlap_sym. exact H.
      * right. right. split; [exact Hx|]. exists y. tauto.
Qed.

End Loops.

Lemma findWeekConflictingItems_partner (items : list ItemRef) (x : ItemRef) :
  NoDup (map addr items) ->
  (In x (findWeekConflictingItems items None)
   <-> In x items
       /\ exists y, In y items /\ addr y <> addr x /\ overlap x y = true).
Proof.
  intros Hnd. unfold findWeekConflictingItems. simpl.
  rewrite (conflict_outer_spec items (NoDup_uniq items Hnd) items []
             (incl_nil_l _) (incl_refl _) x).
  rewrite (hits_partner items items x (incl_refl _) Hnd). simpl. tauto.
Qed.

Lemma two_members {A : Type} (l : list A) (x y : A) :
  In x l -> In y l -> x <> y -> (1 <? length l)%nat = true.
Proof.
  intros Hx Hy Hne. destruct l as [|a [|b l]]; simpl in *; try tauto.
  destruct Hx as [<-|[]]; destruct Hy as [<-|[]]. congruence.
Qed.

Lemma no_member_nil {A : Type} (l : list A) : (forall x, ~ In x l) -> l = [].
Proof.
  destruct l as [|a l]; [reflexivity|]. intros H. exfalso. apply (H a). left. reflexivity.
Qed.

(** *** Grouping *)

Definition same_time (k : jsstring) (x : ItemRef) : bool := str_eqb k (time_key x).

Lemma time_key_inj (a b : ItemRef) :
  time_key a = time_key b
  <-> i_dayOfWeek (obj a) = i_dayOfWeek (obj b)
      /\ i_timeSlotId (obj a) = i_timeSlotId (obj b).
Proof.
  unfold time_key. split.
  - apply toString_dash_inj.
  - intros [-> ->]. reflexivity.
Qed.

Lemma timeMap_push_head (k k' : jsstring) (g : list ItemRef) (m : TimeMap)
    (x : ItemRef) :
  timeMap_push k' x ((k, g) :: m)
  = if str_eqb k k' then (k, g ++ [x]) :: m else (k, g) :: timeMap_push k' x m.
Proof. reflexivity. Qed.

Lemma group_loop_head (l : list ItemRef) :
  forall k g m,
    fold_left (group_step None) l ((k, g) :: m)
    = (k, g ++ filter (same_time k) l)
      :: fold_left (group_step None) (filter (fun x => negb (same_time k x)) l) m.
Proof.
  induction l as [|x l IH]; intros k g m; simpl.
  - rewrite app_nil_r. reflexivity.
  - change (group_step None ((k, g) :: m) x)
      with (timeMap_push (time_key x) x ((k, g) :: m)).
    rewrite timeMap_push_head.
    assert (Es : same_time k x = str_eqb k (time_key x)) by reflexivity.
    destruct (str_eqb k (time_key x)); rewrite !Es; simpl.
    + rewrite IH, <- app_assoc. reflexivity.
    + rewrite IH. reflexivity.
Qed.

Lemma group_items_cons (x : ItemRef) (l : list ItemRef) :
  group_items (x :: l) None
  = (time_key x, x :: filter (same_time (time_key x)) l)
    :: group_items (filter (fun y => negb (same_time (time_key x) y)) l) None.
Proof.
  unfold group_items. simpl.
  change (group_step None [] x) with [(time_key x, [] ++ [x])].
  rewrite group_loop_head. reflexivity.
Qed.

(** Every entry of the map holds all the items of its key, in schedule order. *)
Definition grouped (l : list ItemRef) (tm : TimeMap) : Prop :=
  NoDup (map fst tm)
  /\ (forall k, In k (map fst tm) <-> In k (map time_key l))
  /\ forall k g, In (k, g) tm -> g = filter (same_time k) l.

Lemma filter_other_key (k k' : jsstring) (l : list ItemRef) :
  k <> k' ->
  filter (same_time k') (filter (fun y => negb (same_time k y)) l)
  = filter (same_time k') l.
Proof.
  intros Hne. unfold same_time. induction l as [|x l IH]; simpl; [reflexivity|].
  destruct (str_eqb k (time_key x)) eqn:E; simpl.
  - apply str_eqb_eq in E. subst k.
    rewrite (proj2 (str_eqb_neq k' (time_key x))); [exact IH|].
    intros E'. apply Hne. symmetry. exact E'.
  - rewrite IH. reflexivity.
Qed.

Lemma in_other_keys (k k' : jsstring) (l : list ItemRef) :
  In k' (map time_key (filter (fun y => negb (same_time k y)) l))
  <-> In k' (map time_key l) /\ k <> k'.
Proof.
  unfold same_time. rewrite !in_map_iff. split.
  - intros [x [Hx Hin]]. apply filter_In in Hin. destruct Hin as [Hin Hf].
    apply negb_true_iff, str_eqb_neq in Hf. subst k'.
    split; [exists x; tauto|exact Hf].
  - intros [[x [Hx Hin]] Hne]. exists x. split; [exact Hx|].
    apply filter_In. split; [exact Hin|].
    apply negb_true_iff, str_eqb_neq. subst k'. exact Hne.
Qed.

Lemma group_items_grouped_len (n : nat) :
  forall l, (length l <= n)%nat -> grouped l (group_items l None).
Proof.
  induction n as [|n IH]; intros l Hlen.
  - destruct l; [|simpl in Hlen; lia].
    repeat split; try constructor; simpl; tauto.
  - destruct l as [|x l].
    { repeat split; try constructor; simpl; tauto. }
    rewrite group_items_cons.
    assert (Ex : same_time (time_key x) x = true) by apply str_eqb_refl.
    remember (time_key x) as k eqn:Ek.
    remember (filter (fun y => negb (same_time k y)) l) as l' eqn:El.
    assert (Hlen' : (length l' <= n)%nat).
    { pose proof (filter_length_le (fun y => negb (same_time k y)) l).
      rewrite El. simpl in Hlen. lia. }
    destruct (IH l' Hlen') as [Hnd [Hkeys Hgrp]].
    split; [|split].
    + simpl. constructor; [|exact Hnd].
      rewrite Hkeys, El, in_other_keys. tauto.
    + intros k'. simpl. rewrite Hkeys, El, in_other_keys, <- Ek.
      destruct (str_eqb k k') eqn:E.
      * apply str_eqb_eq in E. tauto.
      * apply str_eqb_neq in E. tauto.
    + intros k' g [E|Hin].
      * injection E as E1 E2. rewrite <- E1, <- E2. simpl. rewrite Ex. reflexivity.
      * assert (Hne : k <> k').
        { assert (Hk : In k' (map time_key l')).
          { apply Hkeys. apply (in_map fst) in Hin. exact Hin. }
          rewrite El in Hk. apply in_other_keys in Hk. tauto. }
        rewrite (Hgrp k' g Hin), El, filter_other_key by exact Hne.
        simpl. unfold same_time at 2. rewrite <- Ek.
        rewrite (proj2 (str_eqb_neq k' k)); [reflexivity|].
        intros E. apply Hne. symmetry. exact E.
Qed.

Lemma NoDup_addr_filter (f : ItemRef -> bool) (l : list ItemRef) :
  NoDup (map addr l) -> NoDup (map addr (filter f l)).
Proof.
  induction l as [|x l IH]; simpl; intros H; [constructor|].
  inversion H as [|? ? Hx Hl]; subst. destruct (f x); simpl.
  - constructor; [|apply IH, Hl]. intros Hin. apply Hx.
    apply in_map_iff in Hin. destruct Hin as [y [E Hy]].
    apply filter_In in Hy. rewrite <- E. apply in_map. tauto.
  - apply IH, Hl.
Qed.

(** C1. Without a target week the schedule is split into one group per
    (dayOfWeek, timeSlotId); in a group an item is reported exactly when it
    overlaps in weeks another item of the group, two items overlapping when
    one of them has no or empty week ranges or a range of one meets a range of
    the other; a group without an overlapping pair gives no conflict and a
    group with one gives one conflict.  Ranges {1,6} and {7,8} on (1, "5")
    give no conflict, ranges {1,8} and {6,10} give one conflict with both
    items. *)
Theorem detectTimeConflicts_pairwise_overlap :
  forall sched : list ItemRef,
    NoDup (map addr sched) ->
    let groups := group_items sched None in
    (forall timeSlots,
        detectTimeConflicts timeSlots sched None
        = flat_map (conflict_of_group timeSlots None) groups)
    /\ NoDup (map fst groups)
    /\ (forall a b,
          time_key a = time_key b
          <-> i_dayOfWeek (obj a) = i_dayOfWeek (obj b)
              /\ i_timeSlotId (obj a) = i_timeSlotId (obj b))
    /\ (forall x, In x sched -> exists items, In (time_key x, items) groups)
    /\ (forall k items,
          In (k, items) groups ->
          items = filter (fun x => str_eqb k (time_key x)) sched
          /\ (forall x,
                In x (findWeekConflictingItems items None)
                <-> In x items
                    /\ exists y, In y items /\ addr y <> addr x
                                 /\ hasWeekOverlap (i_weeks (obj x)) (i_weeks (obj y)) = true)
          /\ ((forall x y, In x items -> In y items -> addr x <> addr y ->
                           hasWeekOverlap (i_weeks (obj x)) (i_weeks (obj y)) = false) ->
              forall timeSlots, conflict_of_group timeSlots None (k, items) = [])
          /\ ((exists x y, In x items /\ In y items /\ addr x <> addr y
                           /\ hasWeekOverlap (i_weeks (obj x)) (i_weeks (obj y)) = true) ->
              forall timeSlots,
                conflict_of_group timeSlots None (k, items)
                = [mkConflict time (conflict_message timeSlots None k)
                     (findWeekConflictingItems items None)]))
    /\ (forall w1 w2,
          hasWeekOverlap w1 w2 = true
          <-> no_weeks w1 = true \/ no_weeks w2 = true
              \/ exists l1 l2 r1 r2,
                   w1 = Some l1 /\ w2 = Some l2 /\ In r1 l1 /\ In r2 l2
                   /\ start r1 <= end_ r2 /\ start r2 <= end_ r1)
    /\ (forall timeSlots id1 c1 t1 l1 id2 c2 t2 l2,
          detectTimeConflicts timeSlots
            [(0%nat, mkScheduleItem id1 c1 t1 (js "5") 1 (Some [mkWeekRange 1 6]) l1);
             (1%nat, mkScheduleItem id2 c2 t2 (js "5") 1 (Some [mkWeekRange 7 8]) l2)]
            None = [])
    /\ (forall timeSlots id1 c1 t1 l1 id2 c2 t2 l2,
          let i1 := (0%nat, mkScheduleItem id1 c1 t1 (js "5") 1 (Some [mkWeekRange 1 8]) l1) in
          let i2 := (1%nat, mkScheduleItem id2 c2 t2 (js "5") 1 (Some [mkWeekRange 6 10]) l2) in
          map k_items (detectTimeConflicts timeSlots [i1; i2] None) = [[i2; i1]]).
Proof.
  intros sched Hnd groups.
  destruct (group_items_grouped_len (length sched) sched (le_n _))
    as [Hkeys [Hsame Hgrp]].
  split; [reflexivity|]. split; [exact Hkeys|]. split; [exact time_key_inj|].
  split; [|split; [|split; [exact hasWeekOverlap_meet|split; reflexivity]]].
  - intros x Hx.
    assert (Hk : In (time_key x) (map fst groups)).
    { apply Hsame. apply in_map. exact Hx. }
    apply in_map_iff in Hk. destruct Hk as [[k g] [E Hin]].
    simpl in E. subst k. exists g. exact Hin.
  - intros k items Hin.
    assert (Hitems : items = filter (same_time k) sched) by (apply Hgrp, Hin).
    assert (Hnd' : NoDup (map addr items)).
    { rewrite Hitems. apply NoDup_addr_filter, Hnd. }
    split; [exact Hitems|]. split; [|split].
    + intros x. apply findWeekConflictingItems_partner, Hnd'.
    + intros Hno timeSlots. unfold conflict_of_group.
      destruct (1 <? length items)%nat; [|reflexivity].
      rewrite (no_member_nil (findWeekConflictingItems items None)); [reflexivity|].
      intros x Hx. apply (findWeekConflictingItems_partner items x Hnd') in Hx.
      destruct Hx as [Hx [y [Hy [Hne Ho]]]]. unfold overlap in Ho.
      rewrite (Hno x y Hx Hy) in Ho; [discriminate|].
      intros E. apply Hne. symmetry. exact E.
    + intros [x [y [Hx [Hy [Hne Ho]]]]] timeSlots. unfold conflict_of_group.
      assert (Hxy : x <> y) by (intros ->; apply Hne; reflexivity).
      rewrite (two_members items x y Hx Hy Hxy).
      rewrite (two_members (findWeekConflictingItems items None) x y);
        [reflexivity| | |exact Hxy].
      * apply findWeekConflictingItems_partner; [exact Hnd'|].
        split; [exact Hx|]. exists y. split; [exact Hy|].
        split; [|exact Ho]. intros E. apply Hne. symmetry. exact E.
      * apply findWeekConflictingItems_partner; [exact Hnd'|].
        split; [exact Hy|]. exists x. split; [exact Hx|].
        split; [exact Hne|]. fold (overlap x y) in Ho.
        rewrite overlap_sym. exact Ho.
Qed.

(** Two objects on Monday's period 5, weeks 1-8 and 6-10. *)
Definition clash_items : list ItemRef :=
  [ (0%nat, mkScheduleItem (js "1-1-5-w1-8") (js "1") (js "t1") (js "5") 1
              (Some [mkWeekRange 1 8]) None);
    (1%nat, mkScheduleItem (js "2-1-5-w6-10") (js "2") (js "t2") (js "5") 1
              (Some [mkWeekRange 6 10]) None) ].

Lemma detectTimeConflicts_pairwise_overlap_witness :
  NoDup (map addr clash_items)
  /\ NoDup (map fst (group_items clash_items None))
  /\ forall x, In x clash_items ->
               exists items, In (time_key x, items) (group_items clash_items None).
Proof.
  assert (H : NoDup (map addr clash_items)).
  { simpl. repeat constructor; simpl; intuition discriminate. }
  split; [exact H|].
  destruct (detectTimeConflicts_pairwise_overlap clash_items H)
    as [_ [Hk [_ [Hin _]]]].
  split; [exact Hk|exact Hin].
Defined.

End ConflictFacts.

(* ================================================================== *)
(** ** The course-time parser *)
(* ================================================================== *)

Module ParserFacts.
Import Js JsFacts RegexFacts Types CourseTimeParser.

(** The text [第<da>-<db>节] and [第<da>节] for digit strings. *)
Definition period_range_text (da db : jsstring) : jsstring :=
  ch "第" :: da ++ ch "-" :: db ++ [ch "节"].

Definition period_single_text (da : jsstring) : jsstring :=
  ch "第" :: da ++ [ch "节"].

Lemma count_from_seq (n : nat) :
  forall i, count_from n i = map (fun k => i + Z.of_nat k) (seq 0 n).
Proof.
  induction n as [|n IH]; intros i; [reflexivity|].
  cbn [count_from seq map]. rewrite IH, <- seq_shift, map_map.
  f_equal; [f_equal; lia|]. apply map_ext. intros k. lia.
Qed.

Lemma for_range_seq (a b : Z) :
  for_range a b = map (fun k => a + Z.of_nat k) (seq 0 (Z.to_nat (b - a + 1))).
Proof. apply count_from_seq. Qed.

Lemma for_range_single (a : Z) : for_range a a = [a].
Proof.
  unfold for_range. replace (a - a + 1) with 1 by lia. reflexivity.
Qed.

Lemma for_range_empty (a b : Z) : b < a -> for_range a b = [].
Proof.
  intros H. unfold for_range.
  replace (Z.to_nat (b - a + 1)) with 0%nat by lia. reflexivity.
Qed.

Lemma run_lit_miss (c x : Z) (s : jsstring) (caps : captures) :
  x <> c -> run (Lit c) (x :: s, caps) = [].
Proof.
  intros H. simpl. destruct (x =? c) eqn:E; [|reflexivity].
  apply Z.eqb_eq in E. contradiction.
Qed.

Lemma run_cat_miss (r1 r2 : regex) (st : mstate) :
  run r1 st = [] -> run (Cat r1 r2) st = [].
Proof. intros E. simpl. rewrite E. reflexivity. Qed.

Lemma stops_digit_dash (s : jsstring) : stops isDigit (ch "-" :: s).
Proof. reflexivity. Qed.

Lemma stops_digit_jie (s : jsstring) : stops isDigit (ch "节" :: s).
Proof. reflexivity. Qed.

(** The engine's match of [re_timeSlots] at the head of a range text. *)
Lemma re_timeSlots_range (da db : jsstring) :
  da <> [] -> all_digits da -> db <> [] -> all_digits db ->
  leads (run re_timeSlots (period_range_text da db, [])) ([], [(2%nat, db); (1%nat, da)]).
Proof.
  intros Na Ha Nb Hb. unfold re_timeSlots, period_range_text.
  eapply leads_cat; [apply leads_lit|].
  eapply leads_cat.
  { pose proof (leads_grp 1 _ _ _ _ _
                  (leads_plus isDigit da (ch "-" :: db ++ [ch "节"]) []
                     Na Ha (stops_digit_dash _))) as H.
    rewrite firstn_consumed in H. exact H. }
  eapply leads_cat; [|apply leads_lit].
  apply leads_opt_in.
  eapply leads_cat; [apply leads_lit|].
  pose proof (leads_grp 2 _ _ _ _ _
                (leads_plus isDigit db [ch "节"] [(1%nat, da)]
                   Nb Hb (stops_digit_jie _))) as H.
  rewrite firstn_consumed in H. exact H.
Qed.

Lemma re_timeSlots_single (da : jsstring) :
  da <> [] -> all_digits da ->
  leads (run re_timeSlots (period_single_text da, [])) ([], [(1%nat, da)]).
Proof.
  intros Na Ha. unfold re_timeSlots, period_single_text.
  eapply leads_cat; [apply leads_lit|].
  eapply leads_cat.
  { pose proof (leads_grp 1 _ _ _ _ _
                  (leads_plus isDigit da [ch "节"] [] Na Ha (stops_digit_jie _))) as H.
    rewrite firstn_consumed in H. exact H. }
  eapply leads_cat; [|apply leads_lit].
  apply leads_opt_skip. apply run_cat_miss, run_lit_miss.
  vm_compute. discriminate.
Qed.

(** No match can start on a unit other than [第]. *)
Lemma re_timeSlots_miss (i : nat) (c : Z) (s : jsstring) :
  c <> ch "第" -> match_here re_timeSlots i (c :: s) = None.
Proof.
  intros H. unfold match_here, re_timeSlots.
  rewrite run_cat_miss; [reflexivity|]. apply run_lit_miss, H.
Qed.

Lemma search_re_timeSlots_prefix (pre s : jsstring) (m : Match) :
  ~ In (ch "第") pre ->
  forall i,
    match_here re_timeSlots (i + length pre) s = Some m ->
    search_from re_timeSlots i (pre ++ s) = Some m.
Proof.
  induction pre as [|c pre IH]; intros Hpre i Hm; simpl.
  - rewrite Nat.add_0_r in Hm. apply search_from_here, Hm.
  - rewrite re_timeSlots_miss.
    + apply IH.
      * intros Hin. apply Hpre. right. exact Hin.
      * simpl in Hm. rewrite Nat.add_succ_r in Hm. exact Hm.
    + intros E. apply Hpre. left. exact E.
Qed.

Lemma search_re_timeSlots_none (s : jsstring) :
  ~ In (ch "第") s -> forall i, search_from re_timeSlots i s = None.
Proof.
  induction s as [|c s IH]; intros Hs i; [reflexivity|]. simpl.
  rewrite re_timeSlots_miss.
  - apply IH. intros Hin. apply Hs. right. exact Hin.
  - intros E. apply Hs. left. exact E.
Qed.

Lemma firstn_whole (s : jsstring) : firstn (length s - length (@nil Z)) s = s.
Proof. simpl. rewrite Nat.sub_0_r. apply firstn_all. Qed.

(** [parseTimeSlots] on a range text, wherever the text starts. *)
Lemma parseTimeSlots_range_digits (pre da db : jsstring) :
  ~ In (ch "第") pre ->
  da <> [] -> all_digits da -> db <> [] -> all_digits db ->
  parseTimeSlots (pre ++ period_range_text da db)
  = map toString (for_range (digits_value da) (digits_value db)).
Proof.
  intros Hpre Na Ha Nb Hb. unfold parseTimeSlots, search.
  rewrite (search_re_timeSlots_prefix pre _ _ Hpre 0
             (match_here_leads _ _ _ _ _ (re_timeSlots_range da db Na Ha Nb Hb))).
  cbn [m_caps group Nat.eqb].
  rewrite (parseInt_digits da Na Ha).
  destruct db as [|c db]; [contradiction|].
  rewrite (parseInt_digits (c :: db) Nb Hb). reflexivity.
Qed.

Lemma parseTimeSlots_single_digits (pre da : jsstring) :
  ~ In (ch "第") pre ->
  da <> [] -> all_digits da ->
  parseTimeSlots (pre ++ period_single_text da) = [toString (digits_value da)].
Proof.
  intros Hpre Na Ha. unfold parseTimeSlots, search.
  rewrite (search_re_timeSlots_prefix pre _ _ Hpre 0
             (match_here_leads _ _ _ _ _ (re_timeSlots_single da Na Ha))).
  cbn [m_caps group Nat.eqb].
  rewrite (parseInt_digits da Na Ha), for_range_single. reflexivity.
Qed.

Lemma range_text_of_numbers (a b : Z) :
  js "第" ++ toString a ++ js "-" ++ toString b ++ js "节"
  = period_range_text (toString a) (toString b).
Proof. reflexivity. Qed.

Lemma single_text_of_number (a : Z) :
  js "第" ++ toString a ++ js "节" = period_single_text (toString a).
Proof. reflexivity. Qed.

Lemma parseTimeSlots_range_numbers (a b : Z) :
  0 <= a -> 0 <= b ->
  parseTimeSlots (js "第" ++ toString a ++ js "-" ++ toString b ++ js "节")
  = map toString (for_range a b).
Proof.
  intros Ha Hb. rewrite range_text_of_numbers, !toString_nonneg by assumption.
  destruct (digits_spec a Ha) as [Na [Da Va]].
  destruct (digits_spec b Hb) as [Nb [Db Vb]].
  pose proof (parseTimeSlots_range_digits [] _ _ (fun H => H) Na Da Nb Db) as E.
  rewrite app_nil_l, Va, Vb in E. exact E.
Qed.

(** *** The call itself: doubles and the loop *)

Lemma to_double_exact (n : Z) : n <= 2 ^ 53 -> to_double n = n.
Proof.
  intros H. unfold to_double. rewrite (proj2 (Z.leb_le n (2 ^ 53)) H). reflexivity.
Qed.

Lemma js_succ_exact (i : Z) : i < 2 ^ 53 -> js_succ i = i + 1.
Proof.
  intros H. apply to_double_exact. change (2 ^ 53) with 9007199254740992 in *. lia.
Qed.

(** A counter that [i++] leaves where it is never passes the bound. *)
Lemma for_loop_stuck (i e : Z) :
  js_succ i = i -> i <= e -> forall fuel slots, for_loop fuel i e slots = None.
Proof.
  intros Hs Hle. induction fuel as [|f IH]; intros slots; [reflexivity|].
  cbn [for_loop]. rewrite (proj2 (Z.leb_le i e) Hle), Hs. apply IH.
Qed.

Lemma for_loop_count (b : Z) :
  b < 2 ^ 53 ->
  forall n a slots,
    a + Z.of_nat n = b + 1 ->
    for_loop (S n) a b slots = Some (slots ++ map toString (count_from n a)).
Proof.
  intros Hb. induction n as [|n IH]; intros a slots Ha.
  - cbn [for_loop count_from map]. rewrite (proj2 (Z.leb_gt a b)) by lia.
    rewrite app_nil_r. reflexivity.
  - change (for_loop (S (S n)) a b slots)
      with (if a <=? b
            then for_loop (S n) (js_succ a) b (slots ++ [toString a])
            else Some slots).
    rewrite (proj2 (Z.leb_le a b)) by lia.
    rewrite js_succ_exact by lia. rewrite IH by lia.
    cbn [count_from map]. rewrite <- app_assoc. reflexivity.
Qed.

(** Below [2^53] the loop ends, with the list of [for_range]. *)
Lemma for_loop_for_range (a b : Z) :
  b < 2 ^ 53 ->
  exists fuel, for_loop fuel a b [] = Some (map toString (for_range a b)).
Proof.
  intros Hb. destruct (Z_lt_ge_dec b a) as [Hlt|Hge].
  - exists 1%nat. cbn [for_loop]. rewrite (proj2 (Z.leb_gt a b) Hlt).
    rewrite for_range_empty by exact Hlt. reflexivity.
  - exists (S (Z.to_nat (b - a + 1))).
    rewrite (for_loop_count b Hb (Z.to_nat (b - a + 1)) a []) by lia.
    reflexivity.
Qed.

(** The two numbers the call reads off the text. *)
Definition period_bounds (timeStr : jsstring) : option (Z * Z) :=
  match search re_timeSlots timeStr with
  | None => None
  | Some m =>
      match group (m_caps m) 1 with
      | Some g1 =>
          match parseInt g1 with
          | Some start =>
              match (match group (m_caps m) 2 with
                     | Some (c :: g2) => parseInt (c :: g2)
                     | _ => Some start
                     end) with
              | Some end_ => Some (start, end_)
              | None => None
              end
          | None => None
          end
      | None => None
      end
  end.

Lemma parseTimeSlots_bounds (s : jsstring) :
  parseTimeSlots s
  = match period_bounds s with
    | Some (a, b) => map toString (for_range a b)
    | None => []
    end.
Proof.
  unfold parseTimeSlots, period_bounds.
  destruct (search re_timeSlots s) as [m|]; [|reflexivity].
  destruct (group (m_caps m) 1) as [g1|]; [|reflexivity].
  destruct (parseInt g1) as [a|]; [|reflexivity].
  destruct (group (m_caps m) 2) as [[|c g2]|]; try reflexivity.
  destruct (parseInt (c :: g2)); reflexivity.
Qed.

Lemma parseTimeSlots_run_bounds (fuel : nat) (s : jsstring) :
  parseTimeSlots_run fuel s
  = match period_bounds s with
    | Some (a, b) => for_loop fuel (to_double a) (to_double b) []
    | None => Some []
    end.
Proof.
  unfold parseTimeSlots_run, period_bounds.
  destruct (search re_timeSlots s) as [m|]; [|reflexivity].
  destruct (group (m_caps m) 1) as [g1|]; [|reflexivity].
  destruct (parseInt g1) as [a|]; [|reflexivity].
  destruct (group (m_caps m) 2) as [[|c g2]|]; try reflexivity.
  destruct (parseInt (c :: g2)); reflexivity.
Qed.

(** With both numbers below [2^53] the call returns, and returns the list of
    the total function. *)
Lemma parseTimeSlots_run_returns (s : jsstring) :
  (forall a b, period_bounds s = Some (a, b) -> a < 2 ^ 53 /\ b < 2 ^ 53) ->
  exists fuel, parseTimeSlots_run fuel s = Some (parseTimeSlots s).
Proof.
  intros H. rewrite parseTimeSlots_bounds.
  destruct (period_bounds s) as [[a b]|] eqn:E.
  - destruct (H a b eq_refl) as [Ha Hb].
    destruct (for_loop_for_range a b Hb) as [fuel Hf]. exists fuel.
    rewrite parseTimeSlots_run_bounds, E.
    rewrite !to_double_exact by (change (2 ^ 53) with 9007199254740992 in *; lia).
    exact Hf.
  - exists 0%nat. rewrite parseTimeSlots_run_bounds, E. reflexivity.
Qed.

Lemma period_bounds_range_digits (pre da db : jsstring) :
  ~ In (ch "第") pre ->
  da <> [] -> all_digits da -> db <> [] -> all_digits db ->
  period_bounds (pre ++ period_range_text da db)
  = Some (digits_value da, digits_value db).
Proof.
  intros Hpre Na Ha Nb Hb. unfold period_bounds, search.
  rewrite (search_re_timeSlots_prefix pre _ _ Hpre 0
             (match_here_leads _ _ _ _ _ (re_timeSlots_range da db Na Ha Nb Hb))).
  cbn [m_caps group Nat.eqb].
  rewrite (parseInt_digits da Na Ha).
  destruct db as [|c db]; [contradiction|].
  rewrite (parseInt_digits (c :: db) Nb Hb). reflexivity.
Qed.

Lemma period_bounds_single_digits (pre da : jsstring) :
  ~ In (ch "第") pre ->
  da <> [] -> all_digits da ->
  period_bounds (pre ++ period_single_text da)
  = Some (digits_value da, digits_value da).
Proof.
  intros Hpre Na Ha. unfold period_bounds, search.
  rewrite (search_re_timeSlots_prefix pre _ _ Hpre 0
             (match_here_leads _ _ _ _ _ (re_timeSlots_single da Na Ha))).
  cbn [m_caps group Nat.eqb].
  rewrite (parseInt_digits da Na Ha). reflexivity.
Qed.

Lemma period_bounds_range_numbers (a b : Z) :
  0 <= a -> 0 <= b ->
  period_bounds (js "第" ++ toString a ++ js "-" ++ toString b ++ js "节")
  = Some (a, b).
Proof.
  intros Ha Hb. rewrite range_text_of_numbers, !toString_nonneg by assumption.
  destruct (digits_spec a Ha) as [Na [Da Va]].
  destruct (digits_spec b Hb) as [Nb [Db Vb]].
  pose proof (period_bounds_range_digits [] _ _ (fun H => H) Na Da Nb Db) as E.
  rewrite app_nil_l, Va, Vb in E. exact E.
Qed.

Lemma period_bounds_single_number (a : Z) :
  0 <= a -> period_bounds (js "第" ++ toString a ++ js "节") = Some (a, a).
Proof.
  intros Ha. rewrite single_text_of_number, toString_nonneg by exact Ha.
  destruct (digits_spec a Ha) as [Na [Da Va]].
  pose proof (period_bounds_single_digits [] _ (fun H => H) Na Da) as E.
  rewrite app_nil_l, Va in E. exact E.
Qed.

(** C7 (as the code has it). For period numbers [a] and [b] below [2^53], the
    call on the text [第a-b节] returns, and returns the decimal strings of [a],
    [a+1], ..., [b] in this order; on [第a节] it returns the one string of
    [a]; on a text in which the pattern finds no match, as any text without
    [第], it returns the empty list. *)
Theorem parseTimeSlots_period_range :
  (forall a b,
      0 <= a < 2 ^ 53 -> 0 <= b < 2 ^ 53 ->
      parseTimeSlots (js "第" ++ toString a ++ js "-" ++ toString b ++ js "节")
      = map (fun k => toString (a + Z.of_nat k)) (seq 0 (Z.to_nat (b - a + 1)))
      /\ exists fuel,
           parseTimeSlots_run fuel
             (js "第" ++ toString a ++ js "-" ++ toString b ++ js "节")
           = Some (map (fun k => toString (a + Z.of_nat k))
                       (seq 0 (Z.to_nat (b - a + 1)))))
  /\ (forall a,
        0 <= a < 2 ^ 53 ->
        parseTimeSlots (js "第" ++ toString a ++ js "节") = [toString a]
        /\ exists fuel,
             parseTimeSlots_run fuel (js "第" ++ toString a ++ js "节")
             = Some [toString a])
  /\ (forall s,
        search re_timeSlots s = None ->
        parseTimeSlots s = [] /\ forall fuel, parseTimeSlots_run fuel s = Some [])
  /\ (forall s,
        ~ In (ch "第") s ->
        parseTimeSlots s = [] /\ forall fuel, parseTimeSlots_run fuel s = Some [])
  /\ parseTimeSlots (js "第5-6节") = [js "5"; js "6"]
  /\ parseTimeSlots (js "第9-11节") = [js "9"; js "10"; js "11"]
  /\ parseTimeSlots (js "第5节") = [js "5"]
  /\ parseTimeSlots (js "星期一") = [].
Proof.
  assert (Hnone : forall s,
             search re_timeSlots s = None ->
             parseTimeSlots s = [] /\ forall fuel, parseTimeSlots_run fuel s = Some []).
  { intros s H. unfold parseTimeSlots, parseTimeSlots_run. rewrite H.
    split; [reflexivity|intros fuel; reflexivity]. }
  split; [|split; [|split; [exact Hnone|split; [|repeat split; reflexivity]]]].
  - intros a b [Ha Ha'] [Hb Hb'].
    assert (E : parseTimeSlots
                  (js "第" ++ toString a ++ js "-" ++ toString b ++ js "节")
                = map (fun k => toString (a + Z.of_nat k))
                      (seq 0 (Z.to_nat (b - a + 1)))).
    { rewrite parseTimeSlots_range_numbers, for_range_seq, map_map by assumption.
      reflexivity. }
    split; [exact E|]. rewrite <- E. apply parseTimeSlots_run_returns.
    intros x y Hxy. rewrite period_bounds_range_numbers in Hxy by assumption.
    injection Hxy as <- <-. split; assumption.
  - intros a [Ha Ha'].
    assert (E : parseTimeSlots (js "第" ++ toString a ++ js "节") = [toString a]).
    { rewrite single_text_of_number, toString_nonneg by exact Ha.
      destruct (digits_spec a Ha) as [Na [Da Va]].
      pose proof (parseTimeSlots_single_digits [] _ (fun H => H) Na Da) as E.
      rewrite app_nil_l, Va, (toString_nonneg a Ha) in E. exact E. }
    split; [exact E|]. rewrite <- E. apply parseTimeSlots_run_returns.
    intros x y Hxy. rewrite period_bounds_single_number in Hxy by assumption.
    injection Hxy as <- <-. split; assumption.
  - intros s H. apply Hnone. unfold search. apply (search_re_timeSlots_none s H 0).
Qed.

(** C7, as stated, fails: [第9007199254740992节] has the form [第a节], but on it
    the call never returns.  Both bounds are [2^53], and [i++] leaves the
    counter at [2^53], the double nearest to [2^53 + 1]. *)
Lemma parseTimeSlots_unsafe_period_runs_on :
  period_bounds (js "第9007199254740992节") = Some (2 ^ 53, 2 ^ 53)
  /\ js_succ (2 ^ 53) = 2 ^ 53
  /\ forall fuel, parseTimeSlots_run fuel (js "第9007199254740992节") = None.
Proof.
  assert (E : period_bounds (js "第9007199254740992节") = Some (2 ^ 53, 2 ^ 53))
    by (vm_compute; reflexivity).
  assert (S : js_succ (2 ^ 53) = 2 ^ 53) by (vm_compute; reflexivity).
  split; [exact E|]. split; [exact S|]. intros fuel.
  rewrite parseTimeSlots_run_bounds, E, (to_double_exact (2 ^ 53) (Z.le_refl _)).
  apply (for_loop_stuck _ _ S (Z.le_refl _)).
Qed.

(** *** The line parser *)

(** The [weeks] field of the slots of a line whose week prefix gave [w]. *)
Definition line_weeks (w : option WeekRange) : option (list WeekRange) :=
  match w with
  | Some r => Some [r]
  | None => None
  end.

Lemma slot_of_match_fields (w : option WeekRange) (loc : option jsstring)
    (m : Match) (slot : FixedTimeSlot) :
  In slot (slot_of_match w loc m) ->
  weeks slot = line_weeks w /\ location slot = loc
  /\ timeSlotIds slot = parseTimeSlots (m_full m) /\ timeSlotIds slot <> [].
Proof.
  unfold slot_of_match.
  destruct (search re_day (m_full m)) as [dm|]; [|contradiction].
  destruct (group (m_caps dm) 1) as [day|]; [|contradiction].
  destruct (parseDay day) as [d|]; [|contradiction].
  destruct (parseTimeSlots (m_full m)) as [|t ts]; [contradiction|].
  intros [<-|[]]. simpl. repeat split. discriminate.
Qed.

Lemma slot_of_match_at_most_one (w : option WeekRange) (loc : option jsstring)
    (m : Match) :
  (length (slot_of_match w loc m) <= 1)%nat.
Proof.
  unfold slot_of_match.
  destruct (search re_day (m_full m)) as [dm|]; [|simpl; lia].
  destruct (group (m_caps dm) 1) as [day|]; [|simpl; lia].
  destruct (parseDay day) as [d|]; [|simpl; lia].
  destruct (parseTimeSlots (m_full m)) as [|t ts]; simpl; lia.
Qed.

(** An occurrence whose period range parses to nothing is passed over. *)
Lemma slot_of_match_skip (w : option WeekRange) (loc : option jsstring) (m : Match) :
  parseTimeSlots (m_full m) = [] -> slot_of_match w loc m = [].
Proof.
  intros E. unfold slot_of_match.
  destruct (search re_day (m_full m)) as [dm|]; [|reflexivity].
  destruct (group (m_caps dm) 1) as [day|]; [|reflexivity].
  destruct (parseDay day) as [d|]; [|reflexivity].
  rewrite E. reflexivity.
Qed.

(** The text the occurrences are searched in. *)
Definition time_content (line : jsstring) : jsstring :=
  let trimmedLine := trim line in
  let timeContent :=
    match search_anchored re_weekPrefix trimmedLine with
    | Some m => replace_str (m_full m) trimmedLine
    | None => trimmedLine
    end in
  trim (if truthy_str (parseLocation trimmedLine)
        then replace_re re_location timeContent else timeContent).

Lemma parseTimeLine_slots (line : jsstring) :
  tl_timeSlots (parseTimeLine line)
  = flat_map (slot_of_match (tl_weeks (parseTimeLine line))
                            (tl_location (parseTimeLine line)))
             (exec_all re_time (time_content line)).
Proof. reflexivity. Qed.

Lemma re_time_consuming : consuming re_time = true.
Proof. reflexivity. Qed.

(** C8. The line [1-6周，星期一第5-6节 星期三第5-6节 (立人楼B411)] parses to
    the week range {1,6}, the location [立人楼B411] and two slots, Monday and
    Wednesday, each with periods ["5","6"], weeks [{1,6}] and that location.
    On every line each occurrence gives at most one slot, and every slot has
    the line's week range (as a one-element list, or no weeks when the line
    has no week prefix) and the line's location. *)
Theorem parseTimeLine_slots_share_weeks_location :
  parseTimeLine (js "1-6周，星期一第5-6节 星期三第5-6节 (立人楼B411)")
  = mkTimeLine (Some (mkWeekRange 1 6))
      [ mkFixedTimeSlot 1 [js "5"; js "6"] (Some [mkWeekRange 1 6])
          (Some (js "立人楼B411"));
        mkFixedTimeSlot 3 [js "5"; js "6"] (Some [mkWeekRange 1 6])
          (Some (js "立人楼B411")) ]
      (Some (js "立人楼B411"))
  /\ (forall line : jsstring,
        let r := parseTimeLine line in
        tl_timeSlots r
        = flat_map (slot_of_match (tl_weeks r) (tl_location r))
                   (exec_all re_time (time_content line))
        /\ (forall m, (length (slot_of_match (tl_weeks r) (tl_location r) m) <= 1)%nat)
        /\ (forall slot,
              In slot (tl_timeSlots r) ->
              weeks slot = match tl_weeks r with
                           | Some w => Some [w]
                           | None => None
                           end
              /\ location slot = tl_location r))
  /\ map weeks (tl_timeSlots (parseTimeLine (js "星期一第5-6节 周三第7节")))
     = [None; None].
Proof.
  split; [vm_compute; reflexivity|]. split; [|vm_compute; reflexivity].
  intros line r. split; [apply parseTimeLine_slots|].
  split; [intros m; apply slot_of_match_at_most_one|].
  intros slot Hin. unfold r in Hin. rewrite parseTimeLine_slots in Hin.
  apply in_flat_map in Hin. destruct Hin as [m [_ Hin]].
  apply slot_of_match_fields in Hin. fold r in Hin. tauto.
Qed.

(** *** A reversed period range *)

Definition day_tokens : list jsstring :=
  [ js "星期一"; js "星期二"; js "星期三"; js "星期四"; js "星期五"; js "星期六";
    js "星期日"; js "周一"; js "周二"; js "周三"; js "周四"; js "周五"; js "周六";
    js "周日" ].

Lemma trim_id (c e : Z) (mid : jsstring) :
  isSpace c = false -> isSpace e = false ->
  trim (c :: mid ++ [e]) = c :: mid ++ [e].
Proof.
  intros Hc He. unfold trim. cbn [dropWhile]. rewrite Hc.
  change (c :: mid ++ [e]) with ((c :: mid) ++ [e]).
  rewrite rev_app_distr. cbn [rev app dropWhile]. rewrite He.
  change (e :: rev mid ++ [c]) with ([e] ++ rev (c :: mid)).
  rewrite rev_app_distr, rev_involutive. reflexivity.
Qed.

Lemma re_weekPrefix_miss (c : Z) (s : jsstring) :
  isDigit c = false -> search_anchored re_weekPrefix (c :: s) = None.
Proof.
  intros H. unfold search_anchored, match_here, re_weekPrefix.
  cbn [run fst snd]. rewrite H. reflexivity.
Qed.

Lemma parseLocation_none (s : jsstring) :
  ~ In (ch "(") s -> parseLocation s = None.
Proof.
  intros Hs. unfold parseLocation, search.
  assert (E : forall i, search_from re_location i s = None).
  { induction s as [|c s IH]; intros i; [reflexivity|]. simpl search_from.
    assert (Em : match_here re_location i (c :: s) = None).
    { unfold match_here, re_location. rewrite run_cat_miss; [reflexivity|].
      apply run_lit_miss. intros E. apply Hs. left. exact E. }
    rewrite Em. apply IH. intros Hin. apply Hs. right. exact Hin. }
  rewrite E. reflexivity.
Qed.

Lemma digits_no_unit (c : Z) (ds : jsstring) :
  isDigit c = false -> all_digits ds -> ~ In c ds.
Proof.
  intros Hc Hd Hin. unfold all_digits in Hd. rewrite Forall_forall in Hd.
  specialize (Hd c Hin). congruence.
Qed.

Lemma range_text_no_unit (c : Z) (da db : jsstring) :
  isDigit c = false -> c <> ch "第" -> c <> ch "-" -> c <> ch "节" ->
  all_digits da -> all_digits db -> ~ In c (period_range_text da db).
Proof.
  intros Hc H1 H2 H3 Ha Hb. unfold period_range_text.
  intros [E|Hin]; [congruence|].
  apply in_app_iff in Hin. destruct Hin as [Hin|[E|Hin]].
  - apply (digits_no_unit c da Hc Ha Hin).
  - congruence.
  - apply in_app_iff in Hin. destruct Hin as [Hin|[E|[]]].
    + apply (digits_no_unit c db Hc Hb Hin).
    + congruence.
Qed.

(** The rest of [re_time] after the weekday token, on a range text. *)
Lemma re_time_tail_range (da db : jsstring) (caps : captures) :
  da <> [] -> all_digits da -> db <> [] -> all_digits db ->
  leads (run (Cat (Star isSpace)
                (Cat (Lit (ch "第"))
                   (Cat (Plus isDigit)
                      (Cat (Opt (Cat (Lit (ch "-")) (Plus isDigit)))
                         (Lit (ch "节"))))))
             (period_range_text da db, caps))
        ([], caps).
Proof.
  intros Na Ha Nb Hb. unfold period_range_text.
  eapply leads_cat.
  { apply (leads_star isSpace [] _ caps (Forall_nil _)). reflexivity. }
  eapply leads_cat; [apply leads_lit|].
  eapply leads_cat; [apply (leads_plus isDigit da _ caps Na Ha (stops_digit_dash _))|].
  eapply leads_cat; [|apply leads_lit].
  apply leads_opt_in.
  eapply leads_cat; [apply leads_lit|].
  apply (leads_plus isDigit db _ caps Nb Hb (stops_digit_jie _)).
Qed.

Ltac numeral_of_token :=
  match goal with
  | |- context [js ?s ++ _] =>
      let d := eval vm_compute in (js s) in
      change (js s) with d; cbn [app]
  end.

Lemma re_day_token (day rest : jsstring) :
  In day day_tokens ->
  exists caps, leads (run re_day (day ++ rest, [])) (rest, caps).
Proof.
  unfold day_tokens. intros Hin. eexists. unfold re_day. apply leads_grp.
  repeat (destruct Hin as [<-|Hin]); try contradiction; numeral_of_token;
    first
      [ apply leads_alt_l;
        eapply leads_cat; [apply leads_lit|];
        eapply leads_cat; [apply leads_lit|];
        apply leads_cls; reflexivity
      | apply leads_alt_r;
        [ apply run_cat_miss, run_lit_miss; vm_compute; discriminate
        | eapply leads_cat; [apply leads_lit|];
          apply leads_cls; reflexivity ] ].
Qed.

Lemma day_token_shape (day : jsstring) :
  In day day_tokens ->
  exists c t,
    day = c :: t /\ isSpace c = false /\ isDigit c = false
    /\ ~ In (ch "(") day /\ ~ In (ch "第") day.
Proof.
  unfold day_tokens. intros Hin.
  repeat (destruct Hin as [<-|Hin]); try contradiction;
    (eexists; eexists; split; [vm_compute; reflexivity|];
     split; [reflexivity|]; split; [reflexivity|];
     split; vm_compute; intuition discriminate).
Qed.

Lemma exec_loop_end (f pos : nat) : exec_loop f re_time pos [] = [].
Proof. destruct f; reflexivity. Qed.

(** The line [<day>第<da>-<db>节] has one occurrence, the whole line. *)
Lemma exec_all_day_range (day da db : jsstring) :
  In day day_tokens ->
  da <> [] -> all_digits da -> db <> [] -> all_digits db ->
  exists caps,
    exec_all re_time (day ++ period_range_text da db)
    = [mkMatch 0 (day ++ period_range_text da db) caps []].
Proof.
  intros Hday Na Ha Nb Hb.
  destruct (re_day_token day (period_range_text da db) Hday) as [caps Hd].
  exists caps. unfold exec_all. cbn [exec_loop].
  assert (Hl : leads (run re_time (day ++ period_range_text da db, [])) ([], caps)).
  { unfold re_time. eapply leads_cat; [exact Hd|].
    apply re_time_tail_range; assumption. }
  rewrite (search_from_here _ _ _ _ (match_here_leads _ 0 _ _ _ Hl)).
  cbn [m_after m_index m_full]. rewrite firstn_whole, exec_loop_end. reflexivity.
Qed.

Lemma parseTimeLine_day_range (day da db : jsstring) :
  In day day_tokens ->
  da <> [] -> all_digits da -> db <> [] -> all_digits db ->
  exists caps,
    parseTimeLine (day ++ period_range_text da db)
    = mkTimeLine None
        (slot_of_match None None
           (mkMatch 0 (day ++ period_range_text da db) caps []))
        None.
Proof.
  intros Hday Na Ha Nb Hb.
  destruct (day_token_shape day Hday) as [c [t [Ed [Hs [Hg [Hp Hq]]]]]].
  destruct (exec_all_day_range day da db Hday Na Ha Nb Hb) as [caps Hx].
  exists caps.
  assert (Etrim : trim (day ++ period_range_text da db)
                  = day ++ period_range_text da db).
  { assert (Eshape : day ++ period_range_text da db
                     = c :: (t ++ ch "第" :: da ++ ch "-" :: db) ++ [ch "节"]).
    { rewrite Ed. unfold period_range_text. cbn [app]. f_equal.
      rewrite <- app_assoc. cbn [app]. rewrite <- app_assoc. reflexivity. }
    rewrite Eshape. apply trim_id; [exact Hs|reflexivity]. }
  assert (Eloc : parseLocation (day ++ period_range_text da db) = None).
  { apply parseLocation_none. intros Hin. apply in_app_iff in Hin.
    destruct Hin as [Hin|Hin]; [exact (Hp Hin)|].
    revert Hin. apply range_text_no_unit; try assumption; try reflexivity;
      vm_compute; discriminate. }
  assert (Ewk : search_anchored re_weekPrefix (day ++ period_range_text da db) = None).
  { rewrite Ed. apply re_weekPrefix_miss, Hg. }
  unfold parseTimeLine. cbv zeta. rewrite !Etrim, Ewk, Eloc.
  cbn [truthy_str]. rewrite Etrim, Hx. cbn [flat_map]. rewrite app_nil_r.
  reflexivity.
Qed.

(** C9 (as the code has it). For [a > b] below [2^53], the call on the
    reversed range [第a-b节] returns the empty list; an occurrence whose range
    parses to nothing adds no slot, so a line made of a weekday and such a
    range has no slot at all, and in a longer line only the reversed
    occurrence is missing. *)
Theorem parseTimeSlots_reversed_range_skipped :
  (forall a b,
      0 <= b -> b < a -> a < 2 ^ 53 ->
      parseTimeSlots (js "第" ++ toString a ++ js "-" ++ toString b ++ js "节") = []
      /\ exists fuel,
           parseTimeSlots_run fuel
             (js "第" ++ toString a ++ js "-" ++ toString b ++ js "节")
           = Some [])
  /\ (forall weeks location m,
        parseTimeSlots (m_full m) = [] -> slot_of_match weeks location m = [])
  /\ (forall day a b,
        In day day_tokens -> 0 <= b -> b < a -> a < 2 ^ 53 ->
        tl_timeSlots (parseTimeLine
          (day ++ js "第" ++ toString a ++ js "-" ++ toString b ++ js "节")) = [])
  /\ parseTimeSlots (js "第6-5节") = []
  /\ tl_timeSlots (parseTimeLine
       (js "1-6周，星期一第6-5节 星期三第5-6节 (立人楼B411)"))
     = [ mkFixedTimeSlot 3 [js "5"; js "6"] (Some [mkWeekRange 1 6])
           (Some (js "立人楼B411")) ].
Proof.
  split; [|split; [exact slot_of_match_skip|split; [|split; vm_compute; reflexivity]]].
  - intros a b Hb Hab Ha.
    assert (E : parseTimeSlots
                  (js "第" ++ toString a ++ js "-" ++ toString b ++ js "节") = []).
    { rewrite parseTimeSlots_range_numbers by lia.
      rewrite for_range_empty by exact Hab. reflexivity. }
    split; [exact E|]. rewrite <- E. apply parseTimeSlots_run_returns.
    intros x y Hxy. rewrite period_bounds_range_numbers in Hxy by lia.
    injection Hxy as <- <-. split; lia.
  - intros day a b Hday Hb Hab _.
    rewrite range_text_of_numbers, !toString_nonneg by lia.
    destruct (digits_spec a ltac:(lia)) as [Na [Da Va]].
    destruct (digits_spec b Hb) as [Nb [Db Vb]].
    destruct (parseTimeLine_day_range day _ _ Hday Na Da Nb Db) as [caps E].
    rewrite E. cbn [tl_timeSlots]. apply slot_of_match_skip. cbn [m_full].
    destruct (day_token_shape day Hday) as [_ [_ [_ [_ [_ [_ Hq]]]]]].
    rewrite (parseTimeSlots_range_digits day _ _ Hq Na Da Nb Db), Va, Vb.
    rewrite for_range_empty by exact Hab. reflexivity.
Qed.

(** C9, as stated, fails: in [第9007199254740993-9007199254740992节] the first
    number is the larger one, yet both are read as [2^53] (the double nearest
    to [2^53 + 1]); the loop is entered and never left, so the call does not
    return the empty list. *)
Lemma parseTimeSlots_unsafe_reversed_runs_on :
  period_bounds (js "第9007199254740993-9007199254740992节")
  = Some (2 ^ 53 + 1, 2 ^ 53)
  /\ to_double (2 ^ 53 + 1) = 2 ^ 53
  /\ forall fuel,
       parseTimeSlots_run fuel (js "第9007199254740993-9007199254740992节") = None.
Proof.
  assert (E : period_bounds (js "第9007199254740993-9007199254740992节")
              = Some (2 ^ 53 + 1, 2 ^ 53)) by (vm_compute; reflexivity).
  assert (R : to_double (2 ^ 53 + 1) = 2 ^ 53) by (vm_compute; reflexivity).
  split; [exact E|]. split; [exact R|]. intros fuel.
  rewrite parseTimeSlots_run_bounds, E, R, (to_double_exact (2 ^ 53) (Z.le_refl _)).
  apply (for_loop_stuck _ _ R (Z.le_refl _)).
Qed.

End ParserFacts.

(* ================================================================== *)
(** ** More about the engine: searching past a prefix *)
(* ================================================================== *)

Module RegexMore.
Import Js JsFacts RegexFacts.

(** No attempt succeeds on a unit of [pre]: the search moves past [pre]. *)
Lemma search_from_prefix (r : regex) (pre s : jsstring) (m : Match) :
  (forall c t j, In c pre -> match_here r j (c :: t) = None) ->
  forall i,
    match_here r (i + length pre) s = Some m ->
    search_from r i (pre ++ s) = Some m.
Proof.
  induction pre as [|c pre IH]; intros Hpre i Hm; simpl.
  - rewrite Nat.add_0_r in Hm. apply search_from_here, Hm.
  - rewrite (Hpre c (pre ++ s) i (or_introl eq_refl)).
    apply IH.
    + intros d t j Hd. apply Hpre. right. exact Hd.
    + simpl in Hm. rewrite Nat.add_succ_r in Hm. exact Hm.
Qed.

Lemma search_from_nowhere (r : regex) (s : jsstring) :
  (forall c t j, In c s -> match_here r j (c :: t) = None) ->
  (forall j, match_here r j [] = None) ->
  forall i, search_from r i s = None.
Proof.
  intros Hs Hnil. induction s as [|c s IH]; intros i; simpl.
  - rewrite Hnil. reflexivity.
  - rewrite (Hs c s i (or_introl eq_refl)). apply IH.
    intros d t j Hd. apply Hs. right. exact Hd.
Qed.

Lemma takeWhile_dropWhile (p : Z -> bool) (s : jsstring) :
  s = takeWhile p s ++ dropWhile p s
  /\ Forall (fun c => p c = true) (takeWhile p s)
  /\ stops p (dropWhile p s).
Proof.
  induction s as [|c s [IH1 [IH2 IH3]]]; simpl.
  - repeat split. constructor.
  - destruct (p c) eqn:E; simpl.
    + repeat split; [f_equal; exact IH1|constructor; assumption|exact IH3].
    + repeat split; [constructor|exact E].
Qed.

(** An optional literal always lets the match go on, with the same captures. *)
Lemma opt_lit_leads (c : Z) (st : mstate) :
  exists rest, leads (run (Opt (Lit c)) st) (rest, snd st).
Proof.
  destruct st as [[|x s] caps]; simpl.
  - exists []. exists []. reflexivity.
  - destruct (x =? c).
    + exists s. eexists. reflexivity.
    + exists (x :: s). exists []. reflexivity.
Qed.

End RegexMore.

(* ================================================================== *)
(** ** Week-range text: [parseWeekRange] and [formatWeekRanges] *)
(* ================================================================== *)

Module WeekTextFacts.
Import Js JsFacts RegexFacts RegexMore Types CourseTimeParser ParserFacts.

Definition no_digits (s : jsstring) : Prop := Forall (fun c => isDigit c = false) s.

(** [s] does not open with [-] and a digit. *)
Definition no_dash_number (s : jsstring) : Prop :=
  match s with
  | [] => True
  | c :: r => c <> ch "-" \/ stops isDigit r
  end.

Lemma re_weekRange_miss (j : nat) (c : Z) (t : jsstring) :
  isDigit c = false -> match_here re_weekRange j (c :: t) = None.
Proof.
  intros H. unfold match_here, re_weekRange. cbn [run fst snd]. rewrite H. reflexivity.
Qed.

Lemma re_weekRange_pair (ds ds2 rest2 : jsstring) :
  ds <> [] -> all_digits ds -> ds2 <> [] -> all_digits ds2 -> stops isDigit rest2 ->
  exists rest,
    leads (run re_weekRange (ds ++ ch "-" :: ds2 ++ rest2, []))
          (rest, [(2%nat, ds2); (1%nat, ds)]).
Proof.
  intros N1 D1 N2 D2 Hr.
  destruct (opt_lit_leads (ch "周") (rest2, [(2%nat, ds2); (1%nat, ds)])) as [rest Ho].
  exists rest. unfold re_weekRange.
  eapply leads_cat.
  { pose proof (leads_grp 1 _ _ _ _ _
                  (leads_plus isDigit ds (ch "-" :: ds2 ++ rest2) [] N1 D1 eq_refl)) as H.
    rewrite firstn_consumed in H. exact H. }
  eapply leads_cat; [|exact Ho].
  apply leads_opt_in. eapply leads_cat; [apply leads_lit|].
  pose proof (leads_grp 2 _ _ _ _ _
                (leads_plus isDigit ds2 rest2 [(1%nat, ds)] N2 D2 Hr)) as H.
  rewrite firstn_consumed in H. exact H.
Qed.

Lemma dash_number_miss (rest : jsstring) (caps : captures) :
  no_dash_number rest ->
  run (Cat (Lit (ch "-")) (Grp 2 (Plus isDigit))) (rest, caps) = [].
Proof.
  intros H. destruct rest as [|c r]; [reflexivity|].
  destruct H as [H|H].
  - apply run_cat_miss. simpl. destruct (c =? ch "-") eqn:E; [|reflexivity].
    apply Z.eqb_eq in E. contradiction.
  - cbn [run fst snd flat_map]. destruct (c =? ch "-"); [|reflexivity].
    cbn [flat_map run fst snd]. destruct r as [|d r]; [reflexivity|].
    simpl in H. rewrite H. reflexivity.
Qed.

Lemma re_weekRange_one (ds rest : jsstring) :
  ds <> [] -> all_digits ds -> stops isDigit rest -> no_dash_number rest ->
  exists rest', leads (run re_weekRange (ds ++ rest, [])) (rest', [(1%nat, ds)]).
Proof.
  intros N1 D1 Hr Hd.
  destruct (opt_lit_leads (ch "周") (rest, [(1%nat, ds)])) as [rest' Ho].
  exists rest'. unfold re_weekRange.
  eapply leads_cat.
  { pose proof (leads_grp 1 _ _ _ _ _ (leads_plus isDigit ds rest [] N1 D1 Hr)) as H.
    rewrite firstn_consumed in H. exact H. }
  eapply leads_cat; [|exact Ho].
  apply leads_opt_skip. apply dash_number_miss, Hd.
Qed.

Lemma search_weekRange_prefix (pre s : jsstring) (m : Match) :
  no_digits pre ->
  match_here re_weekRange (length pre) s = Some m ->
  search re_weekRange (pre ++ s) = Some m.
Proof.
  intros Hpre Hm. unfold search. apply search_from_prefix; [|exact Hm].
  intros c t j Hc. apply re_weekRange_miss.
  unfold no_digits in Hpre. rewrite Forall_forall in Hpre. apply Hpre, Hc.
Qed.

(** The first number of the text is [start]; a [-] and a number right after it
    give [end]. *)
Lemma parseWeekRange_pair (pre ds ds2 rest2 : jsstring) :
  no_digits pre ->
  ds <> [] -> all_digits ds -> ds2 <> [] -> all_digits ds2 -> stops isDigit rest2 ->
  parseWeekRange (pre ++ ds ++ ch "-" :: ds2 ++ rest2)
  = Some (mkWeekRange (digits_value ds) (digits_value ds2)).
Proof.
  intros Hpre N1 D1 N2 D2 Hr.
  destruct (re_weekRange_pair ds ds2 rest2 N1 D1 N2 D2 Hr) as [rest Hl].
  unfold parseWeekRange.
  rewrite (search_weekRange_prefix pre _ _ Hpre (match_here_leads _ _ _ _ _ Hl)).
  cbn [m_caps group Nat.eqb]. rewrite (parseInt_digits ds N1 D1).
  destruct ds2 as [|c ds2]; [contradiction|].
  rewrite (parseInt_digits (c :: ds2) N2 D2). reflexivity.
Qed.

(** Without a [-] and a number after it, [end] is [start]. *)
Lemma parseWeekRange_one (pre ds rest : jsstring) :
  no_digits pre ->
  ds <> [] -> all_digits ds -> stops isDigit rest -> no_dash_number rest ->
  parseWeekRange (pre ++ ds ++ rest)
  = Some (mkWeekRange (digits_value ds) (digits_value ds)).
Proof.
  intros Hpre N1 D1 Hr Hd.
  destruct (re_weekRange_one ds rest N1 D1 Hr Hd) as [rest' Hl].
  unfold parseWeekRange.
  rewrite (search_weekRange_prefix pre _ _ Hpre (match_here_leads _ _ _ _ _ Hl)).
  cbn [m_caps group Nat.eqb]. rewrite (parseInt_digits ds N1 D1). reflexivity.
Qed.

Lemma parseWeekRange_no_digits (s : jsstring) :
  no_digits s -> parseWeekRange s = None.
Proof.
  intros H. unfold parseWeekRange, search.
  rewrite search_from_nowhere; [reflexivity| |reflexivity].
  intros c t j Hc. apply re_weekRange_miss.
  unfold no_digits in H. rewrite Forall_forall in H. apply H, Hc.
Qed.

(** Every text with a digit splits at its first number. *)
Lemma first_number (s : jsstring) :
  no_digits s
  \/ exists pre ds rest,
       s = pre ++ ds ++ rest
       /\ no_digits pre /\ ds <> [] /\ all_digits ds /\ stops isDigit rest.
Proof.
  induction s as [|c s IH].
  - left. constructor.
  - destruct (isDigit c) eqn:E.
    + right. destruct (takeWhile_dropWhile isDigit s) as [E1 [E2 E3]].
      exists [], (c :: takeWhile isDigit s), (dropWhile isDigit s).
      repeat split; try assumption.
      * simpl. f_equal. exact E1.
      * constructor.
      * discriminate.
      * constructor; assumption.
    + destruct IH as [IH|[pre [ds [rest [E1 [E2 [E3 [E4 E5]]]]]]]].
      * left. constructor; assumption.
      * right. exists (c :: pre), ds, rest. repeat split; try assumption.
        -- simpl. f_equal. exact E1.
        -- constructor; assumption.
Qed.

Lemma parseWeekRange_some (pre ds rest : jsstring) :
  no_digits pre -> ds <> [] -> all_digits ds -> stops isDigit rest ->
  exists e, parseWeekRange (pre ++ ds ++ rest) = Some (mkWeekRange (digits_value ds) e).
Proof.
  intros Hpre N1 D1 Hr.
  destruct rest as [|c r].
  - eexists. apply parseWeekRange_one; assumption.
  - destruct (Z.eq_dec c (ch "-")) as [->|Hc].
    + destruct (takeWhile_dropWhile isDigit r) as [E1 [E2 E3]].
      destruct (takeWhile isDigit r) as [|d ds2] eqn:Et.
      * eexists. apply parseWeekRange_one; try assumption.
        right. simpl in E1. rewrite E1. exact E3.
      * eexists. rewrite E1. apply parseWeekRange_pair; try assumption. discriminate.
    + eexists. apply parseWeekRange_one; try assumption. left. exact Hc.
Qed.

(** X1. [parseWeekRange] reads the first number of the text as [start] and,
    when [-] and a number follow at once, that number as [end], else
    [end = start], for numbers below [2^53]; it is [null] exactly when the
    text has no digit.  So [a-b周] gives {a,b} (also when [a > b]) and [a周]
    gives {a,a}. *)
Theorem parseWeekRange_first_number :
  (forall pre ds ds2 rest2,
      no_digits pre -> ds <> [] -> all_digits ds ->
      ds2 <> [] -> all_digits ds2 -> stops isDigit rest2 ->
      digits_value ds < 2 ^ 53 -> digits_value ds2 < 2 ^ 53 ->
      parseWeekRange (pre ++ ds ++ ch "-" :: ds2 ++ rest2)
      = Some (mkWeekRange (digits_value ds) (digits_value ds2)))
  /\ (forall pre ds rest,
        no_digits pre -> ds <> [] -> all_digits ds ->
        stops isDigit rest -> no_dash_number rest ->
        digits_value ds < 2 ^ 53 ->
        parseWeekRange (pre ++ ds ++ rest)
        = Some (mkWeekRange (digits_value ds) (digits_value ds)))
  /\ (forall s, parseWeekRange s = None <-> no_digits s)
  /\ (forall a b,
        0 <= a < 2 ^ 53 -> 0 <= b < 2 ^ 53 ->
        parseWeekRange (toString a ++ js "-" ++ toString b ++ js "周")
        = Some (mkWeekRange a b))
  /\ (forall a,
        0 <= a < 2 ^ 53 ->
        parseWeekRange (toString a ++ js "周") = Some (mkWeekRange a a)).
Proof.
  split.
  { intros pre ds ds2 rest2 H1 H2 H3 H4 H5 H6 _ _.
    apply parseWeekRange_pair; assumption. }
  split.
  { intros pre ds rest H1 H2 H3 H4 H5 _. apply parseWeekRange_one; assumption. }
  split; [|split].
  - intros s. split; [|apply parseWeekRange_no_digits].
    intros H. destruct (first_number s)
      as [Hs|[pre [ds [rest [E1 [E2 [E3 [E4 E5]]]]]]]]; [exact Hs|].
    destruct (parseWeekRange_some pre ds rest E2 E3 E4 E5) as [e He].
    rewrite E1, He in H. discriminate.
  - intros a b [Ha _] [Hb _]. rewrite !toString_nonneg by assumption.
    destruct (digits_spec a Ha) as [Na [Da Va]].
    destruct (digits_spec b Hb) as [Nb [Db Vb]].
    pose proof (parseWeekRange_pair [] (digits a) (digits b) (js "周")
                  (Forall_nil _) Na Da Nb Db eq_refl) as E.
    rewrite Va, Vb in E. exact E.
  - intros a [Ha _]. rewrite !toString_nonneg by assumption.
    destruct (digits_spec a Ha) as [Na [Da Va]].
    pose proof (parseWeekRange_one [] (digits a) (js "周")
                  (Forall_nil _) Na Da eq_refl) as E.
    rewrite Va in E. apply E. left. vm_compute. discriminate.
Qed.

Lemma format_range_parse (r : WeekRange) (tail : jsstring) :
  0 <= start r -> 0 <= end_ r ->
  parseWeekRange (format_range r ++ tail) = Some r.
Proof.
  intros Hs He. unfold format_range.
  destruct (digits_spec (start r) Hs) as [Na [Da Va]].
  destruct (digits_spec (end_ r) He) as [Nb [Db Vb]].
  rewrite !toString_nonneg by assumption.
  destruct (start r =? end_ r) eqn:E.
  - apply Z.eqb_eq in E.
    pose proof (parseWeekRange_one [] (digits (start r)) (js "周" ++ tail)
                  (Forall_nil _) Na Da eq_refl) as P.
    rewrite Va in P. rewrite <- app_assoc.
    change ([] ++ digits (start r) ++ js "周" ++ tail)
      with (digits (start r) ++ js "周" ++ tail) in P.
    rewrite P.
    + destruct r as [s e]. simpl in *. subst e. reflexivity.
    + left. vm_compute. discriminate.
  - pose proof (parseWeekRange_pair [] (digits (start r)) (digits (end_ r))
                  (js "周" ++ tail) (Forall_nil _) Na Da Nb Db eq_refl) as P.
    rewrite Va, Vb in P.
    replace ((digits (start r) ++ js "-" ++ digits (end_ r) ++ js "周") ++ tail)
      with ([] ++ digits (start r) ++ ch "-" :: digits (end_ r) ++ js "周" ++ tail).
    + rewrite P. destruct r; reflexivity.
    + change (js "-") with [ch "-"]. cbn [app].
      repeat (rewrite <- app_assoc; cbn [app]). reflexivity.
Qed.

(** X2. Parsing the text [formatWeekRanges] prints for a non-empty list gives
    back the first range of the list, provided its bounds are not negative
    and below [2^53]; the text printed for no or empty ranges parses to
    [null]. *)
Theorem formatWeekRanges_parse_first :
  (forall r rs,
      0 <= start r < 2 ^ 53 -> 0 <= end_ r < 2 ^ 53 ->
      parseWeekRange (formatWeekRanges (Some (r :: rs))) = Some r)
  /\ parseWeekRange (formatWeekRanges None) = None
  /\ parseWeekRange (formatWeekRanges (Some [])) = None
  /\ parseWeekRange (formatWeekRanges (Some [mkWeekRange (-5) 3]))
     = Some (mkWeekRange 5 3).
Proof.
  split; [|repeat split; vm_compute; reflexivity].
  intros r rs [Hs _] [He _]. unfold formatWeekRanges. cbn [map join].
  destruct rs as [|r2 rs].
  - rewrite <- (app_nil_r (format_range r)).
    apply format_range_parse; assumption.
  - cbn [map]. apply format_range_parse; assumption.
Qed.

End WeekTextFacts.

(* ================================================================== *)
(** ** More about the week-range merge *)
(* ================================================================== *)

Module MergeMore.
Import Js Types CourseTimeParser WeekFacts MergeFacts.

(** The walk keeps the weeks, whatever the ranges are. *)
Lemma walk_weeks (l : list WeekRange) :
  forall cur w,
    Forall (fun r => start cur <= start r) l -> sorted_by_start l ->
    (covers (walk cur l) w <-> in_range w cur \/ covers l w).
Proof.
  unfold covers.
  induction l as [|r l IH]; intros cur w Hall Hs; simpl.
  - split.
    + intros [x [[<-|[]] Hx]]. left. exact Hx.
    + intros [H|[x [[] _]]]. exists cur. split; [left; reflexivity|exact H].
  - inversion Hall as [|? ? Hr Hl]; subst. destruct Hs as [Hrl Hs].
    destruct (start r <=? end_ cur + 1) eqn:E.
    + apply Z.leb_le in E. rewrite IH; simpl; try assumption.
      unfold in_range in *. simpl. split.
      * intros [H|[x [Hin Hx]]].
        -- destruct (Z_le_gt_dec w (end_ cur)).
           ++ left. lia.
           ++ right. exists r. split; [left; reflexivity|lia].
        -- right. exists x. split; [right; exact Hin|exact Hx].
      * intros [H|[x [[<-|Hin] Hx]]].
        -- left. lia.
        -- left. lia.
        -- right. exists x. split; assumption.
    + split.
      * intros [x [[<-|Hin] Hx]].
        -- left. exact Hx.
        -- right. assert (H : in_range w r \/ exists y, In y l /\ in_range w y).
           { apply IH; try assumption. exists x. split; assumption. }
           destruct H as [H|[y [Hy Hw]]].
           ++ exists r. split; [left; reflexivity|exact H].
           ++ exists y. split; [right; exact Hy|exact Hw].
      * intros [H|[x [[<-|Hin] Hx]]].
        -- exists cur. split; [left; reflexivity|exact H].
        -- assert (H : exists y, In y (walk r l) /\ in_range w y).
           { apply IH; try assumption. left. exact Hx. }
           destruct H as [y [Hy Hw]]. exists y. split; [right; exact Hy|exact Hw].
        -- assert (H : exists y, In y (walk r l) /\ in_range w y).
           { apply IH; try assumption. right. exists x. split; assumption. }
           destruct H as [y [Hy Hw]]. exists y. split; [right; exact Hy|exact Hw].
Qed.

Lemma mergeWeekRanges_weeks (l : list WeekRange) (w : Z) :
  covers (mergeWeekRanges l) w <-> covers l w.
Proof.
  rewrite mergeWeekRanges_walk.
  pose proof (sort_sorted l) as Hs. pose proof (sort_perm l) as P.
  rewrite <- (covers_perm _ _ w P).
  destruct (sort_by_start l) as [|r l']; [reflexivity|].
  destruct Hs as [Hr Hs].
  rewrite walk_weeks by assumption. unfold covers. split.
  - intros [H|[x [Hx Hw]]].
    + exists r. split; [left; reflexivity|exact H].
    + exists x. split; [right; exact Hx|exact Hw].
  - intros [x [[<-|Hx] Hw]]; [left; exact Hw|].
    right. exists x. split; assumption.
Qed.

Lemma walk_not_nil (cur : WeekRange) (l : list WeekRange) : walk cur l <> [].
Proof.
  destruct (walk_head l cur) as [e [rest [E _]]]. rewrite E. discriminate.
Qed.

Lemma mergeWeekRanges_nil_iff (l : list WeekRange) :
  mergeWeekRanges l = [] <-> l = [].
Proof.
  split; [|intros ->; reflexivity].
  rewrite mergeWeekRanges_walk. intros H.
  destruct (sort_by_start l) as [|r l'] eqn:E.
  - apply sort_nil_inv, E.
  - exfalso. apply (walk_not_nil r l'), H.
Qed.

Lemma isWeekInRanges_covers (w : Z) (l : list WeekRange) :
  l <> [] -> (isWeekInRanges w (Some l) = true <-> covers l w).
Proof.
  intros Hne. destruct l as [|r rs]; [contradiction|].
  unfold isWeekInRanges, covers. rewrite existsb_exists.
  split; intros [x [Hx Hw]]; exists x; split; try exact Hx; apply in_range_test, Hw.
Qed.

(** X3. Merging never changes in which weeks a slot is active: for every list
    of ranges and every week, [isWeekInRanges] answers the same before and
    after [mergeWeekRanges]; in particular the merge of a non-empty list is
    not empty (an empty list would mean the whole term). *)
Theorem mergeWeekRanges_same_weeks :
  forall (l : list WeekRange) (w : Z),
    isWeekInRanges w (Some (mergeWeekRanges l)) = isWeekInRanges w (Some l)
    /\ (mergeWeekRanges l = [] <-> l = []).
Proof.
  intros l w. split; [|apply mergeWeekRanges_nil_iff].
  destruct l as [|r rs]; [reflexivity|].
  assert (Hm : mergeWeekRanges (r :: rs) <> []).
  { intros E. apply (proj1 (mergeWeekRanges_nil_iff _)) in E. discriminate E. }
  apply eq_true_iff_eq.
  rewrite (isWeekInRanges_covers w _ Hm).
  rewrite (isWeekInRanges_covers w (r :: rs)) by discriminate.
  apply mergeWeekRanges_weeks.
Qed.

(** *** Lists in canonical form *)

Lemma canonical_starts (r : WeekRange) (l : list WeekRange) :
  canonical (r :: l) -> Forall (fun r' => start r < start r') l.
Proof.
  intros [Hv [Hgap _]]. unfold valid in Hv.
  eapply Forall_impl; [|exact Hgap]. simpl. intros a Ha. lia.
Qed.

Lemma sort_canonical (l : list WeekRange) : canonical l -> sort_by_start l = l.
Proof.
  induction l as [|r l IH]; intros Hc; [reflexivity|].
  pose proof (canonical_starts r l Hc) as Hs.
  destruct Hc as [_ [_ Hc]]. simpl. rewrite (IH Hc).
  destruct l as [|r' l']; [reflexivity|]. simpl.
  inversion Hs as [|? ? Hr _]; subst.
  destruct (start r <=? start r') eqn:E; [reflexivity|].
  apply Z.leb_gt in E. lia.
Qed.

Lemma walk_canonical_same (l : list WeekRange) :
  forall r, canonical (r :: l) -> walk r l = r :: l.
Proof.
  induction l as [|r' l IH]; intros r Hc; [reflexivity|].
  destruct Hc as [Hv [Hgap Hc]]. inversion Hgap as [|? ? Hr _]; subst.
  simpl. destruct (start r' <=? end_ r + 1) eqn:E.
  - apply Z.leb_le in E. lia.
  - rewrite (IH r' Hc). reflexivity.
Qed.

Lemma mergeWeekRanges_canonical_same (l : list WeekRange) :
  canonical l -> mergeWeekRanges l = l.
Proof.
  intros Hc. rewrite mergeWeekRanges_walk, (sort_canonical l Hc).
  destruct l as [|r l]; [reflexivity|]. apply walk_canonical_same, Hc.
Qed.

(** X4. A list that is already ascending, without overlap or adjacency and
    with [start <= end] in each range, is returned unchanged; so merging an
    already merged list changes nothing. *)
Theorem mergeWeekRanges_idempotent :
  (forall l, canonical l -> mergeWeekRanges l = l)
  /\ (forall l, Forall valid l ->
                mergeWeekRanges (mergeWeekRanges l) = mergeWeekRanges l).
Proof.
  split; [exact mergeWeekRanges_canonical_same|].
  intros l Hv. apply mergeWeekRanges_canonical_same.
  apply mergeWeekRanges_canonical, Hv.
Qed.

Lemma canonical_first_least (r : WeekRange) (l : list WeekRange) (w : Z) :
  canonical (r :: l) -> covers (r :: l) w -> start r <= w.
Proof.
  intros Hc [x [[<-|Hx] Hw]]; unfold in_range in Hw; [lia|].
  pose proof (canonical_starts r l Hc) as Hs.
  rewrite Forall_forall in Hs. specialize (Hs x Hx). lia.
Qed.

Lemma canonical_covers_start (r : WeekRange) (l : list WeekRange) :
  canonical (r :: l) -> covers (r :: l) (start r).
Proof.
  intros [Hv _]. exists r. split; [left; reflexivity|].
  unfold in_range, valid in *. lia.
Qed.

Lemma canonical_gap (r : WeekRange) (l : list WeekRange) :
  canonical (r :: l) -> ~ covers (r :: l) (end_ r + 1).
Proof.
  intros [_ [Hgap _]] [x [[<-|Hx] Hw]]; unfold in_range in Hw; [lia|].
  rewrite Forall_forall in Hgap. specialize (Hgap x Hx). lia.
Qed.

Lemma canonical_covers_first (r : WeekRange) (l : list WeekRange) (w : Z) :
  canonical (r :: l) -> start r <= w <= end_ r -> covers (r :: l) w.
Proof. intros _ H. exists r. split; [left; reflexivity|exact H]. Qed.

(** Two canonical lists that denote the same weeks are the same list. *)
Lemma canonical_unique (l1 : list WeekRange) :
  forall l2,
    canonical l1 -> canonical l2 ->
    (forall w, covers l1 w <-> covers l2 w) -> l1 = l2.
Proof.
  induction l1 as [|r1 t1 IH]; intros [|r2 t2] H1 H2 Hsame.
  - reflexivity.
  - exfalso. destruct (proj2 (Hsame _) (canonical_covers_start r2 t2 H2))
      as [x [[] _]].
  - exfalso. destruct (proj1 (Hsame _) (canonical_covers_start r1 t1 H1))
      as [x [[] _]].
  - assert (Es : start r1 = start r2).
    { pose proof (canonical_first_least r2 t2 _ H2
                    (proj1 (Hsame _) (canonical_covers_start r1 t1 H1))).
      pose proof (canonical_first_least r1 t1 _ H1
                    (proj2 (Hsame _) (canonical_covers_start r2 t2 H2))).
      lia. }
    assert (V1 : valid r1) by apply H1. assert (V2 : valid r2) by apply H2.
    unfold valid in V1, V2.
    assert (Ee : end_ r1 = end_ r2).
    { destruct (Z.lt_trichotomy (end_ r1) (end_ r2)) as [Hlt|[E|Hgt]]; [|exact E|].
      - exfalso. apply (canonical_gap r1 t1 H1). apply Hsame.
        apply canonical_covers_first; [exact H2|lia].
      - exfalso. apply (canonical_gap r2 t2 H2). apply Hsame.
        apply canonical_covers_first; [exact H1|lia]. }
    assert (Er : r1 = r2).
    { destruct r1, r2. simpl in *. subst. reflexivity. }
    subst r2. f_equal. apply IH; [apply H1|apply H2|].
    assert (Htail : forall t, canonical (r1 :: t) ->
                     forall w, covers t w <-> covers (r1 :: t) w /\ end_ r1 < w).
    { intros t Hc w. destruct Hc as [_ [Hgap _]]. rewrite Forall_forall in Hgap.
      split.
      - intros [x [Hx Hw]]. split; [exists x; split; [right; exact Hx|exact Hw]|].
        specialize (Hgap x Hx). unfold in_range in Hw. lia.
      - intros [[x [[<-|Hx] Hw]] Hlt]; [unfold in_range in Hw; lia|].
        exists x. split; assumption. }
    intros w. rewrite (Htail t1 H1 w), (Htail t2 H2 w), Hsame. tauto.
Qed.

Lemma covers_app (l1 l2 : list WeekRange) (w : Z) :
  covers (l1 ++ l2) w <-> covers l1 w \/ covers l2 w.
Proof.
  unfold covers. split.
  - intros [x [Hx Hw]]. apply in_app_iff in Hx.
    destruct Hx as [Hx|Hx]; [left|right]; exists x; split; assumption.
  - intros [[x [Hx Hw]]|[x [Hx Hw]]]; exists x; split; try exact Hw;
      apply in_app_iff; [left|right]; exact Hx.
Qed.

Lemma canonical_valid (l : list WeekRange) : canonical l -> Forall valid l.
Proof.
  induction l as [|r l IH]; intros Hc; constructor; [apply Hc|apply IH, Hc].
Qed.

Lemma mergeWeekRanges_same_set (l l' : list WeekRange) :
  Forall valid l -> Forall valid l' ->
  (forall w, covers l w <-> covers l' w) ->
  mergeWeekRanges l = mergeWeekRanges l'.
Proof.
  intros Hv Hv' Hsame. apply canonical_unique.
  - apply mergeWeekRanges_canonical, Hv.
  - apply mergeWeekRanges_canonical, Hv'.
  - intros w. rewrite !mergeWeekRanges_weeks. apply Hsame.
Qed.

(** X5. On ranges with [start <= end] the result depends only on the set of
    weeks the input denotes: two inputs denoting the same weeks merge to the
    same list.  So the order of the input and repeated ranges do not matter,
    and merging in two rounds gives what one round over all the ranges gives. *)
Theorem mergeWeekRanges_set_determined :
  forall l l' : list WeekRange,
    Forall valid l -> Forall valid l' ->
    ((forall w, covers l w <-> covers l' w) ->
     mergeWeekRanges l = mergeWeekRanges l')
    /\ (Permutation l l' -> mergeWeekRanges l = mergeWeekRanges l')
    /\ mergeWeekRanges (l ++ l) = mergeWeekRanges l
    /\ mergeWeekRanges (mergeWeekRanges l ++ l') = mergeWeekRanges (l ++ l').
Proof.
  intros l l' Hv Hv'. split; [|split; [|split]].
  - apply mergeWeekRanges_same_set; assumption.
  - intros P. apply mergeWeekRanges_same_set; try assumption.
    intros w. apply covers_perm, P.
  - apply mergeWeekRanges_same_set; [apply Forall_app; split; assumption|exact Hv|].
    intros w. rewrite covers_app. tauto.
  - apply mergeWeekRanges_same_set.
    + apply Forall_app. split; [|exact Hv'].
      apply canonical_valid, mergeWeekRanges_canonical, Hv.
    + apply Forall_app. split; assumption.
    + intros w. rewrite !covers_app, mergeWeekRanges_weeks. tauto.
Qed.

Lemma mergeWeekRanges_set_determined_witness :
  mergeWeekRanges [mkWeekRange 7 8; mkWeekRange 1 6]
  = mergeWeekRanges [mkWeekRange 1 6; mkWeekRange 7 8; mkWeekRange 1 6].
Proof.
  assert (H1 : Forall valid [mkWeekRange 7 8; mkWeekRange 1 6]).
  { repeat constructor; unfold valid; simpl; lia. }
  assert (H2 : Forall valid [mkWeekRange 1 6; mkWeekRange 7 8; mkWeekRange 1 6]).
  { repeat constructor; unfold valid; simpl; lia. }
  apply (proj1 (mergeWeekRanges_set_determined _ _ H1 H2)).
  intros w. unfold covers. simpl. split; intros [r [Hr Hw]]; exists r; tauto.
Defined.

End MergeMore.

(* ================================================================== *)
(** ** More about the deduplication *)
(* ================================================================== *)

Module DedupMore.
Import Js JsFacts Types CourseTimeParser WeekFacts MergeFacts MergeMore DedupFacts.

Lemma group_absent (k : jsstring) (l : list FixedTimeSlot) :
  ~ In k (map slot_key l) -> group k l = [] /\ others k l = l.
Proof.
  unfold group, others. induction l as [|s l IH]; intros H; [split; reflexivity|].
  simpl in H. simpl.
  assert (E : str_eqb k (slot_key s) = false).
  { apply str_eqb_neq. intros E. apply H. left. symmetry. exact E. }
  rewrite E. simpl. destruct IH as [IH1 IH2]; [tauto|].
  rewrite IH1, IH2. split; reflexivity.
Qed.

Lemma deduplicateTimeSlots_distinct_same (l : list FixedTimeSlot) :
  NoDup (map slot_key l) -> deduplicateTimeSlots l = l.
Proof.
  induction l as [|s l IH]; intros H; [reflexivity|].
  simpl in H. inversion H as [|? ? Hs Hl]; subst.
  rewrite deduplicateTimeSlots_cons.
  destruct (group_absent (slot_key s) l Hs) as [E1 E2].
  rewrite E1, E2, (IH Hl). reflexivity.
Qed.

Lemma deduplicateTimeSlots_keys_distinct (l : list FixedTimeSlot) :
  NoDup (map slot_key (deduplicateTimeSlots l)).
Proof.
  apply (deduplicateTimeSlots_deduplicated_len (length l) l (le_n _)).
Qed.

Lemma deduplicateTimeSlots_length_len (n : nat) :
  forall l, (length l <= n)%nat ->
            (length (deduplicateTimeSlots l) <= length l)%nat.
Proof.
  induction n as [|n IH]; intros l Hlen.
  - destruct l; [simpl; lia|simpl in Hlen; lia].
  - destruct l as [|s l]; [simpl; lia|].
    rewrite deduplicateTimeSlots_cons. simpl.
    pose proof (others_length (slot_key s) l) as Ho. simpl in Hlen.
    specialize (IH (others (slot_key s) l) ltac:(lia)). lia.
Qed.

(** X6. [deduplicateTimeSlots] returns its input unchanged exactly when no two
    slots of the input share a key; its output never has two slots with one
    key, so a second pass changes nothing, and it is never longer than the
    input. *)
Theorem deduplicateTimeSlots_idempotent :
  forall l : list FixedTimeSlot,
    (deduplicateTimeSlots l = l <-> NoDup (map slot_key l))
    /\ deduplicateTimeSlots (deduplicateTimeSlots l) = deduplicateTimeSlots l
    /\ (length (deduplicateTimeSlots l) <= length l)%nat.
Proof.
  intros l. split; [split|split].
  - intros E. rewrite <- E. apply deduplicateTimeSlots_keys_distinct.
  - apply deduplicateTimeSlots_distinct_same.
  - apply deduplicateTimeSlots_distinct_same, deduplicateTimeSlots_keys_distinct.
  - apply (deduplicateTimeSlots_length_len (length l)), le_n.
Qed.

(** *** Order of the output *)

Definition seen_key (seen : list jsstring) (k : jsstring) : bool :=
  existsb (fun k' => str_eqb k' k) seen.

(** The keys in the order of their first appearance. *)
Fixpoint first_seen (seen keys : list jsstring) : list jsstring :=
  match keys with
  | [] => []
  | k :: r =>
      if seen_key seen k then first_seen seen r
      else k :: first_seen (k :: seen) r
  end.

Lemma others_filter (k : jsstring) (seen : list jsstring) (l : list FixedTimeSlot) :
  others k (filter (fun s => negb (seen_key seen (slot_key s))) l)
  = filter (fun s => negb (seen_key (k :: seen) (slot_key s))) l.
Proof.
  unfold others. induction l as [|s l IH]; [reflexivity|]. simpl.
  destruct (seen_key seen (slot_key s)); simpl.
  - rewrite orb_true_r. simpl. exact IH.
  - rewrite orb_false_r. destruct (str_eqb k (slot_key s)); simpl;
      [exact IH|rewrite IH; reflexivity].
Qed.

Lemma first_seen_dedup (l : list FixedTimeSlot) :
  forall seen,
    first_seen seen (map slot_key l)
    = map slot_key
        (deduplicateTimeSlots
           (filter (fun s => negb (seen_key seen (slot_key s))) l)).
Proof.
  induction l as [|s l IH]; intros seen; [reflexivity|]. simpl.
  destruct (seen_key seen (slot_key s)); simpl; [apply IH|].
  rewrite deduplicateTimeSlots_cons. simpl.
  rewrite collapse_key, others_filter, <- IH. reflexivity.
Qed.

Lemma filter_all {A : Type} (l : list A) : filter (fun _ => true) l = l.
Proof. induction l as [|x l IH]; simpl; [|rewrite IH]; reflexivity. Qed.

(** X7. The output lists the keys of the input in the order in which they
    first appear. *)
Theorem deduplicateTimeSlots_first_seen_order :
  forall l : list FixedTimeSlot,
    map slot_key (deduplicateTimeSlots l) = first_seen [] (map slot_key l).
Proof.
  intros l. rewrite first_seen_dedup. simpl.
  change (fun s : FixedTimeSlot => negb false) with (fun _ : FixedTimeSlot => true).
  rewrite filter_all. reflexivity.
Qed.

(** *** The weeks of the kept slot *)

(** [ws] is a list of ranges one of which holds week [w]. *)
Definition listed (ws : option (list WeekRange)) (w : Z) : Prop :=
  exists l, ws = Some l /\ covers l w.

Lemma isWeekInRanges_listed (w : Z) (ws : option (list WeekRange)) :
  isWeekInRanges w ws = true <-> no_weeks ws = true \/ listed ws w.
Proof.
  unfold listed. destruct ws as [[|r rs]|].
  - simpl. tauto.
  - rewrite isWeekInRanges_covers by discriminate. simpl. split.
    + intros H. right. exists (r :: rs). tauto.
    + intros [H|[l [E H]]]; [discriminate|]. inversion E; subst. exact H.
  - simpl. tauto.
Qed.

Lemma listed_not_whole (ws : option (list WeekRange)) (w : Z) :
  listed ws w -> no_weeks ws = false.
Proof.
  intros [l [-> [r [Hr _]]]]. destruct l; [contradiction|reflexivity].
Qed.

Lemma absorb_whole (cur x : option (list WeekRange)) :
  no_weeks (absorb cur x) = no_weeks cur && no_weeks x.
Proof.
  destruct x as [[|a xs]|]; cbn [absorb no_weeks];
    try (rewrite andb_true_r; reflexivity).
  destruct cur as [[|e es]|]; cbn [no_weeks andb]; try reflexivity.
  destruct (mergeWeekRanges ((e :: es) ++ a :: xs)) eqn:E; [|reflexivity].
  apply (proj1 (mergeWeekRanges_nil_iff _)) in E. discriminate E.
Qed.

Lemma absorb_listed (cur x : option (list WeekRange)) (w : Z) :
  listed (absorb cur x) w <-> listed cur w \/ listed x w.
Proof.
  unfold listed.
  assert (Hnil : forall A : Prop,
             (exists l : list WeekRange, Some (@nil WeekRange) = Some l /\ covers l w)
             -> A).
  { intros A [l [E [r [Hr _]]]]. inversion E; subst. contradiction. }
  assert (Hnone : forall A : Prop,
             (exists l : list WeekRange, None = Some l /\ covers l w) -> A).
  { intros A [l [E _]]. discriminate. }
  destruct x as [[|a xs]|]; cbn [absorb].
  - split; [tauto|]. intros [H|H]; [exact H|apply Hnil, H].
  - destruct cur as [[|e es]|].
    + split; [tauto|]. intros [H|H]; [apply Hnil, H|exact H].
    + split.
      * intros [l [E H]].
        assert (El : mergeWeekRanges ((e :: es) ++ a :: xs) = l) by congruence.
        rewrite <- El in H.
        apply (proj1 (mergeWeekRanges_weeks _ _)) in H.
        apply (proj1 (covers_app _ _ _)) in H.
        destruct H as [H|H]; [left|right]; eexists; split; try reflexivity; exact H.
      * intros H. eexists. split; [reflexivity|].
        apply mergeWeekRanges_weeks. apply covers_app.
        destruct H as [[l [E H]]|[l [E H]]]; inversion E; subst; tauto.
    + split; [tauto|]. intros [H|H]; [apply Hnone, H|exact H].
  - split; [tauto|]. intros [H|H]; [exact H|apply Hnone, H].
Qed.

Lemma absorb_all_whole (xs : list (option (list WeekRange))) :
  forall cur,
    no_weeks (fold_left absorb xs cur) = true
    <-> no_weeks cur = true /\ forall x, In x xs -> no_weeks x = true.
Proof.
  induction xs as [|x xs IH]; intros cur; simpl; [tauto|].
  rewrite IH, absorb_whole, andb_true_iff. split.
  - intros [[H1 H2] H3]. split; [exact H1|]. intros y [<-|Hy]; auto.
  - intros [H1 H2]. repeat split; auto.
Qed.

Lemma absorb_all_listed (xs : list (option (list WeekRange))) (w : Z) :
  forall cur,
    listed (fold_left absorb xs cur) w
    <-> listed cur w \/ exists x, In x xs /\ listed x w.
Proof.
  induction xs as [|x xs IH]; intros cur; simpl.
  - split; [tauto|]. intros [H|[x [[] _]]]. exact H.
  - rewrite IH, absorb_listed. split.
    + intros [[H|H]|[y [Hy H]]]; [left; exact H| |].
      * right. exists x. tauto.
      * right. exists y. tauto.
    + intros [H|[y [[<-|Hy] H]]]; [tauto|tauto|].
      right. exists y. tauto.
Qed.

(** X8. The slot kept for a key is active in a week exactly when either no
    slot of the key carries a week list (the whole term), or some slot of the
    key that carries a non-empty week list is active in that week.  A slot
    without week list is therefore dropped from the weeks as soon as another
    slot of its key has one: the kept slot is whole-term only if every slot
    of the key is. *)
Theorem deduplicateTimeSlots_active_weeks :
  forall (l : list FixedTimeSlot) (o : FixedTimeSlot),
    In o (deduplicateTimeSlots l) ->
    (no_weeks (weeks o) = true
     <-> forall s, In s (group (slot_key o) l) -> no_weeks (weeks s) = true)
    /\ forall w,
         isWeekInRanges w (weeks o) = true
         <-> (forall s, In s (group (slot_key o) l) -> no_weeks (weeks s) = true)
             \/ exists s, In s (group (slot_key o) l)
                          /\ no_weeks (weeks s) = false
                          /\ isWeekInRanges w (weeks s) = true.
Proof.
  intros l o Ho.
  destruct (deduplicateTimeSlots_deduplicated_len (length l) l (le_n _))
    as [_ [_ Hgrp]].
  destruct (Hgrp o Ho) as [s [rest [Eg [_ [_ [_ Ew]]]]]].
  rewrite Eg, Ew.
  assert (Hwhole : no_weeks (fold_left absorb (map weeks rest) (weeks s)) = true
                   <-> forall x, In x (s :: rest) -> no_weeks (weeks x) = true).
  { rewrite absorb_all_whole. split.
    - intros [H1 H2] x [<-|Hx]; [exact H1|]. apply H2, in_map, Hx.
    - intros H. split; [apply H; left; reflexivity|].
      intros x Hx. apply in_map_iff in Hx. destruct Hx as [y [<- Hy]].
      apply H. right. exact Hy. }
  split; [exact Hwhole|].
  intros w. rewrite isWeekInRanges_listed, Hwhole, absorb_all_listed.
  split.
  - intros [H|[H|[x [Hx H]]]]; [left; exact H| |].
    + right. exists s. split; [left; reflexivity|].
      split; [apply (listed_not_whole _ w H)|].
      apply isWeekInRanges_listed. right. exact H.
    + apply in_map_iff in Hx. destruct Hx as [y [<- Hy]].
      right. exists y. split; [right; exact Hy|].
      split; [apply (listed_not_whole _ w H)|].
      apply isWeekInRanges_listed. right. exact H.
  - intros [H|[x [[<-|Hx] [Hn H]]]]; [left; exact H| |].
    + apply (proj1 (isWeekInRanges_listed _ _)) in H.
      destruct H as [H|H]; [congruence|].
      right. left. exact H.
    + apply (proj1 (isWeekInRanges_listed _ _)) in H.
      destruct H as [H|H]; [congruence|].
      right. right. exists (weeks x). split; [apply in_map, Hx|exact H].
Qed.

Lemma deduplicateTimeSlots_active_weeks_witness :
  let a := mkFixedTimeSlot 1 [js "5"] None None in
  let b := mkFixedTimeSlot 1 [js "5"] (Some [mkWeekRange 1 6]) None in
  let o := mkFixedTimeSlot 1 [js "5"] (Some [mkWeekRange 1 6]) None in
  isWeekInRanges 10 (weeks a) = true
  /\ (isWeekInRanges 10 (weeks o) = true
      <-> (forall s, In s (group (slot_key o) [a; b]) -> no_weeks (weeks s) = true)
          \/ exists s, In s (group (slot_key o) [a; b])
                       /\ no_weeks (weeks s) = false
                       /\ isWeekInRanges 10 (weeks s) = true).
Proof.
  split; [reflexivity|].
  apply (deduplicateTimeSlots_active_weeks
           [mkFixedTimeSlot 1 [js "5"] None None;
            mkFixedTimeSlot 1 [js "5"] (Some [mkWeekRange 1 6]) None]
           (mkFixedTimeSlot 1 [js "5"] (Some [mkWeekRange 1 6]) None)).
  vm_compute. left. reflexivity.
Defined.

End DedupMore.

(* ================================================================== *)
(** ** More about the parser *)
(* ================================================================== *)

Module ParserMore.
Import Js JsFacts RegexFacts RegexMore Types CourseTimeParser ParserFacts.
Import WeekTextFacts DedupFacts DedupMore.

(** *** [parseLocation] *)

Definition not_close (c : Z) : bool := negb (c =? ch ")").

Lemma re_location_miss (j : nat) (c : Z) (t : jsstring) :
  c <> ch "(" -> match_here re_location j (c :: t) = None.
Proof.
  intros H. unfold match_here, re_location.
  rewrite run_cat_miss; [reflexivity|]. apply run_lit_miss, H.
Qed.

Lemma re_location_here (loc post : jsstring) :
  loc <> [] -> ~ In (ch ")") loc ->
  leads (run re_location (ch "(" :: loc ++ ch ")" :: post, []))
        (post, [(1%nat, loc)]).
Proof.
  intros Hne Hloc. unfold re_location.
  eapply leads_cat; [apply leads_lit|].
  eapply leads_cat; [|apply leads_lit].
  assert (Hp : Forall (fun c => not_close c = true) loc).
  { apply Forall_forall. intros c Hc. unfold not_close.
    apply negb_true_iff, Z.eqb_neq. intros ->. contradiction. }
  pose proof (leads_grp 1 _ _ _ _ _
                (leads_plus not_close loc (ch ")" :: post) [] Hne Hp eq_refl)) as H.
  rewrite firstn_consumed in H. exact H.
Qed.

Lemma search_location_first (pre loc post : jsstring) :
  ~ In (ch "(") pre -> loc <> [] -> ~ In (ch ")") loc ->
  search re_location (pre ++ ch "(" :: loc ++ ch ")" :: post)
  = Some (mkMatch (length pre) (ch "(" :: loc ++ [ch ")"]) [(1%nat, loc)] post).
Proof.
  intros Hpre Hne Hloc. unfold search. apply search_from_prefix.
  - intros c t j Hc. apply re_location_miss. intros ->. contradiction.
  - rewrite (match_here_leads _ _ _ _ _ (re_location_here loc post Hne Hloc)).
    do 2 f_equal.
    replace (ch "(" :: loc ++ ch ")" :: post)
      with ((ch "(" :: loc ++ [ch ")"]) ++ post).
    + apply firstn_consumed.
    + simpl. rewrite <- app_assoc. reflexivity.
Qed.

Lemma star_consumed (p : Z -> bool) (t s' : jsstring) :
  In s' (star p t) -> exists ds, t = ds ++ s' /\ Forall (fun c => p c = true) ds.
Proof.
  induction t as [|c t IH]; simpl.
  - intros [<-|[]]. exists []. split; [reflexivity|constructor].
  - destruct (p c) eqn:E.
    + rewrite in_app_iff. intros [H|[<-|[]]].
      * destruct (IH H) as [ds [E1 E2]]. exists (c :: ds).
        split; [simpl; f_equal; exact E1|constructor; assumption].
      * exists []. split; [reflexivity|constructor].
    + intros [<-|[]]. exists []. split; [reflexivity|constructor].
Qed.

(** Every way [re_location] matches at the head of a text. *)
Lemma re_location_shape (u rest : jsstring) (caps : captures) :
  In (rest, caps) (run re_location (u, [])) ->
  exists loc,
    u = ch "(" :: loc ++ ch ")" :: rest
    /\ loc <> [] /\ ~ In (ch ")") loc /\ caps = [(1%nat, loc)].
Proof.
  unfold re_location. intros H.
  change (run (Cat (Lit (ch "(")) (Cat (Grp 1 (Plus not_close)) (Lit (ch ")")))) (u, []))
    with (flat_map (run (Cat (Grp 1 (Plus not_close)) (Lit (ch ")"))))
                   (run (Lit (ch "(")) (u, []))) in H.
  apply in_flat_map in H. destruct H as [st1 [H1 H]].
  destruct u as [|x t]; [contradiction|]. cbn [run fst snd] in H1.
  destruct (x =? ch "(") eqn:Ex; [|contradiction].
  apply Z.eqb_eq in Ex. destruct H1 as [<-|[]].
  change (run (Cat (Grp 1 (Plus not_close)) (Lit (ch ")"))) (t, []))
    with (flat_map (run (Lit (ch ")"))) (run (Grp 1 (Plus not_close)) (t, []))) in H.
  apply in_flat_map in H. destruct H as [st2 [H2 H]].
  cbn [run fst snd] in H2. destruct t as [|y t']; [contradiction|].
  change (fun c : Z => negb (c =? ch ")")) with not_close in H2.
  change (negb (y =? ch ")")) with (not_close y) in H2.
  destruct (not_close y) eqn:Ey; [|contradiction].
  apply in_map_iff in H2. destruct H2 as [st' [<- H2]].
  apply in_map_iff in H2. destruct H2 as [s' [<- H2]].
  cbn [run fst snd] in H. destruct s' as [|z s'']; [contradiction|].
  destruct (z =? ch ")") eqn:Ez; [|contradiction].
  apply Z.eqb_eq in Ez. destruct H as [E|[]]. inversion E; subst.
  destruct (star_consumed not_close t' _ H2) as [ds [Et Hds]].
  exists (y :: ds). subst t'.
  assert (Hno : forall c, not_close c = true -> c <> ch ")").
  { intros c Hc Ec. subst c. vm_compute in Hc. discriminate. }
  split; [reflexivity|]. split; [discriminate|]. split.
  - intros [Hin|Hin]; [apply (Hno y Ey); exact Hin|].
    rewrite Forall_forall in Hds. apply (Hno _ (Hds _ Hin)). reflexivity.
  - do 2 f_equal. rewrite length_app. cbn [length].
    replace (length ds + S (length rest) - length rest)%nat
      with (S (length ds)) by lia.
    cbn [firstn]. f_equal.
    rewrite firstn_app, Nat.sub_diag, firstn_all. cbn [firstn]. apply app_nil_r.
Qed.

Lemma search_from_found (r : regex) (s : jsstring) :
  forall i m,
    search_from r i s = Some m ->
    exists pre u, s = pre ++ u /\ match_here r (i + length pre) u = Some m.
Proof.
  induction s as [|c s IH]; intros i m; simpl.
  - destruct (match_here r i []) eqn:E; [|discriminate].
    intros H. inversion H; subst. exists [], []. simpl. rewrite Nat.add_0_r. tauto.
  - destruct (match_here r i (c :: s)) eqn:E.
    + intros H. inversion H; subst. exists [], (c :: s). simpl.
      rewrite Nat.add_0_r. tauto.
    + intros H. destruct (IH _ _ H) as [pre [u [E1 E2]]].
      exists (c :: pre), u. simpl. rewrite Nat.add_succ_r in *.
      split; [f_equal; exact E1|exact E2].
Qed.

Lemma match_here_inv (r : regex) (i : nat) (u : jsstring) (m : Match) :
  match_here r i u = Some m ->
  exists rest caps,
    In (rest, caps) (run r (u, []))
    /\ m = mkMatch i (firstn (length u - length rest) u) caps rest.
Proof.
  unfold match_here. destruct (run r (u, [])) as [|[rest caps] tl]; [discriminate|].
  intros H. inversion H. exists rest, caps. split; [left; reflexivity|reflexivity].
Qed.

(** X9. [parseLocation] returns the content of the first parenthesis pair
    with a non-empty content: a text whose first [(] opens such a pair gives
    that content, a text without [(] gives [undefined], and a location that is
    returned is never empty, holds no [)] and stands in the text between [(]
    and [)]. *)
Theorem parseLocation_first_parenthesis :
  (forall pre loc post,
      ~ In (ch "(") pre -> loc <> [] -> ~ In (ch ")") loc ->
      parseLocation (pre ++ js "(" ++ loc ++ js ")" ++ post) = Some loc)
  /\ (forall s, ~ In (ch "(") s -> parseLocation s = None)
  /\ (forall s loc,
        parseLocation s = Some loc ->
        loc <> [] /\ ~ In (ch ")") loc
        /\ exists pre post, s = pre ++ js "(" ++ loc ++ js ")" ++ post).
Proof.
  split; [|split; [exact parseLocation_none|]].
  - intros pre loc post Hpre Hne Hloc. unfold parseLocation.
    change (pre ++ js "(" ++ loc ++ js ")" ++ post)
      with (pre ++ ch "(" :: loc ++ ch ")" :: post).
    rewrite (search_location_first pre loc post Hpre Hne Hloc). reflexivity.
  - intros s loc. unfold parseLocation, search.
    destruct (search_from re_location 0 s) as [m|] eqn:E; [|discriminate].
    intros Hg. destruct (search_from_found _ _ _ _ E) as [pre [u [Es Hm]]].
    destruct (match_here_inv _ _ _ _ Hm) as [rest [caps [Hin Em]]].
    subst m. cbn [m_caps] in Hg.
    destruct (re_location_shape u rest caps Hin) as [loc' [Eu [Hne [Hno Ec]]]].
    subst caps. cbn [Js.group Nat.eqb] in Hg. inversion Hg; subst loc'.
    split; [exact Hne|]. split; [exact Hno|].
    exists pre, rest. rewrite Es, Eu. reflexivity.
Qed.

(** *** What a parsed slot looks like *)

Lemma lookup_in (k : jsstring) (m : list (jsstring * Z)) (d : Z) :
  lookup k m = Some d -> In d (map snd m).
Proof.
  induction m as [|[k' v] m IH]; simpl; [discriminate|].
  destruct (str_eqb k' k).
  - intros E. inversion E. left. reflexivity.
  - intros E. right. apply IH, E.
Qed.

Lemma parseDay_range (s : jsstring) (d : Z) : parseDay s = Some d -> 1 <= d <= 7.
Proof.
  unfold parseDay. destruct (lookup s DAY_MAP) as [v|] eqn:E; [|discriminate].
  apply lookup_in in E. destruct (v =? 0); [discriminate|].
  intros H. inversion H; subst v. clear H.
  unfold DAY_MAP in E. cbn [map snd] in E.
  repeat (destruct E as [E|E]; [lia|]). contradiction.
Qed.

Lemma takeWhile_all (p : Z -> bool) (s : jsstring) :
  Forall (fun c => p c = true) (takeWhile p s).
Proof. apply takeWhile_dropWhile. Qed.

Lemma digits_value_nonneg (ds : jsstring) : all_digits ds -> 0 <= digits_value ds.
Proof.
  unfold digits_value.
  assert (H : forall acc, 0 <= acc -> all_digits ds ->
                          0 <= fold_left (fun a c => a * 10 + (c - 48)) ds acc).
  { induction ds as [|c ds IH]; intros acc Hacc Hd; simpl; [exact Hacc|].
    inversion Hd as [|? ? Hc Hd']; subst. apply IH; [|exact Hd'].
    unfold isDigit in Hc. apply andb_true_iff in Hc.
    rewrite !Z.leb_le in Hc. lia. }
  apply H. lia.
Qed.

Lemma parseInt_nonneg (s : jsstring) (v : Z) : parseInt s = Some v -> 0 <= v.
Proof.
  unfold parseInt. pose proof (takeWhile_all isDigit s) as Hd.
  destruct (takeWhile isDigit s) as [|c ds]; [discriminate|].
  intros H. inversion H; subst. apply digits_value_nonneg, Hd.
Qed.

(** The period ids are the decimal strings of consecutive numbers. *)
Definition consecutive_ids (ids : list jsstring) : Prop :=
  exists a n,
    0 <= a /\ ids = map (fun k => toString (a + Z.of_nat k)) (seq 0 (S n)).

Lemma parseTimeSlots_shape (s : jsstring) :
  parseTimeSlots s = [] \/ consecutive_ids (parseTimeSlots s).
Proof.
  unfold parseTimeSlots.
  destruct (search re_timeSlots s) as [m|]; [|left; reflexivity].
  destruct (Js.group (m_caps m) 1) as [g1|]; [|left; reflexivity].
  destruct (parseInt g1) as [a|] eqn:Ea; [|left; reflexivity].
  apply parseInt_nonneg in Ea.
  assert (H : forall b, map toString (for_range a b) = []
                        \/ consecutive_ids (map toString (for_range a b))).
  { intros b. destruct (Z_lt_ge_dec b a) as [Hlt|Hge].
    - left. rewrite for_range_empty by exact Hlt. reflexivity.
    - right. exists a, (Z.to_nat (b - a)). split; [exact Ea|].
      rewrite for_range_seq, map_map. do 2 f_equal. lia. }
  destruct (Js.group (m_caps m) 2) as [[|c g2]|]; try apply H.
  destruct (parseInt (c :: g2)) as [b|]; [apply H|left; reflexivity].
Qed.

Lemma slot_of_match_day (w : option WeekRange) (loc : option jsstring)
    (m : Match) (slot : FixedTimeSlot) :
  In slot (slot_of_match w loc m) -> 1 <= dayOfWeek slot <= 7.
Proof.
  unfold slot_of_match.
  destruct (search re_day (m_full m)) as [dm|]; [|contradiction].
  destruct (Js.group (m_caps dm) 1) as [day|]; [|contradiction].
  destruct (parseDay day) as [d|] eqn:Ed; [|contradiction].
  destruct (parseTimeSlots (m_full m)) as [|t ts]; [contradiction|].
  intros [<-|[]]. simpl. apply (parseDay_range day d Ed).
Qed.

Definition well_formed_slot (slot : FixedTimeSlot) : Prop :=
  1 <= dayOfWeek slot <= 7 /\ consecutive_ids (timeSlotIds slot).

Lemma parseTimeLine_well_formed (line : jsstring) (slot : FixedTimeSlot) :
  In slot (tl_timeSlots (parseTimeLine line)) -> well_formed_slot slot.
Proof.
  rewrite parseTimeLine_slots. intros Hin.
  apply in_flat_map in Hin. destruct Hin as [m [_ Hin]].
  split; [apply (slot_of_match_day _ _ _ _ Hin)|].
  destruct (slot_of_match_fields _ _ _ _ Hin) as [_ [_ [Ei Hne]]].
  rewrite Ei in *. destruct (parseTimeSlots_shape (m_full m)) as [E|H];
    [contradiction|exact H].
Qed.

(** X10. Every slot the line parser emits has a weekday between 1 and 7 and,
    as period ids, the decimal strings of one or more consecutive numbers in
    ascending order, the first not negative. *)
Theorem parseTimeLine_slots_well_formed :
  forall (line : jsstring) (slot : FixedTimeSlot),
    In slot (tl_timeSlots (parseTimeLine line)) ->
    1 <= dayOfWeek slot <= 7
    /\ exists a n,
         0 <= a
         /\ timeSlotIds slot
            = map (fun k => toString (a + Z.of_nat k)) (seq 0 (S n)).
Proof. exact parseTimeLine_well_formed. Qed.

Lemma parseTimeLine_slots_well_formed_witness :
  1 <= 3 <= 7
  /\ exists a n,
       0 <= a
       /\ [js "5"; js "6"]
          = map (fun k => toString (a + Z.of_nat k)) (seq 0 (S n)).
Proof.
  apply (parseTimeLine_slots_well_formed
           (js "1-6周，星期一第5-6节 星期三第5-6节 (立人楼B411)")
           (mkFixedTimeSlot 3 [js "5"; js "6"] (Some [mkWeekRange 1 6])
              (Some (js "立人楼B411")))).
  vm_compute. right. left. reflexivity.
Defined.

(** *** [parseCourseTime] *)

Lemma split_lines_single (s : jsstring) :
  ~ In 10 s -> split_lines s = [s].
Proof.
  induction s as [|c s IH]; intros H; [reflexivity|].
  assert (Hc : c <> 10) by (intros E; apply H; left; exact E).
  assert (Hs : ~ In 10 s) by (intros E; apply H; right; exact E).
  cbn [split_lines]. rewrite (proj2 (Z.eqb_neq c 10) Hc).
  destruct s as [|d s'].
  - reflexivity.
  - assert (Hd : d <> 10) by (intros E; apply Hs; left; exact E).
    rewrite (proj2 (Z.eqb_neq d 10) Hd), andb_false_r, (IH Hs). reflexivity.
Qed.

Lemma parseCourseTime_slots (text : jsstring) :
  NoDup (map slot_key (parseCourseTime text))
  /\ forall slot, In slot (parseCourseTime text) -> well_formed_slot slot.
Proof.
  unfold parseCourseTime.
  destruct (not_blank text); [|split; [constructor|contradiction]].
  cbv zeta.
  set (all := flat_map (fun line => tl_timeSlots (parseTimeLine line))
                       (filter not_blank (split_lines text))).
  split; [apply deduplicateTimeSlots_keys_distinct|].
  intros slot Hin.
  destruct (deduplicateTimeSlots_deduplicated_len (length all) all (le_n _))
    as [_ [_ Hgrp]].
  destruct (Hgrp slot Hin) as [s [rest [Eg [Ed [Ei _]]]]].
  assert (Hs : In s all).
  { assert (H : In s (DedupFacts.group (slot_key slot) all)) by (rewrite Eg; left; reflexivity).
    unfold DedupFacts.group in H. apply filter_In in H. tauto. }
  unfold all in Hs. apply in_flat_map in Hs. destruct Hs as [line [_ Hs]].
  unfold well_formed_slot. rewrite Ed, Ei. apply (parseTimeLine_well_formed line s Hs).
Qed.

(** X11. [parseCourseTime] returns no slot for an empty or blank text; on a
    text of one line it is the deduplication of the line's slots; whatever
    the text, no two returned slots share a key, and every returned slot has
    a weekday between 1 and 7 and consecutive period ids. *)
Theorem parseCourseTime_well_formed :
  (forall text, trim text = [] -> parseCourseTime text = [])
  /\ (forall line,
        ~ In 10 line -> trim line <> [] ->
        parseCourseTime line = deduplicateTimeSlots (tl_timeSlots (parseTimeLine line)))
  /\ (forall text,
        NoDup (map slot_key (parseCourseTime text))
        /\ forall slot,
             In slot (parseCourseTime text) ->
             1 <= dayOfWeek slot <= 7
             /\ exists a n,
                  0 <= a
                  /\ timeSlotIds slot
                     = map (fun k => toString (a + Z.of_nat k)) (seq 0 (S n))).
Proof.
  split; [|split].
  - intros text H. unfold parseCourseTime, not_blank. rewrite H. reflexivity.
  - intros line Hnl Hne. unfold parseCourseTime, not_blank.
    destruct (trim line) as [|c t] eqn:E; [contradiction|].
    rewrite (split_lines_single line Hnl). cbn [filter].
    unfold not_blank. rewrite E. cbn [flat_map]. rewrite app_nil_r. reflexivity.
  - intros text. destruct (parseCourseTime_slots text) as [Hk Hs].
    split; [exact Hk|]. intros slot Hin. exact (Hs slot Hin).
Qed.

(** *** A whole line, end to end *)

(** The fourteen weekday tokens the line pattern accepts, with their numbers. *)
Definition day_table : list (jsstring * Z) := firstn 14 DAY_MAP.

Lemma day_table_token (day : jsstring) (d : Z) :
  In (day, d) day_table -> In day day_tokens /\ parseDay day = Some d.
Proof.
  unfold day_table, DAY_MAP. cbn [firstn]. intros H.
  repeat (destruct H as [H|H];
          [inversion H; subst; split; [vm_compute; tauto|vm_compute; reflexivity]|]).
  contradiction.
Qed.

Lemma re_day_token_capture (day rest : jsstring) :
  In day day_tokens ->
  leads (run re_day (day ++ rest, [])) (rest, [(1%nat, day)]).
Proof.
  intros Hin.
  assert (H : leads (run (Alt (Cat (Lit (ch "星"))
                                (Cat (Lit (ch "期")) (Cls (one_of "一二三四五六日"))))
                           (Cat (Lit (ch "周")) (Cls (one_of "一二三四五六日"))))
                         (day ++ rest, []))
                    (rest, [])).
  { unfold day_tokens in Hin.
    repeat (destruct Hin as [<-|Hin]); try contradiction; numeral_of_token;
      first
        [ apply leads_alt_l;
          eapply leads_cat; [apply leads_lit|];
          eapply leads_cat; [apply leads_lit|];
          apply leads_cls; reflexivity
        | apply leads_alt_r;
          [ apply run_cat_miss, run_lit_miss; vm_compute; discriminate
          | eapply leads_cat; [apply leads_lit|];
            apply leads_cls; reflexivity ] ]. }
  pose proof (leads_grp 1 _ _ _ _ _ H) as G.
  rewrite firstn_consumed in G. exact G.
Qed.

Lemma starts_with_prefix (p s : jsstring) : starts_with p (p ++ s) = true.
Proof.
  induction p as [|c p IH]; simpl; [destruct s; reflexivity|].
  rewrite Z.eqb_refl, IH. reflexivity.
Qed.

Lemma replace_str_prefix (p s : jsstring) : replace_str p (p ++ s) = s.
Proof.
  assert (E : forall t, replace_str p t
                        = if starts_with p t then skipn (length p) t
                          else match t with
                               | [] => []
                               | c :: t' => c :: replace_str p t'
                               end).
  { intros t. destruct t; reflexivity. }
  rewrite E, starts_with_prefix, skipn_app, skipn_all, Nat.sub_diag. reflexivity.
Qed.

Lemma trim_trailing_space (c e : Z) (mid : jsstring) :
  isSpace c = false -> isSpace e = false ->
  trim (c :: mid ++ [e] ++ [32]) = c :: mid ++ [e].
Proof.
  intros Hc He. unfold trim. cbn [dropWhile]. rewrite Hc.
  change (c :: mid ++ [e] ++ [32]) with ((c :: mid) ++ [e] ++ [32]).
  rewrite !rev_app_distr. cbn [rev app dropWhile].
  change (isSpace 32) with true. cbn iota. rewrite He.
  change (e :: rev mid ++ [c]) with ([e] ++ rev (c :: mid)).
  rewrite rev_app_distr, rev_involutive. reflexivity.
Qed.

Section FullLine.

Variables (A B P Q day loc : jsstring) (d : Z).
Hypothesis A_num : A <> [] /\ all_digits A.
Hypothesis B_num : B <> [] /\ all_digits B.
Hypothesis P_num : P <> [] /\ all_digits P.
Hypothesis Q_num : Q <> [] /\ all_digits Q.
Hypothesis day_ok : In (day, d) day_table.
Hypothesis loc_ok : loc <> [] /\ ~ In (ch ")") loc.

(** [a-b周], [<day>第p-q节] and [(loc)]. *)
Definition week_text : jsstring := A ++ ch "-" :: B ++ [ch "周"].
Definition time_text : jsstring := day ++ period_range_text P Q.
Definition loc_text : jsstring := ch "(" :: loc ++ [ch ")"].

(** [a-b周，<day>第p-q节 (loc)] *)
Definition full_line : jsstring :=
  week_text ++ ch "，" :: time_text ++ 32 :: loc_text.

Lemma day_is_token : In day day_tokens.
Proof. apply (day_table_token day d day_ok). Qed.

Lemma time_text_shape :
  exists c mid, time_text = c :: mid ++ [ch "节"] /\ isSpace c = false.
Proof.
  destruct (day_token_shape day day_is_token) as [c [t [Ed [Hs _]]]].
  exists c, (t ++ ch "第" :: P ++ ch "-" :: Q). split; [|exact Hs].
  unfold time_text, period_range_text. rewrite Ed. cbn [app]. f_equal.
  repeat (rewrite <- app_assoc; cbn [app]). reflexivity.
Qed.

Lemma no_open_time_text : ~ In (ch "(") time_text.
Proof.
  unfold time_text. intros H. apply in_app_iff in H. destruct H as [H|H].
  - destruct (day_token_shape day day_is_token) as [_ [_ [_ [_ [_ [Hp _]]]]]].
    exact (Hp H).
  - revert H. apply range_text_no_unit; try apply P_num; try apply Q_num;
      try reflexivity; vm_compute; discriminate.
Qed.

Lemma no_open_week_text : ~ In (ch "(") week_text.
Proof.
  unfold week_text. intros H. apply in_app_iff in H. destruct H as [H|[H|H]].
  - apply (digits_no_unit (ch "(") A eq_refl (proj2 A_num) H).
  - vm_compute in H. discriminate.
  - apply in_app_iff in H. destruct H as [H|[H|[]]].
    + apply (digits_no_unit (ch "(") B eq_refl (proj2 B_num) H).
    + vm_compute in H. discriminate.
Qed.

Lemma full_line_trim : trim full_line = full_line.
Proof.
  destruct A_num as [Na Da]. destruct A as [|c A'] eqn:EA; [contradiction|].
  inversion Da as [|? ? Hc _]; subst.
  assert (E : full_line
              = c :: (A' ++ ch "-" :: B ++ ch "周" :: ch "，" :: time_text
                         ++ 32 :: ch "(" :: loc) ++ [ch ")"]).
  { unfold full_line, week_text, loc_text. rewrite EA. cbn [app]. f_equal.
    repeat (rewrite <- app_assoc; cbn [app]). reflexivity. }
  rewrite E. apply trim_id; [|reflexivity].
  unfold isDigit in Hc. apply andb_true_iff in Hc. rewrite !Z.leb_le in Hc.
  unfold isSpace.
  repeat (rewrite (proj2 (Z.eqb_neq c _)) by lia).
  rewrite (proj2 (Z.leb_gt 8192 c)) by lia. reflexivity.
Qed.

Lemma full_line_week_match :
  search_anchored re_weekPrefix full_line
  = Some (mkMatch 0 (week_text ++ [ch "，"]) [(1%nat, week_text)]
            (time_text ++ 32 :: loc_text)).
Proof.
  destruct A_num as [Na Da]. destruct B_num as [Nb Db].
  set (rest := time_text ++ 32 :: loc_text).
  assert (E1 : full_line = A ++ ch "-" :: B ++ ch "周" :: ch "，" :: rest).
  { unfold full_line, week_text. repeat (rewrite <- app_assoc; cbn [app]).
    reflexivity. }
  assert (Hin : leads (run (Cat (Plus isDigit)
                             (Cat (Opt (Cat (Lit (ch "-")) (Plus isDigit)))
                                  (Opt (Lit (ch "周")))))
                           (full_line, []))
                      (ch "，" :: rest, [])).
  { rewrite E1.
    eapply leads_cat;
      [apply (leads_plus isDigit A (ch "-" :: B ++ ch "周" :: ch "，" :: rest) []
                Na Da eq_refl)|].
    eapply leads_cat.
    - apply leads_opt_in. eapply leads_cat; [apply leads_lit|].
      apply (leads_plus isDigit B (ch "周" :: ch "，" :: rest) [] Nb Db eq_refl).
    - apply leads_opt_in, leads_lit. }
  pose proof (leads_grp 1 _ _ _ _ _ Hin) as G.
  assert (E2 : full_line = week_text ++ ch "，" :: rest) by reflexivity.
  rewrite E2 in G at 2 3. rewrite firstn_consumed in G.
  assert (L : leads (run re_weekPrefix (full_line, [])) (rest, [(1%nat, week_text)])).
  { unfold re_weekPrefix. eapply leads_cat; [exact G|].
    apply leads_cls. reflexivity. }
  unfold search_anchored. rewrite (match_here_leads _ _ _ _ _ L).
  do 2 f_equal.
  replace full_line with ((week_text ++ [ch "，"]) ++ rest).
  - apply firstn_consumed.
  - rewrite E2, <- app_assoc. reflexivity.
Qed.

Lemma full_line_location : parseLocation full_line = Some loc.
Proof.
  destruct loc_ok as [Hne Hno].
  assert (E : full_line
              = (week_text ++ ch "，" :: time_text ++ [32])
                ++ ch "(" :: loc ++ ch ")" :: []).
  { unfold full_line, loc_text. repeat (rewrite <- app_assoc; cbn [app]).
    reflexivity. }
  unfold parseLocation. rewrite E, search_location_first; [reflexivity| | |]; try assumption.
  intros H. apply in_app_iff in H. destruct H as [H|[H|H]].
  - exact (no_open_week_text H).
  - vm_compute in H. discriminate.
  - apply in_app_iff in H. destruct H as [H|[H|[]]].
    + exact (no_open_time_text H).
    + vm_compute in H. discriminate.
Qed.

Lemma full_line_time_content : time_content full_line = time_text.
Proof.
  destruct loc_ok as [Hne Hno].
  unfold time_content. cbv zeta.
  rewrite full_line_trim, full_line_week_match, full_line_location.
  cbn [m_full]. destruct loc as [|l0 loc'] eqn:El; [contradiction|].
  cbn [truthy_str]. rewrite <- El in *.
  replace full_line
    with ((week_text ++ [ch "，"]) ++ time_text ++ 32 :: loc_text).
  - rewrite replace_str_prefix. unfold replace_re.
    replace (time_text ++ 32 :: loc_text)
      with ((time_text ++ [32]) ++ ch "(" :: loc ++ ch ")" :: []).
    + rewrite search_location_first; try assumption.
      * cbn [m_index m_after]. rewrite firstn_app, Nat.sub_diag, firstn_all.
        cbn [firstn]. rewrite !app_nil_r.
        destruct time_text_shape as [c [mid [E Hc]]]. rewrite E.
        change ((c :: mid ++ [ch "节"]) ++ [32]) with (c :: (mid ++ [ch "节"]) ++ [32]).
        rewrite <- app_assoc. apply trim_trailing_space; [exact Hc|reflexivity].
      * intros H. apply in_app_iff in H. destruct H as [H|[H|[]]].
        -- exact (no_open_time_text H).
        -- vm_compute in H. discriminate.
    + unfold loc_text. repeat (rewrite <- app_assoc; cbn [app]). reflexivity.
  - unfold full_line. repeat (rewrite <- app_assoc; cbn [app]). reflexivity.
Qed.

Lemma full_line_weeks :
  tl_weeks (parseTimeLine full_line)
  = Some (mkWeekRange (digits_value A) (digits_value B)).
Proof.
  unfold parseTimeLine. cbv zeta. cbn [tl_weeks].
  rewrite full_line_trim, full_line_week_match. cbn [m_caps Js.group Nat.eqb].
  unfold week_text.
  apply (parseWeekRange_pair [] A B [ch "周"] (Forall_nil _)
           (proj1 A_num) (proj2 A_num) (proj1 B_num) (proj2 B_num) eq_refl).
Qed.

Lemma full_line_tl_location : tl_location (parseTimeLine full_line) = Some loc.
Proof.
  unfold parseTimeLine. cbv zeta. cbn [tl_location].
  rewrite full_line_trim. apply full_line_location.
Qed.

Lemma full_line_slot (w : option WeekRange) (l : option jsstring) (caps : captures) :
  digits_value P <= digits_value Q ->
  slot_of_match w l (mkMatch 0 time_text caps [])
  = [mkFixedTimeSlot d (map toString (for_range (digits_value P) (digits_value Q)))
       (match w with Some r => Some [r] | None => None end) l].
Proof.
  intros Hpq. unfold slot_of_match. cbn [m_full].
  destruct (day_table_token day d day_ok) as [Htok Hday].
  unfold search. unfold time_text at 1.
  rewrite (search_from_here _ _ _ _
             (match_here_leads _ 0 _ _ _ (re_day_token_capture day _ Htok))).
  cbn [m_caps Js.group Nat.eqb]. rewrite Hday.
  destruct (day_token_shape day Htok) as [_ [_ [_ [_ [_ [_ Hq]]]]]].
  unfold time_text.
  rewrite (parseTimeSlots_range_digits day P Q Hq
             (proj1 P_num) (proj2 P_num) (proj1 Q_num) (proj2 Q_num)).
  unfold for_range.
  destruct (Z.to_nat (digits_value Q - digits_value P + 1)) as [|n] eqn:En; [lia|].
  reflexivity.
Qed.

Lemma full_line_parse :
  digits_value P <= digits_value Q ->
  parseTimeLine full_line
  = mkTimeLine (Some (mkWeekRange (digits_value A) (digits_value B)))
      [mkFixedTimeSlot d (map toString (for_range (digits_value P) (digits_value Q)))
         (Some [mkWeekRange (digits_value A) (digits_value B)]) (Some loc)]
      (Some loc).
Proof.
  intros Hpq.
  assert (E : parseTimeLine full_line
              = mkTimeLine (tl_weeks (parseTimeLine full_line))
                  (tl_timeSlots (parseTimeLine full_line))
                  (tl_location (parseTimeLine full_line))) by reflexivity.
  rewrite E, parseTimeLine_slots, full_line_weeks, full_line_tl_location,
    full_line_time_content.
  destruct (exec_all_day_range day P Q day_is_token
              (proj1 P_num) (proj2 P_num) (proj1 Q_num) (proj2 Q_num)) as [caps Hx].
  fold time_text in Hx. rewrite Hx. cbn [flat_map]. rewrite app_nil_r.
  rewrite (full_line_slot _ _ caps Hpq). reflexivity.
Qed.

End FullLine.

(** X12. For all week numbers [a], [b] and period numbers [p <= q] below
    [2^53], each of the fourteen weekday tokens and every non-empty location
    without [)], the line [a-b周，<day>第p-q节 (loc)] parses to the week range
    {a,b} (also when [a > b]: the bounds are not compared), the location and
    exactly one slot: the token's weekday, the period ids [p..q], weeks
    [{a,b}] and the location. *)
Theorem parseTimeLine_full_line :
  forall (a b p q d : Z) (day loc : jsstring),
    0 <= a < 2 ^ 53 -> 0 <= b < 2 ^ 53 -> 0 <= p -> p <= q -> q < 2 ^ 53 ->
    In (day, d) day_table -> loc <> [] -> ~ In (ch ")") loc ->
    parseTimeLine
      (toString a ++ js "-" ++ toString b ++ js "周，" ++ day ++ js "第"
       ++ toString p ++ js "-" ++ toString q ++ js "节 (" ++ loc ++ js ")")
    = mkTimeLine (Some (mkWeekRange a b))
        [mkFixedTimeSlot d
           (map (fun k => toString (p + Z.of_nat k)) (seq 0 (Z.to_nat (q - p + 1))))
           (Some [mkWeekRange a b]) (Some loc)]
        (Some loc).
Proof.
  intros a b p q d day loc [Ha _] [Hb _] Hp Hpq _ Hday Hne Hno.
  destruct (digits_spec a Ha) as [Na [Da Va]].
  destruct (digits_spec b Hb) as [Nb [Db Vb]].
  destruct (digits_spec p Hp) as [Np [Dp Vp]].
  destruct (digits_spec q ltac:(lia)) as [Nq [Dq Vq]].
  rewrite !toString_nonneg by lia.
  pose proof (full_line_parse (digits a) (digits b) (digits p) (digits q) day loc d
                (conj Na Da) (conj Nb Db) (conj Np Dp) (conj Nq Dq) Hday
                (conj Hne Hno)) as E.
  rewrite Va, Vb, Vp, Vq in E. specialize (E Hpq).
  rewrite for_range_seq, map_map in E. rewrite <- E. f_equal.
  unfold full_line, week_text, time_text, loc_text, period_range_text.
  change (js "周，") with [ch "周"; ch "，"]. change (js "节 (") with [ch "节"; 32; ch "("].
  change (js "-") with [ch "-"]. change (js "第") with [ch "第"].
  change (js ")") with [ch ")"].
  repeat (rewrite <- app_assoc; cbn [app]). reflexivity.
Qed.

Lemma parseTimeLine_full_line_witness :
  parseTimeLine
    (toString 6 ++ js "-" ++ toString 1 ++ js "周，" ++ js "周三" ++ js "第"
     ++ toString 3 ++ js "-" ++ toString 4 ++ js "节 (" ++ js "B1" ++ js ")")
  = mkTimeLine (Some (mkWeekRange 6 1))
      [mkFixedTimeSlot 3
         (map (fun k => toString (3 + Z.of_nat k)) (seq 0 (Z.to_nat (4 - 3 + 1))))
         (Some [mkWeekRange 6 1]) (Some (js "B1"))]
      (Some (js "B1")).
Proof.
  apply parseTimeLine_full_line; try lia.
  - vm_compute. do 9 right. left. reflexivity.
  - discriminate.
  - vm_compute. intuition discriminate.
Defined.

End ParserMore.

(* ================================================================== *)
(** ** More about schedule generation *)
(* ================================================================== *)

Module ScheduleMore.
Import Js JsFacts Types CourseTimeParser SchedulingAlgorithm WeekFacts ScheduleFacts.

(** A schedule item without its synthesized [id]. *)
Definition core (it : ScheduleItem)
  : jsstring * jsstring * jsstring * Z * option (list WeekRange) * option jsstring :=
  (i_courseId it, i_teacherId it, i_timeSlotId it, i_dayOfWeek it, i_weeks it,
   i_location it).

Definition core_weeks
    (c : jsstring * jsstring * jsstring * Z * option (list WeekRange) * option jsstring)
  : option (list WeekRange) := snd (fst c).

(** The week test of [scheduleForCourse], as a test on the weeks of a slot. *)
Definition weeks_selected (o : SchedulingOptions) (ws : option (list WeekRange))
  : bool :=
  slot_selected o (mkFixedTimeSlot 0 [] ws None).

Lemma slot_selected_weeks (o : SchedulingOptions) (fs : FixedTimeSlot) :
  slot_selected o fs = weeks_selected o (weeks fs).
Proof. reflexivity. Qed.

Lemma core_make_item (c : Course) (fs : FixedTimeSlot) (o o' : SchedulingOptions)
    (t : jsstring) :
  core (make_item c fs o t) = core (make_item c fs o' t).
Proof. reflexivity. Qed.

Lemma filter_const {A : Type} (b : bool) (f : A -> bool) (l : list A) :
  (forall x, In x l -> f x = b) -> filter f l = if b then l else [].
Proof.
  induction l as [|x l IH]; intros H; simpl; [destruct b; reflexivity|].
  rewrite (H x (or_introl eq_refl)), IH by (intros y Hy; apply H; right; exact Hy).
  destruct b; reflexivity.
Qed.

Lemma filter_flat_map {A B : Type} (f : B -> bool) (g : A -> list B) (l : list A) :
  filter f (flat_map g l) = flat_map (fun x => filter f (g x)) l.
Proof.
  induction l as [|x l IH]; simpl; [reflexivity|].
  rewrite filter_app, IH. reflexivity.
Qed.

Lemma map_flat_map {A B C : Type} (f : B -> C) (g : A -> list B) (l : list A) :
  map f (flat_map g l) = flat_map (fun x => map f (g x)) l.
Proof.
  induction l as [|x l IH]; simpl; [reflexivity|].
  rewrite map_app, IH. reflexivity.
Qed.

Lemma items_of_slot_view (o : SchedulingOptions) (c : Course) (fs : FixedTimeSlot) :
  map core (items_of_slot o c fs)
  = filter (fun x => weeks_selected o (core_weeks x))
           (map core (items_of_slot no_options c fs)).
Proof.
  rewrite items_of_slot_no_options. unfold items_of_slot.
  rewrite (filter_const (weeks_selected o (weeks fs))).
  - rewrite slot_selected_weeks. destruct (weeks_selected o (weeks fs)); [|reflexivity].
    rewrite !map_map. apply map_ext. intros t. apply core_make_item.
  - intros x Hx. apply in_map_iff in Hx. destruct Hx as [it [<- Hit]].
    apply in_map_iff in Hit. destruct Hit as [t [<- _]]. reflexivity.
Qed.

Lemma schedule_view (o : SchedulingOptions) (courses : list Course)
    (timeSlots : list TimeSlot) :
  map core (map obj (schedule (generateSchedule courses timeSlots o)))
  = filter (fun x => weeks_selected o (core_weeks x))
      (map core (map obj (schedule (generateSchedule courses timeSlots no_options)))).
Proof.
  rewrite !generateSchedule_items. unfold items_of_course.
  rewrite !map_flat_map, filter_flat_map. apply flat_map_ext. intros c.
  rewrite !map_flat_map, filter_flat_map. apply flat_map_ext. intros fs.
  apply items_of_slot_view.
Qed.

(** X13. The schedule generated for a target week [w] (not 0) is the
    full-term schedule restricted to the items active in week [w]: up to the
    synthesized ids, it lists the same items in the same order, keeping
    exactly those whose weeks contain [w] or are absent or empty. *)
Theorem generateSchedule_selected_week_view :
  forall (courses : list Course) (timeSlots : list TimeSlot) (w : Z)
         (range : option (Z * Z)),
    w <> 0 ->
    map core (map obj (schedule (generateSchedule courses timeSlots
                                   (mkOptions (Some w) range))))
    = filter (fun x => isWeekInRanges w (core_weeks x))
        (map core (map obj (schedule (generateSchedule courses timeSlots no_options)))).
Proof.
  intros courses timeSlots w range Hw. rewrite schedule_view.
  apply filter_ext. intros x. unfold weeks_selected, slot_selected. simpl.
  rewrite (proj2 (Z.eqb_neq w 0) Hw). reflexivity.
Qed.

Lemma generateSchedule_selected_week_view_witness :
  map core (map obj (schedule (generateSchedule clash_courses [] (mkOptions (Some 9) None))))
  = filter (fun x => isWeekInRanges 9 (core_weeks x))
      (map core (map obj (schedule (generateSchedule clash_courses [] no_options)))).
Proof. apply generateSchedule_selected_week_view. lia. Defined.

Definition range_valid (r : WeekRange) : Prop := start r <= end_ r.

Lemma hasWeekRangeOverlap_common_week (ws : list WeekRange) (s e : Z) :
  s <= e -> Forall range_valid ws ->
  (hasWeekRangeOverlap ws (s, e) = true
   <-> exists w, s <= w <= e /\ exists r, In r ws /\ start r <= w <= end_ r).
Proof.
  intros Hse Hv. unfold hasWeekRangeOverlap. rewrite existsb_exists. simpl. split.
  - intros [r [Hr H]]. apply andb_true_iff in H. rewrite !Z.leb_le in H.
    rewrite Forall_forall in Hv. specialize (Hv r Hr). unfold range_valid in Hv.
    exists (Z.max (start r) s). split; [lia|]. exists r. split; [exact Hr|lia].
  - intros [w [Hw [r [Hr H]]]]. exists r. split; [exact Hr|].
    apply andb_true_iff. rewrite !Z.leb_le. lia.
Qed.

(** X14. With a target week range [(s, e)] and no target week, the schedule is
    the full-term schedule restricted to the items without weeks and the items
    one of whose ranges meets [(s, e)]; for [s <= e] and ranges with
    [start <= end] a range list meets [(s, e)] exactly when one of its weeks
    lies in [s..e].  An item whose week list is empty is dropped by every
    target range, although a target week keeps it as whole-term. *)
Theorem generateSchedule_week_range_view :
  (forall courses timeSlots s e,
      map core (map obj (schedule (generateSchedule courses timeSlots
                                     (mkOptions None (Some (s, e))))))
      = filter (fun x => match core_weeks x with
                         | Some ws => hasWeekRangeOverlap ws (s, e)
                         | None => true
                         end)
          (map core (map obj (schedule (generateSchedule courses timeSlots no_options)))))
  /\ (forall ws s e,
        s <= e -> Forall range_valid ws ->
        (hasWeekRangeOverlap ws (s, e) = true
         <-> exists w, s <= w <= e /\ exists r, In r ws /\ start r <= w <= end_ r))
  /\ (forall s e, hasWeekRangeOverlap [] (s, e) = false)
  /\ (forall w, isWeekInRanges w (Some []) = true).
Proof.
  split; [|split; [exact hasWeekRangeOverlap_common_week|split; reflexivity]].
  intros courses timeSlots s e. rewrite schedule_view.
  apply filter_ext. intros x. reflexivity.
Qed.

(** X15. A target week of 0 counts as no target week: the result of
    [generateSchedule] is the one without [selectedWeek], with the same
    [weekRange]. *)
Theorem generateSchedule_week_zero :
  forall (courses : list Course) (timeSlots : list TimeSlot)
         (range : option (Z * Z)),
    generateSchedule courses timeSlots (mkOptions (Some 0) range)
    = generateSchedule courses timeSlots (mkOptions None range).
Proof. intros courses timeSlots range. reflexivity. Qed.

End ScheduleMore.

(* ================================================================== *)
(** ** More about conflict detection *)
(* ================================================================== *)

Module ConflictMore.
Import Js JsFacts Types CourseTimeParser SchedulingAlgorithm WeekFacts.
Import ScheduleFacts ConflictFacts ScheduleMore.

(** The items [detectTimeConflicts] lets into the groups. *)
Definition kept (sw : option Z) (item : ItemRef) : bool :=
  negb (truthy_num sw
        && match sw, i_weeks (obj item) with
           | Some w, Some ws => negb (isWeekInRanges w (Some ws))
           | _, _ => false
           end).

Definition active (w : Z) (item : ItemRef) : bool :=
  isWeekInRanges w (i_weeks (obj item)).

Lemma kept_none (item : ItemRef) : kept None item = true.
Proof. reflexivity. Qed.

Lemma kept_week (w : Z) (item : ItemRef) :
  w <> 0 -> kept (Some w) item = active w item.
Proof.
  intros Hw. unfold kept, active, truthy_num.
  rewrite (proj2 (Z.eqb_neq w 0) Hw). cbn [negb andb].
  destruct (i_weeks (obj item)) as [ws|]; [apply negb_involutive|reflexivity].
Qed.

Lemma group_loop_kept (sw : option Z) (l : list ItemRef) :
  forall m,
    fold_left (group_step sw) l m
    = fold_left (group_step None) (filter (kept sw) l) m.
Proof.
  induction l as [|x l IH]; intros m; [reflexivity|]. cbn [fold_left filter].
  assert (E : group_step sw m x
              = if kept sw x then group_step None m x else m).
  { unfold group_step, kept. cbn [truthy_num andb].
    destruct (truthy_num sw && _); reflexivity. }
  rewrite E. destruct (kept sw x); cbn [fold_left]; apply IH.
Qed.

Lemma group_items_kept (sw : option Z) (sched : list ItemRef) :
  group_items sched sw = group_items (filter (kept sw) sched) None.
Proof. apply group_loop_kept. Qed.

Lemma groups_of (sw : option Z) (sched : list ItemRef) :
  grouped (filter (kept sw) sched) (group_items sched sw).
Proof.
  rewrite group_items_kept.
  apply (group_items_grouped_len (length (filter (kept sw) sched))), le_n.
Qed.

Lemma findWeek_week (w : Z) (items : list ItemRef) :
  w <> 0 -> findWeekConflictingItems items (Some w) = filter (active w) items.
Proof.
  intros Hw. unfold findWeekConflictingItems, truthy_num.
  rewrite (proj2 (Z.eqb_neq w 0) Hw). cbn [negb].
  apply filter_ext. intros x. unfold active.
  destruct (i_weeks (obj x)); reflexivity.
Qed.

Lemma findWeek_no_week (sw : option Z) (items : list ItemRef) :
  truthy_num sw = false ->
  findWeekConflictingItems items sw = conflict_outer items [].
Proof. intros H. unfold findWeekConflictingItems. rewrite H. reflexivity. Qed.

Lemma truthy_num_cases (sw : option Z) :
  truthy_num sw = false \/ exists w, sw = Some w /\ w <> 0.
Proof.
  destruct sw as [w|]; [|left; reflexivity].
  destruct (Z.eq_dec w 0) as [->|H]; [left; reflexivity|].
  right. exists w. tauto.
Qed.

(** *** No object is listed twice *)

Lemma includes_false (l : list ItemRef) (x : ItemRef) :
  includes l x = false -> ~ In (addr x) (map addr l).
Proof.
  unfold includes. intros H Hin. apply in_map_iff in Hin.
  destruct Hin as [y [E Hy]].
  assert (Ht : existsb (fun y => Nat.eqb (addr y) (addr x)) l = true).
  { apply existsb_exists. exists y. split; [exact Hy|]. apply Nat.eqb_eq, E. }
  congruence.
Qed.

Lemma push_absent_distinct (l : list ItemRef) (x : ItemRef) :
  NoDup (map addr l) ->
  NoDup (map addr (if includes l x then l else l ++ [x])).
Proof.
  intros H. destruct (includes l x) eqn:E; [exact H|].
  rewrite map_app. simpl. apply NoDup_app; [exact H|repeat constructor; tauto|].
  intros a Ha [<-|[]]. exact (includes_false l x E Ha).
Qed.

Lemma conflict_inner_distinct (item1 : ItemRef) (rest : list ItemRef) :
  forall hc acc,
    NoDup (map addr acc) ->
    NoDup (map addr (snd (conflict_inner item1 rest hc acc))).
Proof.
  induction rest as [|y rest IH]; intros hc acc H; simpl; [exact H|].
  destruct (hasWeekOverlap (i_weeks (obj item1)) (i_weeks (obj y))).
  - apply IH, push_absent_distinct, H.
  - apply IH, H.
Qed.

Lemma conflict_outer_distinct (items : list ItemRef) :
  forall acc,
    NoDup (map addr acc) -> NoDup (map addr (conflict_outer items acc)).
Proof.
  induction items as [|a rest IH]; intros acc H; simpl; [exact H|].
  pose proof (conflict_inner_distinct a rest false acc H) as Hi.
  destruct (conflict_inner a rest false acc) as [hc acc']. simpl in Hi.
  apply IH. destruct hc; simpl; [|exact Hi].
  destruct (includes acc' a) eqn:E; simpl; [exact Hi|].
  pose proof (push_absent_distinct acc' a Hi) as Hp. rewrite E in Hp. exact Hp.
Qed.

Lemma findWeek_sub (sw : option Z) (items : list ItemRef) :
  NoDup (map addr items) ->
  incl (findWeekConflictingItems items sw) items
  /\ NoDup (map addr (findWeekConflictingItems items sw)).
Proof.
  intros Hnd. destruct (truthy_num_cases sw) as [H|[w [-> Hw]]].
  - rewrite (findWeek_no_week sw items H). split.
    + intros x Hx.
      apply (proj1 (findWeekConflictingItems_partner items x Hnd)) in Hx. tauto.
    + apply conflict_outer_distinct. constructor.
  - rewrite (findWeek_week w items Hw). split.
    + intros x Hx. apply filter_In in Hx. tauto.
    + apply NoDup_addr_filter, Hnd.
Qed.

(** *** What a reported conflict looks like *)

Lemma conflict_origin (timeSlots : list TimeSlot) (sched : list ItemRef)
    (sw : option Z) (c : Conflict) :
  In c (detectTimeConflicts timeSlots sched sw) ->
  exists k g,
    In (k, g) (group_items sched sw)
    /\ c = mkConflict time (conflict_message timeSlots sw k)
             (findWeekConflictingItems g sw)
    /\ (1 <? length (findWeekConflictingItems g sw))%nat = true.
Proof.
  unfold detectTimeConflicts. intros H. apply in_flat_map in H.
  destruct H as [[k g] [Hg Hc]]. exists k, g. split; [exact Hg|].
  unfold conflict_of_group in Hc.
  destruct (1 <? length g)%nat; [|contradiction].
  destruct (1 <? length (findWeekConflictingItems g sw))%nat eqn:E; [|contradiction].
  destruct Hc as [<-|[]]. split; reflexivity.
Qed.

Lemma group_members (sw : option Z) (sched : list ItemRef) (k : jsstring)
    (g : list ItemRef) :
  NoDup (map addr sched) -> In (k, g) (group_items sched sw) ->
  NoDup (map addr g)
  /\ forall x, In x g <-> In x sched /\ kept sw x = true /\ time_key x = k.
Proof.
  intros Hnd Hin. destruct (groups_of sw sched) as [_ [_ Hg]].
  rewrite (Hg k g Hin). split.
  - apply NoDup_addr_filter, NoDup_addr_filter, Hnd.
  - intros x. rewrite !filter_In. unfold same_time. rewrite str_eqb_eq.
    split; [intros [[H1 H2] H3]|intros [H1 [H2 H3]]]; repeat split; auto.
Qed.

Lemma same_key_group (l : list (jsstring * list ItemRef)) (k : jsstring)
    (g1 g2 : list ItemRef) :
  NoDup (map fst l) -> In (k, g1) l -> In (k, g2) l -> g1 = g2.
Proof.
  induction l as [|[k' g'] l IH]; intros Hnd H1 H2; [contradiction|].
  simpl in Hnd. inversion Hnd as [|? ? Hk Hl]; subst.
  destruct H1 as [E1|H1]; destruct H2 as [E2|H2].
  - congruence.
  - inversion E1; subst. exfalso. apply Hk. apply (in_map fst) in H2. exact H2.
  - inversion E2; subst. exfalso. apply Hk. apply (in_map fst) in H1. exact H1.
  - apply IH; assumption.
Qed.

Lemma conflict_members (timeSlots : list TimeSlot) (sched : list ItemRef)
    (sw : option Z) :
  NoDup (map addr sched) ->
  forall c,
    In c (detectTimeConflicts timeSlots sched sw) ->
    exists k g,
      In (k, g) (group_items sched sw)
      /\ c = mkConflict time (conflict_message timeSlots sw k)
               (findWeekConflictingItems g sw)
      /\ (2 <= length (k_items c))%nat
      /\ NoDup (map addr (k_items c))
      /\ forall x, In x (k_items c) ->
                   In x sched /\ kept sw x = true /\ time_key x = k.
Proof.
  intros Hnd c Hin. destruct (conflict_origin _ _ _ _ Hin) as [k [g [Hg [Ec Hlen]]]].
  exists k, g. destruct (group_members sw sched k g Hnd Hg) as [Hgn Hgm].
  destruct (findWeek_sub sw g Hgn) as [Hsub Hdis].
  split; [exact Hg|]. split; [exact Ec|]. subst c. cbn [k_items].
  split; [apply Nat.ltb_lt in Hlen; lia|]. split; [exact Hdis|].
  intros x Hx. apply Hgm, Hsub, Hx.
Qed.

(** X16. Whatever the target week, every conflict reported for a schedule of
    distinct objects is of type [time] and lists at least two items; the
    items are distinct objects of the schedule and share weekday and period;
    with a target week (not 0) they are all active in that week.  No item is
    listed in two conflicts. *)
Theorem detectTimeConflicts_well_formed :
  forall (timeSlots : list TimeSlot) (sched : list ItemRef) (sw : option Z),
    NoDup (map addr sched) ->
    (forall c,
        In c (detectTimeConflicts timeSlots sched sw) ->
        k_type c = time
        /\ (2 <= length (k_items c))%nat
        /\ NoDup (map addr (k_items c))
        /\ (forall x, In x (k_items c) -> In x sched)
        /\ (forall x y,
              In x (k_items c) -> In y (k_items c) ->
              i_dayOfWeek (obj x) = i_dayOfWeek (obj y)
              /\ i_timeSlotId (obj x) = i_timeSlotId (obj y))
        /\ (forall w x,
              sw = Some w -> w <> 0 -> In x (k_items c) ->
              isWeekInRanges w (i_weeks (obj x)) = true))
    /\ (forall c1 c2 x,
          In c1 (detectTimeConflicts timeSlots sched sw) ->
          In c2 (detectTimeConflicts timeSlots sched sw) ->
          In x (k_items c1) -> In x (k_items c2) -> c1 = c2).
Proof.
  intros timeSlots sched sw Hnd.
  pose proof (conflict_members timeSlots sched sw Hnd) as Hc.
  split.
  - intros c Hin. destruct (Hc c Hin) as [k [g [Hg [Ec [Hlen [Hdis Hmem]]]]]].
    split; [rewrite Ec; reflexivity|]. split; [exact Hlen|]. split; [exact Hdis|].
    split; [intros x Hx; apply (Hmem x Hx)|]. split.
    + intros x y Hx Hy. apply time_key_inj.
      destruct (Hmem x Hx) as [_ [_ ->]]. destruct (Hmem y Hy) as [_ [_ ->]].
      reflexivity.
    + intros w x -> Hw Hx. destruct (Hmem x Hx) as [_ [Hk _]].
      rewrite (kept_week w x Hw) in Hk. exact Hk.
  - intros c1 c2 x H1 H2 Hx1 Hx2.
    destruct (Hc c1 H1) as [k1 [g1 [Hg1 [E1 [_ [_ Hm1]]]]]].
    destruct (Hc c2 H2) as [k2 [g2 [Hg2 [E2 [_ [_ Hm2]]]]]].
    destruct (Hm1 x Hx1) as [_ [_ Ek1]]. destruct (Hm2 x Hx2) as [_ [_ Ek2]].
    assert (Ek : k2 = k1) by congruence. rewrite Ek in Hg2, E2.
    destruct (groups_of sw sched) as [Hkeys _].
    rewrite (same_key_group _ k1 g1 g2 Hkeys Hg1 Hg2) in E1. congruence.
Qed.

(** Three objects: two on Monday's period 5 (weeks 1-8 and 6-10), one on
    Tuesday's period 1. *)
Definition sample_items : list ItemRef :=
  [ (0%nat, mkScheduleItem (js "1-1-5-w1-8") (js "1") (js "t1") (js "5") 1
              (Some [mkWeekRange 1 8]) None);
    (1%nat, mkScheduleItem (js "2-1-5-w6-10") (js "2") (js "t2") (js "5") 1
              (Some [mkWeekRange 6 10]) None);
    (2%nat, mkScheduleItem (js "3-2-1-all") (js "3") (js "t1") (js "1") 2
              None None) ].

Lemma detectTimeConflicts_well_formed_witness :
  NoDup (map addr sample_items)
  /\ forall c,
       In c (detectTimeConflicts [] sample_items None) ->
       k_type c = time /\ (2 <= length (k_items c))%nat.
Proof.
  assert (H : NoDup (map addr sample_items)).
  { simpl. repeat constructor; simpl; intuition discriminate. }
  split; [exact H|]. intros c Hc.
  destruct (proj1 (detectTimeConflicts_well_formed [] sample_items None H) c Hc)
    as [H1 [H2 _]].
  split; assumption.
Defined.

(** *** Week lists that share a week *)

(** Every range of the list is well formed and starts at week [m] or later. *)
Definition weeks_from (m : Z) (ws : option (list WeekRange)) : Prop :=
  match ws with
  | Some l => Forall (fun r => m <= start r <= end_ r) l
  | None => True
  end.

Lemma isWeekInRanges_cases (w : Z) (ws : option (list WeekRange)) :
  isWeekInRanges w ws = true
  <-> no_weeks ws = true
      \/ exists l r, ws = Some l /\ In r l /\ start r <= w <= end_ r.
Proof.
  destruct ws as [[|a l]|]; unfold isWeekInRanges, no_weeks.
  - split; auto.
  - rewrite existsb_exists. split.
    + intros [r [Hr H]]. right. exists (a :: l), r.
      apply andb_true_iff in H. rewrite !Z.leb_le in H. tauto.
    + intros [H|[l' [r [E [Hr H]]]]]; [discriminate|].
      inversion E; subst. exists r. split; [exact Hr|].
      apply andb_true_iff. rewrite !Z.leb_le. exact H.
  - split; auto.
Qed.

Lemma common_week_overlap (w : Z) (w1 w2 : option (list WeekRange)) :
  isWeekInRanges w w1 = true -> isWeekInRanges w w2 = true ->
  hasWeekOverlap w1 w2 = true.
Proof.
  intros H1 H2. apply hasWeekOverlap_meet.
  apply (proj1 (isWeekInRanges_cases w w1)) in H1.
  apply (proj1 (isWeekInRanges_cases w w2)) in H2.
  destruct H1 as [H1|[l1 [r1 [E1 [I1 B1]]]]]; [left; exact H1|].
  destruct H2 as [H2|[l2 [r2 [E2 [I2 B2]]]]]; [right; left; exact H2|].
  right. right. exists l1, l2, r1, r2. unfold ranges_meet.
  repeat split; try assumption; lia.
Qed.

Lemma some_week_from (m : Z) (ws : option (list WeekRange)) :
  weeks_from m ws -> exists w, m <= w /\ isWeekInRanges w ws = true.
Proof.
  destruct ws as [[|r l]|]; intros V.
  - exists m. split; [lia|reflexivity].
  - simpl in V. inversion V as [|? ? Hr _]; subst. exists (start r).
    split; [lia|]. apply isWeekInRanges_cases. right. exists (r :: l), r.
    split; [reflexivity|]. split; [left; reflexivity|lia].
  - exists m. split; [lia|reflexivity].
Qed.

Lemma overlap_common_week (m : Z) (w1 w2 : option (list WeekRange)) :
  weeks_from m w1 -> weeks_from m w2 -> hasWeekOverlap w1 w2 = true ->
  exists w, m <= w /\ isWeekInRanges w w1 = true /\ isWeekInRanges w w2 = true.
Proof.
  intros V1 V2 H. apply (proj1 (hasWeekOverlap_meet w1 w2)) in H.
  destruct H as [H|[H|[l1 [l2 [r1 [r2 [E1 [E2 [I1 [I2 [M1 M2]]]]]]]]]]].
  - destruct (some_week_from m w2 V2) as [w [Hm Hw]]. exists w.
    split; [exact Hm|]. split; [|exact Hw]. apply isWeekInRanges_cases. left. exact H.
  - destruct (some_week_from m w1 V1) as [w [Hm Hw]]. exists w.
    split; [exact Hm|]. split; [exact Hw|]. apply isWeekInRanges_cases. left. exact H.
  - subst w1 w2. simpl in V1, V2.
    pose proof (proj1 (Forall_forall _ l1) V1 r1 I1) as B1.
    pose proof (proj1 (Forall_forall _ l2) V2 r2 I2) as B2.
    simpl in B1, B2. exists (Z.max (start r1) (start r2)).
    split; [lia|].
    split; apply isWeekInRanges_cases; right;
      [exists l1, r1|exists l2, r2]; repeat split; try assumption; lia.
Qed.

(** X17. For week lists whose ranges are well formed and start at week [m] or
    later (weeks are numbered from 1 in the data), [hasWeekOverlap] answers
    true exactly when some week from [m] on is active in both lists, an absent
    or empty list counting as the whole term.  A common week gives true
    whatever the ranges look like. *)
Theorem hasWeekOverlap_common_week :
  forall (m : Z) (w1 w2 : option (list WeekRange)),
    weeks_from m w1 -> weeks_from m w2 ->
    (hasWeekOverlap w1 w2 = true
     <-> exists w, m <= w /\ isWeekInRanges w w1 = true /\ isWeekInRanges w w2 = true)
    /\ (forall w v1 v2,
          isWeekInRanges w v1 = true -> isWeekInRanges w v2 = true ->
          hasWeekOverlap v1 v2 = true).
Proof.
  intros m w1 w2 V1 V2. split; [split|].
  - apply overlap_common_week; assumption.
  - intros [w [_ [H1 H2]]]. apply (common_week_overlap w); assumption.
  - intros w v1 v2. apply common_week_overlap.
Qed.

Lemma hasWeekOverlap_common_week_witness :
  hasWeekOverlap (Some [mkWeekRange 1 8]) (Some [mkWeekRange 6 10; mkWeekRange 12 12])
  = true
  <-> exists w,
        1 <= w
        /\ isWeekInRanges w (Some [mkWeekRange 1 8]) = true
        /\ isWeekInRanges w (Some [mkWeekRange 6 10; mkWeekRange 12 12]) = true.
Proof.
  apply (hasWeekOverlap_common_week 1); simpl; repeat constructor; simpl; lia.
Defined.

(** *** When a schedule has a conflict *)

Lemma kept_no_week (sw : option Z) (x : ItemRef) :
  truthy_num sw = false -> kept sw x = true.
Proof. intros H. unfold kept. rewrite H. reflexivity. Qed.

Lemma flat_map_nil_inv {A B : Type} (f : A -> list B) (l : list A) (a : A) :
  flat_map f l = [] -> In a l -> f a = [].
Proof.
  induction l as [|x l IH]; intros H Ha; [contradiction|]. simpl in H.
  apply app_eq_nil in H. destruct H as [H1 H2].
  destruct Ha as [<-|Ha]; [exact H1|apply IH; assumption].
Qed.

Lemma group_of_item (sw : option Z) (sched : list ItemRef) (x : ItemRef) :
  In x sched -> kept sw x = true ->
  exists g, In (time_key x, g) (group_items sched sw).
Proof.
  intros Hx Hk. destruct (groups_of sw sched) as [_ [Hdom _]].
  assert (H : In (time_key x) (map fst (group_items sched sw))).
  { apply Hdom. apply in_map. apply filter_In. split; assumption. }
  apply in_map_iff in H. destruct H as [[k g] [Ek Hin]]. simpl in Ek. subst k.
  exists g. exact Hin.
Qed.

Lemma detect_full_clash (timeSlots : list TimeSlot) (sched : list ItemRef)
    (sw : option Z) :
  NoDup (map addr sched) -> truthy_num sw = false ->
  (detectTimeConflicts timeSlots sched sw <> []
   <-> exists x y,
         In x sched /\ In y sched /\ addr x <> addr y
         /\ time_key x = time_key y /\ overlap x y = true).
Proof.
  intros Hnd Hsw. split.
  - intros Hne.
    destruct (detectTimeConflicts timeSlots sched sw) as [|c l] eqn:E; [congruence|].
    assert (Hin : In c (detectTimeConflicts timeSlots sched sw))
      by (rewrite E; left; reflexivity).
    destruct (conflict_origin _ _ _ _ Hin) as [k [g [Hg [_ Hlen]]]].
    destruct (group_members sw sched k g Hnd Hg) as [Hgn Hgm].
    rewrite (findWeek_no_week sw g Hsw) in Hlen.
    change (conflict_outer g []) with (findWeekConflictingItems g None) in Hlen.
    destruct (findWeekConflictingItems g None) as [|x R] eqn:ER;
      [simpl in Hlen; discriminate|].
    assert (Hx : In x (findWeekConflictingItems g None))
      by (rewrite ER; left; reflexivity).
    apply (proj1 (findWeekConflictingItems_partner g x Hgn)) in Hx.
    destruct Hx as [Hxg [y [Hyg [Hyx Ho]]]].
    destruct (proj1 (Hgm x) Hxg) as [Hxs [_ Kx]].
    destruct (proj1 (Hgm y) Hyg) as [Hys [_ Ky]].
    exists x, y. split; [exact Hxs|]. split; [exact Hys|].
    split; [intros E'; apply Hyx; symmetry; exact E'|].
    split; [congruence|exact Ho].
  - intros [x [y [Hx [Hy [Hne [Hk Ho]]]]]] E.
    destruct (group_of_item sw sched x Hx (kept_no_week sw x Hsw)) as [g Hin].
    destruct (group_members sw sched _ g Hnd Hin) as [Hgn Hgm].
    assert (Hxg : In x g).
    { apply Hgm. split; [exact Hx|]. split; [apply kept_no_week, Hsw|reflexivity]. }
    assert (Hyg : In y g).
    { apply Hgm. split; [exact Hy|]. split; [apply kept_no_week, Hsw|].
      symmetry. exact Hk. }
    assert (Hxy : x <> y) by (intros ->; apply Hne; reflexivity).
    pose proof (flat_map_nil_inv _ _ _ E Hin) as Hc.
    unfold conflict_of_group in Hc. cbv zeta in Hc.
    rewrite (two_members g x y Hxg Hyg Hxy) in Hc.
    rewrite (findWeek_no_week sw g Hsw) in Hc.
    change (conflict_outer g []) with (findWeekConflictingItems g None) in Hc.
    rewrite (two_members (findWeekConflictingItems g None) x y) in Hc;
      [discriminate| | |exact Hxy].
    + apply findWeekConflictingItems_partner; [exact Hgn|].
      split; [exact Hxg|]. exists y. split; [exact Hyg|].
      split; [|exact Ho]. intros E'. apply Hne. symmetry. exact E'.
    + apply findWeekConflictingItems_partner; [exact Hgn|].
      split; [exact Hyg|]. exists x. split; [exact Hxg|].
      split; [exact Hne|]. rewrite overlap_sym. exact Ho.
Qed.

Lemma detect_week_clash (timeSlots : list TimeSlot) (sched : list ItemRef)
    (w : Z) :
  NoDup (map addr sched) -> w <> 0 ->
  (detectTimeConflicts timeSlots sched (Some w) <> []
   <-> exists x y,
         In x sched /\ In y sched /\ addr x <> addr y
         /\ time_key x = time_key y /\ active w x = true /\ active w y = true).
Proof.
  intros Hnd Hw. split.
  - intros Hne.
    destruct (detectTimeConflicts timeSlots sched (Some w)) as [|c l] eqn:E;
      [congruence|].
    assert (Hin : In c (detectTimeConflicts timeSlots sched (Some w)))
      by (rewrite E; left; reflexivity).
    destruct (conflict_origin _ _ _ _ Hin) as [k [g [Hg [_ Hlen]]]].
    destruct (group_members (Some w) sched k g Hnd Hg) as [Hgn Hgm].
    rewrite (findWeek_week w g Hw) in Hlen.
    pose proof (NoDup_addr_filter (active w) g Hgn) as Hfn.
    destruct (filter (active w) g) as [|x [|y R]] eqn:ER;
      [simpl in Hlen; discriminate|simpl in Hlen; discriminate|].
    assert (Hx : In x (filter (active w) g)) by (rewrite ER; left; reflexivity).
    assert (Hy : In y (filter (active w) g))
      by (rewrite ER; right; left; reflexivity).
    apply filter_In in Hx. apply filter_In in Hy.
    destruct Hx as [Hxg Ax]. destruct Hy as [Hyg Ay].
    destruct (proj1 (Hgm x) Hxg) as [Hxs [_ Kx]].
    destruct (proj1 (Hgm y) Hyg) as [Hys [_ Ky]].
    exists x, y. split; [exact Hxs|]. split; [exact Hys|]. split.
    + simpl in Hfn. inversion Hfn as [|? ? Hnx _]; subst.
      intros E'. apply Hnx. left. symmetry. exact E'.
    + split; [congruence|]. split; assumption.
  - intros [x [y [Hx [Hy [Hne [Hk [Ax Ay]]]]]]] E.
    assert (Kx : kept (Some w) x = true) by (rewrite kept_week; assumption).
    assert (Ky : kept (Some w) y = true) by (rewrite kept_week; assumption).
    destruct (group_of_item (Some w) sched x Hx Kx) as [g Hin].
    destruct (group_members (Some w) sched _ g Hnd Hin) as [Hgn Hgm].
    assert (Hxg : In x g) by (apply Hgm; auto).
    assert (Hyg : In y g) by (apply Hgm; auto).
    assert (Hxy : x <> y) by (intros ->; apply Hne; reflexivity).
    pose proof (flat_map_nil_inv _ _ _ E Hin) as Hc.
    unfold conflict_of_group in Hc. cbv zeta in Hc.
    rewrite (two_members g x y Hxg Hyg Hxy) in Hc.
    rewrite (findWeek_week w g Hw) in Hc.
    rewrite (two_members (filter (active w) g) x y) in Hc;
      [discriminate| | |exact Hxy]; apply filter_In; split; assumption.
Qed.

Lemma success_no_conflicts (courses : list Course) (timeSlots : list TimeSlot)
    (o : SchedulingOptions) :
  success (generateSchedule courses timeSlots o) = true
  <-> detectTimeConflicts (sort_by_order timeSlots)
        (schedule (generateSchedule courses timeSlots o)) (selectedWeek o) = [].
Proof.
  unfold generateSchedule, detectConflicts. simpl. rewrite Nat.eqb_eq.
  split; [apply length_zero_iff_nil|intros ->; reflexivity].
Qed.

Lemma schedule_distinct (courses : list Course) (timeSlots : list TimeSlot)
    (o : SchedulingOptions) :
  NoDup (map addr (schedule (generateSchedule courses timeSlots o))).
Proof. rewrite generateSchedule_fresh. apply seq_NoDup. Qed.

Lemma not_nil_dec {A : Type} (l : list A) : l = [] \/ l <> [].
Proof. destruct l; [left; reflexivity|right; discriminate]. Qed.

Lemma item_origin (courses : list Course) (timeSlots : list TimeSlot)
    (o : SchedulingOptions) (x : ItemRef) :
  In x (schedule (generateSchedule courses timeSlots o)) ->
  exists c fs t,
    In c courses /\ In fs (valid_slots c) /\ slot_selected o fs = true
    /\ obj x = make_item c fs o t.
Proof.
  intros Hx. apply (in_map obj) in Hx. rewrite generateSchedule_items in Hx.
  apply in_flat_map in Hx. destruct Hx as [c [Hc Hx]].
  unfold items_of_course in Hx. apply in_flat_map in Hx.
  destruct Hx as [fs [Hfs Hx]]. unfold items_of_slot in Hx.
  destruct (slot_selected o fs) eqn:Es; [|contradiction].
  apply in_map_iff in Hx. destruct Hx as [t [Et _]].
  exists c, fs, t. repeat split; try assumption. symmetry. exact Et.
Qed.

(** X18. Without a target week, [generateSchedule] reports success exactly
    when no two distinct items of the schedule share weekday and period with
    overlapping week lists; this holds with or without a target week range. *)
Theorem generateSchedule_success_full_term :
  forall (courses : list Course) (timeSlots : list TimeSlot)
         (range : option (Z * Z)),
    let r := generateSchedule courses timeSlots (mkOptions None range) in
    success r = true
    <-> forall x y,
          In x (schedule r) -> In y (schedule r) -> addr x <> addr y ->
          i_dayOfWeek (obj x) = i_dayOfWeek (obj y) ->
          i_timeSlotId (obj x) = i_timeSlotId (obj y) ->
          hasWeekOverlap (i_weeks (obj x)) (i_weeks (obj y)) = false.
Proof.
  intros courses timeSlots range r. unfold r. rewrite success_no_conflicts.
  pose proof (schedule_distinct courses timeSlots (mkOptions None range)) as Hnd.
  pose proof (detect_full_clash (sort_by_order timeSlots) _ None Hnd eq_refl) as Hc.
  cbn [selectedWeek]. split.
  - intros E x y Hx Hy Hne Hd Hp.
    destruct (hasWeekOverlap (i_weeks (obj x)) (i_weeks (obj y))) eqn:Ho;
      [|reflexivity].
    exfalso. apply (proj2 Hc); [|exact E]. exists x, y.
    repeat split; try assumption. apply time_key_inj. split; assumption.
  - intros H. destruct (not_nil_dec (detectTimeConflicts (sort_by_order timeSlots)
        (schedule (generateSchedule courses timeSlots (mkOptions None range))) None))
      as [E|E]; [exact E|].
    apply (proj1 Hc) in E. destruct E as [x [y [Hx [Hy [Hne [Hk Ho]]]]]].
    apply time_key_inj in Hk. destruct Hk as [Hd Hp].
    unfold overlap in Ho. rewrite (H x y Hx Hy Hne Hd Hp) in Ho. discriminate.
Qed.

Lemma week_items_active (courses : list Course) (timeSlots : list TimeSlot)
    (w : Z) (range : option (Z * Z)) (x : ItemRef) :
  w <> 0 ->
  In x (schedule (generateSchedule courses timeSlots (mkOptions (Some w) range))) ->
  active w x = true.
Proof.
  intros Hw Hx. destruct (item_origin _ _ _ _ Hx) as [c [fs [t [_ [_ [Hs E]]]]]].
  unfold active. rewrite E. cbn [make_item i_weeks].
  unfold slot_selected in Hs. cbn [selectedWeek truthy_num] in Hs.
  rewrite (proj2 (Z.eqb_neq w 0) Hw) in Hs. exact Hs.
Qed.

(** X19. With a target week [w] (not 0) every item of the generated schedule
    is active in week [w], and [generateSchedule] reports success exactly when
    no two distinct items of the schedule share weekday and period. *)
Theorem generateSchedule_success_selected_week :
  forall (courses : list Course) (timeSlots : list TimeSlot) (w : Z)
         (range : option (Z * Z)),
    w <> 0 ->
    let r := generateSchedule courses timeSlots (mkOptions (Some w) range) in
    (forall x, In x (schedule r) -> isWeekInRanges w (i_weeks (obj x)) = true)
    /\ (success r = true
        <-> forall x y,
              In x (schedule r) -> In y (schedule r) -> addr x <> addr y ->
              i_dayOfWeek (obj x) = i_dayOfWeek (obj y) ->
              i_timeSlotId (obj x) <> i_timeSlotId (obj y)).
Proof.
  intros courses timeSlots w range Hw r. unfold r.
  split; [intros x Hx; apply (week_items_active courses timeSlots w range x Hw Hx)|].
  rewrite success_no_conflicts.
  pose proof (schedule_distinct courses timeSlots (mkOptions (Some w) range)) as Hnd.
  pose proof (detect_week_clash (sort_by_order timeSlots) _ w Hnd Hw) as Hc.
  cbn [selectedWeek]. split.
  - intros E x y Hx Hy Hne Hd Hp. apply (proj2 Hc); [|exact E]. exists x, y.
    split; [exact Hx|]. split; [exact Hy|]. split; [exact Hne|].
    split; [apply time_key_inj; split; assumption|].
    split; apply (week_items_active courses timeSlots w range); assumption.
  - intros H. destruct (not_nil_dec (detectTimeConflicts (sort_by_order timeSlots)
        (schedule (generateSchedule courses timeSlots (mkOptions (Some w) range)))
        (Some w))) as [E|E]; [exact E|].
    apply (proj1 Hc) in E. destruct E as [x [y [Hx [Hy [Hne [Hk _]]]]]].
    apply time_key_inj in Hk. destruct Hk as [Hd Hp].
    exfalso. exact (H x y Hx Hy Hne Hd Hp).
Qed.

(** Three courses: two on Monday's period 5 in disjoint weeks (1-8 and 9-16),
    one on Tuesday's period 1 for the whole term. *)
Definition week_courses : list Course :=
  [ mkCourse (js "1") (js "t1")
      (Some [Some (mkFixedTimeSlot 1 [js "5"] (Some [mkWeekRange 1 8]) None)]) None;
    mkCourse (js "2") (js "t2")
      (Some [Some (mkFixedTimeSlot 1 [js "5"] (Some [mkWeekRange 9 16]) None)]) None;
    mkCourse (js "3") (js "t1")
      (Some [Some (mkFixedTimeSlot 2 [js "1"] None None)]) None ].

Lemma generateSchedule_success_selected_week_witness :
  3 <> 0
  /\ forall x,
       In x (schedule (generateSchedule week_courses [] (mkOptions (Some 3) None))) ->
       isWeekInRanges 3 (i_weeks (obj x)) = true.
Proof.
  assert (H : 3 <> 0) by lia. split; [exact H|].
  apply (generateSchedule_success_selected_week week_courses [] 3 None H).
Defined.

(** *** One schedule seen through another *)

Lemma in_pair_split {A : Type} (l : list A) (x y : A) :
  In x l -> In y l -> x <> y ->
  exists l1 l2 l3,
    l = l1 ++ x :: l2 ++ y :: l3 \/ l = l1 ++ y :: l2 ++ x :: l3.
Proof.
  intros Hx Hy Hne. apply in_split in Hx. destruct Hx as [l1 [l2 ->]].
  apply in_app_or in Hy. destruct Hy as [Hy|[Hy|Hy]]; [|congruence|].
  - apply in_split in Hy. destruct Hy as [a [b ->]]. exists a, b, l2. right.
    rewrite <- app_assoc. reflexivity.
  - apply in_split in Hy. destruct Hy as [a [b ->]]. exists l1, a, b. left.
    reflexivity.
Qed.

Lemma split_pair_distinct (l l1 l2 l3 : list ItemRef) (x y : ItemRef) :
  NoDup (map addr l) -> l = l1 ++ x :: l2 ++ y :: l3 ->
  In x l /\ In y l /\ addr x <> addr y.
Proof.
  intros Hnd ->. split; [apply in_elt|].
  split; [apply in_or_app; right; right; apply in_elt|].
  rewrite map_app in Hnd. simpl in Hnd. apply NoDup_remove_2 in Hnd.
  intros E. apply Hnd. apply in_or_app. right. rewrite map_app.
  apply in_or_app. right. left. symmetry. exact E.
Qed.

Lemma map_pair_split {A B : Type} (f : A -> B) (l : list A) (m1 m2 m3 : list B)
    (a b : B) :
  map f l = m1 ++ a :: m2 ++ b :: m3 ->
  exists l1 x l2 y l3, l = l1 ++ x :: l2 ++ y :: l3 /\ f x = a /\ f y = b.
Proof.
  intros H. apply map_eq_app in H. destruct H as [l1 [r [-> [_ H]]]].
  apply map_eq_cons in H. destruct H as [x [r' [-> [Hx H]]]].
  apply map_eq_app in H. destruct H as [l2 [r'' [-> [_ H]]]].
  apply map_eq_cons in H. destruct H as [y [l3 [-> [Hy _]]]].
  exists l1, x, l2, y, l3. repeat split; assumption.
Qed.

Lemma filter_elt_inv {A : Type} (g : A -> bool) (L : list A) :
  forall m a rest,
    filter g L = m ++ a :: rest ->
    exists l1 l2, L = l1 ++ a :: l2 /\ filter g l2 = rest.
Proof.
  induction L as [|h t IH]; intros m a rest H; simpl in H.
  - destruct m; discriminate.
  - destruct (g h).
    + destruct m as [|h' m]; simpl in H.
      * inversion H; subst. exists [], t. split; reflexivity.
      * injection H as E1 E2. subst h'.
        destruct (IH m a rest E2) as [l1 [l2 [-> Hf]]].
        exists (h :: l1), l2. split; [reflexivity|exact Hf].
    + destruct (IH m a rest H) as [l1 [l2 [-> Hf]]].
      exists (h :: l1), l2. split; [reflexivity|exact Hf].
Qed.

Lemma filter_pair_inv {A : Type} (g : A -> bool) (L m1 m2 m3 : list A) (a b : A) :
  filter g L = m1 ++ a :: m2 ++ b :: m3 ->
  exists l1 l2 l3, L = l1 ++ a :: l2 ++ b :: l3.
Proof.
  intros H. apply filter_elt_inv in H. destruct H as [l1 [r [-> H]]].
  apply filter_elt_inv in H. destruct H as [l2 [l3 [-> _]]].
  exists l1, l2, l3. reflexivity.
Qed.

Lemma filter_pair {A : Type} (g : A -> bool) (l1 l2 l3 : list A) (a b : A) :
  g a = true -> g b = true ->
  filter g (l1 ++ a :: l2 ++ b :: l3)
  = filter g l1 ++ a :: filter g l2 ++ b :: filter g l3.
Proof.
  intros Ha Hb. rewrite filter_app. simpl. rewrite Ha, filter_app. simpl.
  rewrite Hb. reflexivity.
Qed.

Lemma map_filter_comm {A B : Type} (p : A -> B) (g : B -> bool) (l : list A) :
  map p (filter (fun c => g (p c)) l) = filter g (map p l).
Proof.
  induction l as [|x l IH]; simpl; [reflexivity|].
  destruct (g (p x)); simpl; rewrite IH; reflexivity.
Qed.

Section View.

Context {P : Type} (f : ItemRef -> P) (g : P -> bool).
Variables la lb : list ItemRef.
Hypothesis la_distinct : NoDup (map addr la).
Hypothesis lb_distinct : NoDup (map addr lb).
Hypothesis view : map f la = filter g (map f lb).

Lemma view_up_ordered (l1 l2 l3 : list ItemRef) (x y : ItemRef) :
  la = l1 ++ x :: l2 ++ y :: l3 ->
  exists x' y',
    In x' lb /\ In y' lb /\ addr x' <> addr y' /\ f x' = f x /\ f y' = f y.
Proof.
  intros E. pose proof view as H. rewrite E in H.
  rewrite map_app in H. simpl in H. rewrite map_app in H. simpl in H.
  symmetry in H. apply filter_pair_inv in H. destruct H as [m1 [m2 [m3 H]]].
  apply map_pair_split in H. destruct H as [k1 [x' [k2 [y' [k3 [El [Fx Fy]]]]]]].
  destruct (split_pair_distinct lb k1 k2 k3 x' y' lb_distinct El) as [Hx [Hy Hne]].
  exists x', y'. repeat split; assumption.
Qed.

Lemma view_up (x y : ItemRef) :
  In x la -> In y la -> addr x <> addr y ->
  exists x' y',
    In x' lb /\ In y' lb /\ addr x' <> addr y' /\ f x' = f x /\ f y' = f y.
Proof.
  intros Hx Hy Hne.
  assert (Hxy : x <> y) by (intros ->; apply Hne; reflexivity).
  destruct (in_pair_split la x y Hx Hy Hxy) as [l1 [l2 [l3 [E|E]]]].
  - exact (view_up_ordered l1 l2 l3 x y E).
  - destruct (view_up_ordered l1 l2 l3 y x E) as [y' [x' [H1 [H2 [H3 [H4 H5]]]]]].
    exists x', y'. repeat split; try assumption.
    intros E'. apply H3. symmetry. exact E'.
Qed.

Lemma view_down_ordered (l1 l2 l3 : list ItemRef) (x y : ItemRef) :
  lb = l1 ++ x :: l2 ++ y :: l3 -> g (f x) = true -> g (f y) = true ->
  exists x' y',
    In x' la /\ In y' la /\ addr x' <> addr y' /\ f x' = f x /\ f y' = f y.
Proof.
  intros E Gx Gy. pose proof view as H. rewrite E in H.
  rewrite map_app in H. simpl in H. rewrite map_app in H. simpl in H.
  rewrite (filter_pair g _ _ _ _ _ Gx Gy) in H.
  apply map_pair_split in H. destruct H as [k1 [x' [k2 [y' [k3 [El [Fx Fy]]]]]]].
  destruct (split_pair_distinct la k1 k2 k3 x' y' la_distinct El) as [Hx [Hy Hne]].
  exists x', y'. repeat split; assumption.
Qed.

Lemma view_down (x y : ItemRef) :
  In x lb -> In y lb -> addr x <> addr y -> g (f x) = true -> g (f y) = true ->
  exists x' y',
    In x' la /\ In y' la /\ addr x' <> addr y' /\ f x' = f x /\ f y' = f y.
Proof.
  intros Hx Hy Hne Gx Gy.
  assert (Hxy : x <> y) by (intros ->; apply Hne; reflexivity).
  destruct (in_pair_split lb x y Hx Hy Hxy) as [l1 [l2 [l3 [E|E]]]].
  - exact (view_down_ordered l1 l2 l3 x y E Gx Gy).
  - destruct (view_down_ordered l1 l2 l3 y x E Gy Gx)
      as [y' [x' [H1 [H2 [H3 [H4 H5]]]]]].
    exists x', y'. repeat split; try assumption.
    intros E'. apply H3. symmetry. exact E'.
Qed.

End View.

(** Where and when an item takes place. *)
Definition place (x : ItemRef) : Z * jsstring * option (list WeekRange) :=
  (i_dayOfWeek (obj x), i_timeSlotId (obj x), i_weeks (obj x)).

Definition place_of_core
    (c : jsstring * jsstring * jsstring * Z * option (list WeekRange) * option jsstring)
  : Z * jsstring * option (list WeekRange) :=
  (snd (fst (fst c)), snd (fst (fst (fst c))), snd (fst c)).

Lemma schedule_places (o : SchedulingOptions) (courses : list Course)
    (timeSlots : list TimeSlot) :
  map place (schedule (generateSchedule courses timeSlots o))
  = filter (fun p => weeks_selected o (snd p))
      (map place (schedule (generateSchedule courses timeSlots no_options))).
Proof.
  assert (E : forall l : list ItemRef,
             map place l = map place_of_core (map core (map obj l))).
  { intros l. rewrite !map_map. reflexivity. }
  rewrite !E, schedule_view.
  apply (map_filter_comm place_of_core (fun p => weeks_selected o (snd p))).
Qed.

Lemma place_eq (x y : ItemRef) :
  place x = place y ->
  i_dayOfWeek (obj x) = i_dayOfWeek (obj y)
  /\ i_timeSlotId (obj x) = i_timeSlotId (obj y)
  /\ i_weeks (obj x) = i_weeks (obj y).
Proof. unfold place. intros E. inversion E. repeat split; assumption. Qed.

Lemma place_key (x y x' y' : ItemRef) :
  place x' = place x -> place y' = place y ->
  time_key x = time_key y -> time_key x' = time_key y'.
Proof.
  intros Ex Ey Hk. apply place_eq in Ex. apply place_eq in Ey.
  apply time_key_inj in Hk. apply time_key_inj.
  destruct Ex as [D1 [T1 _]]. destruct Ey as [D2 [T2 _]]. destruct Hk as [D T].
  split; congruence.
Qed.

Lemma selected_overlap (o : SchedulingOptions) (w1 w2 : option (list WeekRange)) :
  truthy_num (selectedWeek o) = true ->
  weeks_selected o w1 = true -> weeks_selected o w2 = true ->
  hasWeekOverlap w1 w2 = true.
Proof.
  unfold weeks_selected, slot_selected. intros Ht. rewrite Ht. cbn [weeks].
  destruct (selectedWeek o) as [w|]; [|discriminate].
  apply common_week_overlap.
Qed.

Lemma narrowed_clash (o : SchedulingOptions) (courses : list Course)
    (timeSlots : list TimeSlot) :
  detectTimeConflicts (sort_by_order timeSlots)
    (schedule (generateSchedule courses timeSlots o)) (selectedWeek o) <> [] ->
  detectTimeConflicts (sort_by_order timeSlots)
    (schedule (generateSchedule courses timeSlots no_options)) None <> [].
Proof.
  intros H.
  pose proof (schedule_distinct courses timeSlots o) as Hno.
  pose proof (schedule_distinct courses timeSlots no_options) as Hnf.
  pose proof (schedule_places o courses timeSlots) as Hv.
  apply (detect_full_clash (sort_by_order timeSlots) _ None Hnf eq_refl).
  assert (Hpair : exists x y,
             In x (schedule (generateSchedule courses timeSlots o))
             /\ In y (schedule (generateSchedule courses timeSlots o))
             /\ addr x <> addr y /\ time_key x = time_key y /\ overlap x y = true).
  { destruct (truthy_num_cases (selectedWeek o)) as [Ht|[w [Ew Hw]]].
    - apply (detect_full_clash (sort_by_order timeSlots) _ _ Hno Ht). exact H.
    - rewrite Ew in H.
      apply (detect_week_clash (sort_by_order timeSlots) _ w Hno Hw) in H.
      destruct H as [x [y [Hx [Hy [Hne [Hk [Ax Ay]]]]]]].
      exists x, y. repeat split; try assumption.
      apply (common_week_overlap w); assumption. }
  destruct Hpair as [x [y [Hx [Hy [Hne [Hk Ho]]]]]].
  destruct (view_up place _ _ _ Hnf Hv x y Hx Hy Hne)
    as [x' [y' [Hx' [Hy' [Hne' [Ex Ey]]]]]].
  exists x', y'. split; [exact Hx'|]. split; [exact Hy'|]. split; [exact Hne'|].
  split; [apply (place_key x y); assumption|].
  apply place_eq in Ex. apply place_eq in Ey.
  destruct Ex as [_ [_ Wx]]. destruct Ey as [_ [_ Wy]].
  unfold overlap in *. rewrite Wx, Wy. exact Ho.
Qed.

(** X20. Narrowing the view never introduces a conflict: when the schedule of
    the whole term is generated successfully, so is the schedule for every
    target week and every target week range. *)
Theorem generateSchedule_success_narrowed :
  forall (courses : list Course) (timeSlots : list TimeSlot)
         (o : SchedulingOptions),
    success (generateSchedule courses timeSlots no_options) = true ->
    success (generateSchedule courses timeSlots o) = true.
Proof.
  intros courses timeSlots o H. apply success_no_conflicts.
  apply (proj1 (success_no_conflicts _ _ _)) in H. cbn [selectedWeek no_options] in H.
  destruct (not_nil_dec (detectTimeConflicts (sort_by_order timeSlots)
      (schedule (generateSchedule courses timeSlots o)) (selectedWeek o)))
    as [E|E]; [exact E|].
  exfalso. exact (narrowed_clash o courses timeSlots E H).
Qed.

Lemma generateSchedule_success_narrowed_witness :
  success (generateSchedule week_courses [] (mkOptions None (Some (5, 12)))) = true.
Proof.
  apply generateSchedule_success_narrowed. vm_compute. reflexivity.
Defined.

(** The week ranges of every valid fixed time slot are well formed and start
    at week 1 or later. *)
Definition weeks_numbered (courses : list Course) : Prop :=
  forall c fs, In c courses -> In fs (valid_slots c) -> weeks_from 1 (weeks fs).

Lemma full_items_weeks (courses : list Course) (timeSlots : list TimeSlot)
    (x : ItemRef) :
  weeks_numbered courses ->
  In x (schedule (generateSchedule courses timeSlots no_options)) ->
  weeks_from 1 (i_weeks (obj x)).
Proof.
  intros V Hx. destruct (item_origin _ _ _ _ Hx) as [c [fs [t [Hc [Hfs [_ E]]]]]].
  rewrite E. cbn [make_item i_weeks]. apply (V c fs Hc Hfs).
Qed.

(** X21. When every week range of the course data is well formed and starts
    at week 1 or later, the schedule of the whole term is generated
    successfully exactly when the schedule of every single week from 1 on
    is. *)
Theorem generateSchedule_success_every_week :
  forall (courses : list Course) (timeSlots : list TimeSlot),
    weeks_numbered courses ->
    (success (generateSchedule courses timeSlots no_options) = true
     <-> forall w,
           1 <= w ->
           success (generateSchedule courses timeSlots (mkOptions (Some w) None))
           = true).
Proof.
  intros courses timeSlots V. split.
  - intros H w _. apply success_no_conflicts.
    apply (proj1 (success_no_conflicts _ _ _)) in H.
    cbn [selectedWeek no_options] in H.
    destruct (not_nil_dec (detectTimeConflicts (sort_by_order timeSlots)
        (schedule (generateSchedule courses timeSlots (mkOptions (Some w) None)))
        (selectedWeek (mkOptions (Some w) None)))) as [E|E]; [exact E|].
    exfalso. exact (narrowed_clash _ courses timeSlots E H).
  - intros H. apply success_no_conflicts. cbn [selectedWeek no_options].
    destruct (not_nil_dec (detectTimeConflicts (sort_by_order timeSlots)
        (schedule (generateSchedule courses timeSlots no_options)) None))
      as [E|E]; [exact E|].
    exfalso.
    pose proof (schedule_distinct courses timeSlots no_options) as Hnf.
    apply (detect_full_clash (sort_by_order timeSlots) _ None Hnf eq_refl) in E.
    destruct E as [x [y [Hx [Hy [Hne [Hk Ho]]]]]].
    destruct (overlap_common_week 1 _ _
                (full_items_weeks courses timeSlots x V Hx)
                (full_items_weeks courses timeSlots y V Hy) Ho)
      as [w [Hw [Ax Ay]]].
    assert (Hw0 : w <> 0) by lia.
    pose proof (schedule_distinct courses timeSlots (mkOptions (Some w) None)) as Hnw.
    pose proof (schedule_places (mkOptions (Some w) None) courses timeSlots) as Hv.
    assert (Sel : forall z : ItemRef,
               active w z = true ->
               weeks_selected (mkOptions (Some w) None) (snd (place z)) = true).
    { intros z Hz. unfold weeks_selected, slot_selected.
      cbn [selectedWeek truthy_num weeks place snd].
      rewrite (proj2 (Z.eqb_neq w 0) Hw0). exact Hz. }
    destruct (view_down place _ _ _ Hnw Hv x y Hx Hy Hne (Sel x Ax) (Sel y Ay))
      as [x' [y' [Hx' [Hy' [Hne' [Ex Ey]]]]]].
    specialize (H w Hw). apply (proj1 (success_no_conflicts _ _ _)) in H.
    cbn [selectedWeek] in H.
    apply (proj2 (detect_week_clash (sort_by_order timeSlots) _ w Hnw Hw0));
      [|exact H].
    exists x', y'. split; [exact Hx'|]. split; [exact Hy'|]. split; [exact Hne'|].
    split; [apply (place_key x y); assumption|].
    apply place_eq in Ex. apply place_eq in Ey.
    destruct Ex as [_ [_ Wx]]. destruct Ey as [_ [_ Wy]].
    unfold active. rewrite Wx, Wy. split; assumption.
Qed.

Lemma week_courses_numbered : weeks_numbered week_courses.
Proof.
  intros c fs Hc Hfs. simpl in Hc.
  destruct Hc as [<-|[<-|[<-|[]]]]; simpl in Hfs; destruct Hfs as [<-|[]];
    simpl; repeat constructor; simpl; lia.
Qed.

Lemma generateSchedule_success_every_week_witness :
  success (generateSchedule week_courses [] no_options) = true
  <-> forall w,
        1 <= w ->
        success (generateSchedule week_courses [] (mkOptions (Some w) None)) = true.
Proof.
  apply generateSchedule_success_every_week. exact week_courses_numbered.
Defined.

End ConflictMore.

(* ================================================================== *)
(** ** The course record parser *)
(* ================================================================== *)

Module CourseInfoFacts.
Import Js JsFacts RegexFacts RegexMore Types CourseTimeParser ParserFacts.
Import WeekTextFacts DedupFacts ParserMore.

(** *** [trim] *)

Lemma dropWhile_decompose (p : Z -> bool) (s : jsstring) :
  exists pre,
    s = pre ++ dropWhile p s /\ forallb p pre = true /\ stops p (dropWhile p s).
Proof.
  induction s as [|c s [pre [E [Hp Hs]]]]; simpl.
  - exists []. repeat split.
  - destruct (p c) eqn:Ec.
    + exists (c :: pre). simpl. rewrite Ec, Hp.
      split; [f_equal; exact E|]. split; [reflexivity|exact Hs].
    + exists []. simpl. repeat split. exact Ec.
Qed.

Lemma dropWhile_stops (p : Z -> bool) (s : jsstring) :
  stops p s -> dropWhile p s = s.
Proof. destruct s as [|c s]; simpl; [reflexivity|]. intros ->. reflexivity. Qed.

Lemma dropWhile_all (p : Z -> bool) (s : jsstring) :
  forallb p s = true -> dropWhile p s = [].
Proof.
  induction s as [|c s IH]; simpl; [reflexivity|]. intros H.
  apply andb_true_iff in H. destruct H as [H1 H2]. rewrite H1. apply IH, H2.
Qed.

Lemma forallb_rev (p : Z -> bool) (s : jsstring) :
  forallb p (rev s) = true <-> forallb p s = true.
Proof.
  rewrite !forallb_forall. split; intros H x Hx; apply H.
  - apply in_rev in Hx. exact Hx.
  - apply in_rev. exact Hx.
Qed.

(** The first and the last unit of the text are no white space. *)
Definition tight (s : jsstring) : Prop := stops isSpace s /\ stops isSpace (rev s).

Lemma trim_tight (s : jsstring) : tight s -> trim s = s.
Proof.
  intros [H1 H2]. unfold trim.
  rewrite (dropWhile_stops _ s H1), (dropWhile_stops _ _ H2). apply rev_involutive.
Qed.

Lemma trim_decompose (s : jsstring) :
  exists pre post,
    s = pre ++ trim s ++ post
    /\ forallb isSpace pre = true /\ forallb isSpace post = true
    /\ tight (trim s).
Proof.
  unfold trim. destruct (dropWhile_decompose isSpace s) as [pre [E1 [P1 S1]]].
  destruct (dropWhile_decompose isSpace (rev (dropWhile isSpace s)))
    as [q [E2 [P2 S2]]].
  remember (dropWhile isSpace s) as u eqn:Hu.
  remember (dropWhile isSpace (rev u)) as v eqn:Hv.
  assert (Eu : u = rev v ++ rev q).
  { rewrite <- rev_app_distr, <- E2. symmetry. apply rev_involutive. }
  exists pre, (rev q). split; [rewrite <- Eu; exact E1|].
  split; [exact P1|]. split; [apply forallb_rev; exact P2|]. split.
  - destruct (rev v) as [|c r] eqn:Ev; [exact I|].
    rewrite Eu in S1. simpl in S1. exact S1.
  - rewrite rev_involutive. exact S2.
Qed.

Lemma trim_is_tight (s : jsstring) : tight (trim s).
Proof. destruct (trim_decompose s) as [_ [_ [_ [_ [_ H]]]]]. exact H. Qed.

Lemma trim_idem (s : jsstring) : trim (trim s) = trim s.
Proof. apply trim_tight, trim_is_tight. Qed.

Lemma trim_in (s : jsstring) (c : Z) : In c (trim s) -> In c s.
Proof.
  destruct (trim_decompose s) as [pre [post [E _]]]. intros H. rewrite E.
  apply in_or_app. right. apply in_or_app. left. exact H.
Qed.

Lemma trim_nil_iff (s : jsstring) : trim s = [] <-> forallb isSpace s = true.
Proof.
  split.
  - intros E. destruct (trim_decompose s) as [pre [post [Es [P1 [P2 _]]]]].
    rewrite E in Es. rewrite Es. simpl. rewrite forallb_app, P1, P2. reflexivity.
  - intros H. unfold trim. rewrite (dropWhile_all _ s H). reflexivity.
Qed.

Lemma tight_cons (c : Z) (s : jsstring) : tight (c :: s) -> isSpace c = false.
Proof. intros [H _]. exact H. Qed.


(** *** [split] *)

Lemma split_on_plain (sep : Z) (s : jsstring) :
  ~ In sep s -> split_on sep s = [s].
Proof.
  induction s as [|c s IH]; intros H; [reflexivity|]. cbn [split_on].
  assert (Hc : c <> sep) by (intros E; apply H; left; exact E).
  rewrite (proj2 (Z.eqb_neq c sep) Hc), IH; [reflexivity|].
  intros E. apply H. right. exact E.
Qed.

Lemma split_on_app (sep : Z) (a b : jsstring) :
  ~ In sep a -> split_on sep (a ++ sep :: b) = a :: split_on sep b.
Proof.
  induction a as [|c a IH]; intros H.
  - cbn [app split_on]. rewrite Z.eqb_refl. reflexivity.
  - cbn [app split_on].
    assert (Hc : c <> sep) by (intros E; apply H; left; exact E).
    rewrite (proj2 (Z.eqb_neq c sep) Hc), IH; [reflexivity|].
    intros E. apply H. right. exact E.
Qed.


Lemma split_on_pieces (sep : Z) (s : jsstring) :
  Forall (fun f => ~ In sep f) (split_on sep s).
Proof.
  induction s as [|c s IH]; cbn [split_on].
  - constructor; [intros []|constructor].
  - destruct (c =? sep) eqn:E.
    + constructor; [intros []|exact IH].
    + apply Z.eqb_neq in E. destruct (split_on sep s) as [|w ws].
      * constructor; [|constructor]. intros [H|[]]. apply E. exact H.
      * inversion IH as [|? ? H1 H2]; subst. constructor; [|exact H2].
        intros [H|H]; [apply E; exact H|exact (H1 H)].
Qed.

Lemma split_on_length (sep : Z) (s : jsstring) :
  length (split_on sep s) = S (count_occ Z.eq_dec s sep).
Proof.
  induction s as [|c s IH]; [reflexivity|]. cbn [split_on count_occ].
  destruct (Z.eq_dec c sep) as [->|Hc].
  - rewrite Z.eqb_refl. cbn [length]. rewrite IH. reflexivity.
  - rewrite (proj2 (Z.eqb_neq c sep) Hc).
    destruct (split_on sep s) as [|w ws]; [discriminate IH|exact IH].
Qed.

Lemma split_on_head (sep c : Z) (s : jsstring) :
  c <> sep -> exists w ws, split_on sep (c :: s) = (c :: w) :: ws.
Proof.
  intros Hc. cbn [split_on]. rewrite (proj2 (Z.eqb_neq c sep) Hc).
  destruct (split_on sep s) as [|w ws]; [exists [], []|exists w, ws]; reflexivity.
Qed.

Lemma split_where_pieces (p : Z -> bool) (s : jsstring) :
  Forall (fun f => forall c, In c f -> p c = false) (split_where p s).
Proof.
  induction s as [|c s IH]; cbn [split_where].
  - constructor; [intros c []|constructor].
  - destruct (p c) eqn:E.
    + constructor; [intros x []|exact IH].
    + destruct (split_where p s) as [|w ws].
      * constructor; [|constructor]. intros x [<-|[]]. exact E.
      * inversion IH as [|? ? H1 H2]; subst. constructor; [|exact H2].
        intros x [<-|H]; [exact E|exact (H1 x H)].
Qed.

(** *** Lines *)

Lemma split_lines_lf (s : jsstring) : split_lines (10 :: s) = [] :: split_lines s.
Proof. reflexivity. Qed.

Lemma split_lines_crlf (s : jsstring) :
  split_lines (13 :: 10 :: s) = [] :: split_lines s.
Proof. reflexivity. Qed.

Lemma stops_lf (d : Z) (s : jsstring) : d <> 10 -> stops (Z.eqb 10) (d :: s).
Proof. intros H. change ((10 =? d) = false). apply Z.eqb_neq. auto. Qed.

Lemma split_lines_other (c : Z) (s : jsstring) :
  c <> 10 -> (c = 13 -> stops (Z.eqb 10) s) ->
  split_lines (c :: s) = cons_head c (split_lines s).
Proof.
  intros Hc Hs. cbn [split_lines]. rewrite (proj2 (Z.eqb_neq c 10) Hc).
  destruct s as [|d s']; [reflexivity|].
  destruct (Z.eq_dec c 13) as [E|E].
  - specialize (Hs E). change ((10 =? d) = false) in Hs. rewrite Z.eqb_sym in Hs.
    rewrite Hs, andb_false_r. reflexivity.
  - rewrite (proj2 (Z.eqb_neq c 13) E). reflexivity.
Qed.

Lemma cons_head_blank (c : Z) (l : list jsstring) :
  Forall (fun x => forallb isSpace x = true) (cons_head c l)
  <-> isSpace c = true /\ Forall (fun x => forallb isSpace x = true) l.
Proof.
  destruct l as [|w ws]; simpl.
  - split.
    + intros H. inversion H as [|? ? H1 _]; subst. simpl in H1.
      rewrite andb_true_r in H1. split; [exact H1|constructor].
    + intros [H _]. constructor; [simpl; rewrite H; reflexivity|constructor].
  - split.
    + intros H. inversion H as [|? ? H1 H2]; subst. simpl in H1.
      apply andb_true_iff in H1. destruct H1 as [H1 H3].
      split; [exact H1|]. constructor; assumption.
    + intros [H H']. inversion H' as [|? ? H1 H2]; subst.
      constructor; [simpl; rewrite H, H1; reflexivity|exact H2].
Qed.

Lemma split_lines_blank_len (n : nat) :
  forall s,
    (length s <= n)%nat ->
    (Forall (fun x => forallb isSpace x = true) (split_lines s)
     <-> forallb isSpace s = true).
Proof.
  induction n as [|n IH]; intros s Hn.
  - destruct s; [|simpl in Hn; lia]. simpl. split; [reflexivity|].
    intros _. constructor; [reflexivity|constructor].
  - destruct s as [|c s]; [simpl; split; [reflexivity|];
                           intros _; constructor; [reflexivity|constructor]|].
    simpl in Hn. destruct (Z.eq_dec c 10) as [->|Hc].
    + rewrite split_lines_lf. cbn [forallb]. change (isSpace 10) with true.
      cbn [andb]. rewrite <- (IH s) by lia. split.
      * intros H. inversion H; subst. assumption.
      * intros H. constructor; [reflexivity|exact H].
    + destruct (Z.eq_dec c 13) as [->|Hr].
      * destruct s as [|d s'].
        -- simpl. split; [reflexivity|]. intros _.
           constructor; [reflexivity|constructor].
        -- destruct (Z.eq_dec d 10) as [->|Hd].
           ++ rewrite split_lines_crlf. cbn [forallb].
              change (isSpace 13) with true. change (isSpace 10) with true.
              cbn [andb]. simpl in Hn. rewrite <- (IH s') by lia. split.
              ** intros H. inversion H; subst. assumption.
              ** intros H. constructor; [reflexivity|exact H].
           ++ rewrite split_lines_other;
                [|discriminate|intros _; apply stops_lf, Hd].
              rewrite cons_head_blank, (IH (d :: s')) by lia.
              cbn [forallb]. change (isSpace 13) with true. cbn [andb]. tauto.
      * rewrite split_lines_other; [|exact Hc|intros E; contradiction].
        rewrite cons_head_blank, (IH s) by lia. cbn [forallb].
        rewrite andb_true_iff. tauto.
Qed.

Lemma split_lines_blank (s : jsstring) :
  Forall (fun x => forallb isSpace x = true) (split_lines s)
  <-> forallb isSpace s = true.
Proof. apply (split_lines_blank_len (length s)), le_n. Qed.


(** *** The lines of a record *)

Definition blank (s : jsstring) : Prop := forallb isSpace s = true.

Lemma nonempty_false (s : jsstring) : nonempty s = false <-> s = [].
Proof. destruct s; simpl; split; intros H; congruence. Qed.

Lemma nonempty_true (s : jsstring) : nonempty s = true <-> s <> [].
Proof. destruct s; simpl; split; intros H; congruence. Qed.

Lemma nonempty_trim_false (l : jsstring) : nonempty (trim l) = false <-> blank l.
Proof. rewrite nonempty_false. apply trim_nil_iff. Qed.

Lemma record_lines_found (lines : list jsstring) (first : jsstring)
    (others : list jsstring) :
  filter nonempty (map trim lines) = first :: others ->
  exists blanks line rest,
    lines = blanks ++ line :: rest /\ Forall blank blanks /\ trim line = first
    /\ first <> [] /\ others = filter nonempty (map trim rest).
Proof.
  induction lines as [|l lines IH]; simpl; [discriminate|].
  destruct (nonempty (trim l)) eqn:E.
  - intros H. injection H as E1 E2. exists [], l, lines.
    split; [reflexivity|]. split; [constructor|]. split; [exact E1|].
    split; [rewrite <- E1; apply nonempty_true, E|symmetry; exact E2].
  - intros H. destruct (IH H) as [blanks [line [rest [E1 [B [T [N O]]]]]]].
    exists (l :: blanks), line, rest. rewrite E1.
    split; [reflexivity|]. split; [|tauto].
    constructor; [apply nonempty_trim_false, E|exact B].
Qed.

Lemma record_lines_first (blanks : list jsstring) (line : jsstring)
    (rest : list jsstring) :
  Forall blank blanks -> trim line <> [] ->
  filter nonempty (map trim (blanks ++ line :: rest))
  = trim line :: filter nonempty (map trim rest).
Proof.
  induction blanks as [|b blanks IH]; intros B N; simpl.
  - rewrite (proj2 (nonempty_true _) N). reflexivity.
  - inversion B as [|? ? B1 B2]; subst.
    rewrite (proj2 (nonempty_trim_false b) B1). apply IH; assumption.
Qed.

Lemma record_lines_nil (text : jsstring) :
  filter nonempty (map trim (split_lines text)) = [] <-> blank text.
Proof.
  unfold blank. rewrite <- split_lines_blank.
  induction (split_lines text) as [|l lines IH]; simpl.
  - split; constructor.
  - destruct (nonempty (trim l)) eqn:E.
    + split; [discriminate|]. intros H. inversion H as [|? ? H1 H2]; subst.
      apply nonempty_trim_false in H1. congruence.
    + rewrite IH. split.
      * intros H. constructor; [apply nonempty_trim_false, E|exact H].
      * intros H. inversion H; subst. assumption.
Qed.

(** *** The branches of [parseCourseInfo] *)


(** The time lines: what the first line holds past its sixth field, then the
    lines that continue the record. *)
Definition time_lines (fs others : list jsstring) : list jsstring :=
  (if (6 <? length fs)%nat then [join [9] (skipn 6 fs)] else [])
  ++ continuation_lines others.

Section Branches.

Variables (text first : jsstring) (others : list jsstring).
Hypothesis lines_of_text :
  filter nonempty (map trim (split_lines text)) = first :: others.

Let fs : list jsstring := map trim (split_on 9 first).

Lemma parse_too_short :
  (length fs < 4)%nat -> parseCourseInfo text = Thrown (js "课程信息格式不正确，至少需要包含：课程名、学分/教师、学院等信息").
Proof.
  intros H. unfold parseCourseInfo. rewrite lines_of_text. cbv zeta.
  fold fs. rewrite (proj2 (Nat.ltb_lt _ _) H). reflexivity.
Qed.

Lemma parse_credits_first :
  (6 <= length fs)%nat -> test_whole (Plus isDigit) (nth 1 fs []) = true ->
  parseCourseInfo text
  = Returned (mkCourseInfo (nth 0 fs []) (split_teachers (nth 4 fs []))
                (nth 3 fs []) (nth 5 fs [])
                (if truthy_num (parseInt (nth 1 fs []))
                 then parseInt (nth 1 fs []) else None)
                (parseCourseTime (join [10] (time_lines fs others)))).
Proof.
  intros H6 Hn. unfold parseCourseInfo. rewrite lines_of_text. cbv zeta.
  fold fs. rewrite (proj2 (Nat.ltb_ge _ _)) by lia.
  rewrite (proj2 (Nat.leb_le _ _) H6), Hn. unfold time_lines. reflexivity.
Qed.

Lemma parse_teachers_first :
  (6 <= length fs)%nat -> test_whole (Plus isDigit) (nth 1 fs []) = false ->
  parseCourseInfo text
  = Returned (mkCourseInfo (nth 0 fs []) (split_teachers (nth 1 fs []))
                (nth 2 fs []) (nth 3 fs [])
                (match search (Plus isDigit) (nth 5 fs []) with
                 | Some creditsMatch => parseInt (m_full creditsMatch)
                 | None => None
                 end)
                (parseCourseTime (join [10] (time_lines fs others)))).
Proof.
  intros H6 Hn. unfold parseCourseInfo. rewrite lines_of_text. cbv zeta.
  fold fs. rewrite (proj2 (Nat.ltb_ge _ _)) by lia.
  rewrite (proj2 (Nat.leb_le _ _) H6), Hn. unfold time_lines. reflexivity.
Qed.

Lemma parse_short :
  (4 <= length fs < 6)%nat ->
  parseCourseInfo text
  = Returned (mkCourseInfo (nth 0 fs [])
                (if nonempty (nth 1 fs []) then split_teachers (nth 1 fs [])
                 else [js "未知教师"])
                (or_default (nth 2 fs []) (js "未知学院"))
                (or_default (nth 3 fs []) (js "未知校区"))
                None
                (parseCourseTime (join [10] (continuation_lines others)))).
Proof.
  intros H. unfold parseCourseInfo. rewrite lines_of_text. cbv zeta.
  fold fs. rewrite (proj2 (Nat.ltb_ge _ _)) by lia.
  rewrite (proj2 (Nat.leb_gt _ _)) by lia. reflexivity.
Qed.

End Branches.

Lemma fields_length (first : jsstring) :
  length (map trim (split_on 9 first)) = S (count_occ Z.eq_dec first 9).
Proof. rewrite length_map. apply split_on_length. Qed.

Lemma messages_differ : (js "课程信息为空") <> (js "课程信息格式不正确，至少需要包含：课程名、学分/教师、学院等信息").
Proof. vm_compute. discriminate. Qed.

Lemma parse_returned (text first : jsstring) (others : list jsstring) :
  filter nonempty (map trim (split_lines text)) = first :: others ->
  (4 <= length (map trim (split_on 9 first)))%nat ->
  exists info, parseCourseInfo text = Returned info.
Proof.
  intros E H.
  destruct (le_lt_dec 6 (length (map trim (split_on 9 first)))) as [H6|H6].
  - destruct (test_whole (Plus isDigit) (nth 1 (map trim (split_on 9 first)) []))
      eqn:Hn.
    + eexists. apply (parse_credits_first text first others E H6 Hn).
    + eexists. apply (parse_teachers_first text first others E H6 Hn).
  - eexists. apply (parse_short text first others E). lia.
Qed.

(** X22. [parseCourseInfo] throws [课程信息为空] exactly when the text is empty
    or all white space, and the format error exactly when the first line that
    is not blank holds, once trimmed, fewer than three tabs (fewer than four
    fields); these are its only errors, and a record is returned only for a
    text whose first line that is not blank holds at least three tabs. *)
Theorem parseCourseInfo_errors :
  (forall text,
      parseCourseInfo text = Thrown (js "课程信息为空")
      <-> forallb isSpace text = true)
  /\ (forall text message,
        parseCourseInfo text = Thrown message ->
        message = js "课程信息为空"
        \/ message
           = js "课程信息格式不正确，至少需要包含：课程名、学分/教师、学院等信息")
  /\ (forall text,
        parseCourseInfo text
        = Thrown (js "课程信息格式不正确，至少需要包含：课程名、学分/教师、学院等信息")
        <-> exists blanks line rest,
              split_lines text = blanks ++ line :: rest
              /\ Forall (fun b => forallb isSpace b = true) blanks
              /\ trim line <> []
              /\ (count_occ Z.eq_dec (trim line) 9%Z < 3)%nat)
  /\ (forall text info,
        parseCourseInfo text = Returned info ->
        exists blanks line rest,
          split_lines text = blanks ++ line :: rest
          /\ Forall (fun b => forallb isSpace b = true) blanks
          /\ (3 <= count_occ Z.eq_dec (trim line) 9%Z)%nat).
Proof.
  assert (Hcases : forall text,
             (blank text /\ parseCourseInfo text = Thrown (js "课程信息为空"))
             \/ exists first others,
                  filter nonempty (map trim (split_lines text)) = first :: others
                  /\ ((count_occ Z.eq_dec first 9%Z < 3)%nat
                      /\ parseCourseInfo text = Thrown (js "课程信息格式不正确，至少需要包含：课程名、学分/教师、学院等信息")
                      \/ (3 <= count_occ Z.eq_dec first 9%Z)%nat
                         /\ exists info, parseCourseInfo text = Returned info)).
  { intros text.
    destruct (filter nonempty (map trim (split_lines text))) as [|first others] eqn:E.
    - left. split; [apply record_lines_nil, E|].
      unfold parseCourseInfo. rewrite E. reflexivity.
    - right. exists first, others. split; [reflexivity|].
      pose proof (fields_length first) as Hl.
      destruct (le_lt_dec 3 (count_occ Z.eq_dec first 9%Z)) as [H|H].
      + right. split; [exact H|]. apply (parse_returned text first others E). lia.
      + left. split; [exact H|]. apply (parse_too_short text first others E). lia. }
  split; [|split; [|split]].
  - intros text. split.
    + intros H. destruct (Hcases text) as [[B _]|[first [others [_ [[_ E]|[_ [info E]]]]]]].
      * exact B.
      * rewrite E in H. exfalso. apply messages_differ. congruence.
      * rewrite E in H. discriminate.
    + intros H. apply record_lines_nil in H. unfold parseCourseInfo. rewrite H.
      reflexivity.
  - intros text message H.
    destruct (Hcases text) as [[_ E]|[first [others [_ [[_ E]|[_ [info E]]]]]]];
      rewrite E in H; [left|right|discriminate]; congruence.
  - intros text. split.
    + intros H.
      destruct (Hcases text) as [[_ E]|[first [others [El [[Hc _]|[_ [info E]]]]]]].
      * rewrite E in H. exfalso. apply messages_differ. congruence.
      * destruct (record_lines_found _ _ _ El)
          as [blanks [line [rest [E1 [B [T [N _]]]]]]].
        exists blanks, line, rest. rewrite T. repeat split; assumption.
      * rewrite E in H. discriminate.
    + intros [blanks [line [rest [E [B [N Hc]]]]]].
      pose proof (record_lines_first blanks line rest B N) as El.
      rewrite <- E in El.
      apply (parse_too_short text (trim line) _ El). rewrite fields_length. lia.
  - intros text info H.
    destruct (Hcases text) as [[_ E]|[first [others [El [[_ E]|[Hc _]]]]]];
      [rewrite E in H; discriminate|rewrite E in H; discriminate|].
    destruct (record_lines_found _ _ _ El) as [blanks [line [rest [E1 [B [T _]]]]]].
    exists blanks, line, rest. rewrite T. repeat split; assumption.
Qed.

(** *** What a returned record looks like *)

Lemma field_tight (l : list jsstring) (i : nat) : tight (nth i (map trim l) []).
Proof.
  destruct (nth_in_or_default i (map trim l) []) as [H|E].
  - apply in_map_iff in H. destruct H as [x [<- _]]. apply trim_is_tight.
  - rewrite E. split; exact I.
Qed.

Lemma name_nonempty (first : jsstring) :
  first <> [] -> tight first -> nth 0 (map trim (split_on 9 first)) [] <> [].
Proof.
  intros N T. destruct first as [|c t]; [contradiction|].
  pose proof (tight_cons c t T) as Hc.
  assert (H9 : c <> 9) by (intros ->; discriminate Hc).
  destruct (split_on_head 9 c t H9) as [w [ws E]]. rewrite E. cbn [map nth].
  intros En. apply trim_nil_iff in En. cbn [forallb] in En.
  rewrite Hc in En. discriminate.
Qed.

Definition clean_name (t : jsstring) : Prop :=
  t <> [] /\ trim t = t /\ ~ In (ch ",") t /\ ~ In (ch "，") t.

Lemma split_teachers_clean (f t : jsstring) : In t (split_teachers f) -> clean_name t.
Proof.
  unfold split_teachers. intros H. apply filter_In in H. destruct H as [Hin Hne].
  apply in_map_iff in Hin. destruct Hin as [x [<- Hx]].
  pose proof (split_where_pieces (one_of ",，") f) as Hp.
  rewrite Forall_forall in Hp. specialize (Hp x Hx).
  split; [apply nonempty_true, Hne|]. split; [apply trim_idem|].
  split; intros Hc; apply trim_in in Hc; apply Hp in Hc; discriminate Hc.
Qed.

Lemma default_teacher_clean : clean_name (js "未知教师").
Proof.
  split; [discriminate|]. split; [reflexivity|].
  split; intros H; vm_compute in H; intuition discriminate.
Qed.

Lemma or_default_tight (a b : jsstring) : tight a -> tight b -> tight (or_default a b).
Proof. intros Ha Hb. destruct a; simpl; assumption. Qed.

Lemma truthy_parseInt_nonneg (s : jsstring) (n : Z) :
  (if truthy_num (parseInt s) then parseInt s else None) = Some n -> 0 < n.
Proof.
  destruct (parseInt s) as [v|] eqn:E; simpl; [|discriminate].
  destruct (v =? 0) eqn:Ev; simpl; [discriminate|].
  intros H. injection H as <-. apply parseInt_nonneg in E. apply Z.eqb_neq in Ev. lia.
Qed.

Lemma match_parseInt_nonneg (s : jsstring) (n : Z) :
  match search (Plus isDigit) s with
  | Some creditsMatch => parseInt (m_full creditsMatch)
  | None => None
  end = Some n -> 0 <= n.
Proof.
  destruct (search (Plus isDigit) s) as [m|]; [|discriminate].
  apply parseInt_nonneg.
Qed.

(** X23. Whatever the text, a record that [parseCourseInfo] returns has a
    name that is not empty and carries no white space at either end; every
    teacher name is not empty, trimmed and free of commas; department and
    campus are trimmed; credits, when present, are not negative; no two time
    slots share a key, and every slot has a weekday between 1 and 7 and
    consecutive period ids. *)
Theorem parseCourseInfo_result_clean :
  forall (text : jsstring) (info : CourseInfo),
    parseCourseInfo text = Returned info ->
    (ci_name info <> [] /\ trim (ci_name info) = ci_name info)
    /\ (forall t,
          In t (ci_teachers info) ->
          t <> [] /\ trim t = t /\ ~ In (ch ",") t /\ ~ In (ch "，") t)
    /\ trim (ci_department info) = ci_department info
    /\ trim (ci_campus info) = ci_campus info
    /\ (forall n, ci_credits info = Some n -> 0 <= n)
    /\ NoDup (map slot_key (ci_timeSlots info))
    /\ (forall slot,
          In slot (ci_timeSlots info) ->
          1 <= dayOfWeek slot <= 7
          /\ exists a n,
               0 <= a
               /\ timeSlotIds slot
                  = map (fun k => toString (a + Z.of_nat k)) (seq 0 (S n))).
Proof.
  intros text info H.
  destruct (filter nonempty (map trim (split_lines text))) as [|first others] eqn:E.
  { unfold parseCourseInfo in H. rewrite E in H. discriminate. }
  destruct (record_lines_found _ _ _ E) as [_ [line [_ [_ [_ [T [N _]]]]]]].
  assert (Tf : tight first) by (rewrite <- T; apply trim_is_tight).
  pose proof (name_nonempty first N Tf) as Hname.
  pose proof (field_tight (split_on 9 first)) as Hf.
  assert (Hslots : forall t,
             NoDup (map slot_key (parseCourseTime t))
             /\ (forall slot,
                    In slot (parseCourseTime t) ->
                    1 <= dayOfWeek slot <= 7
                    /\ exists a n,
                         0 <= a
                         /\ timeSlotIds slot
                            = map (fun k => toString (a + Z.of_nat k)) (seq 0 (S n)))).
  { intros t. destruct (parseCourseTime_slots t) as [H1 H2].
    split; [exact H1|]. intros slot Hs. exact (H2 slot Hs). }
  destruct (le_lt_dec 4 (length (map trim (split_on 9 first)))) as [H4|H4].
  - destruct (le_lt_dec 6 (length (map trim (split_on 9 first)))) as [H6|H6].
    + destruct (test_whole (Plus isDigit) (nth 1 (map trim (split_on 9 first)) []))
        eqn:Hn.
      * rewrite (parse_credits_first text first others E H6 Hn) in H.
        injection H as <-. cbn [ci_name ci_teachers ci_department ci_campus
                                ci_credits ci_timeSlots].
        split; [split; [exact Hname|apply trim_tight, Hf]|].
        split; [intros t Ht; apply (split_teachers_clean _ t Ht)|].
        split; [apply trim_tight, Hf|]. split; [apply trim_tight, Hf|].
        split; [intros n Hc; apply truthy_parseInt_nonneg in Hc; lia|].
        apply Hslots.
      * rewrite (parse_teachers_first text first others E H6 Hn) in H.
        injection H as <-. cbn [ci_name ci_teachers ci_department ci_campus
                                ci_credits ci_timeSlots].
        split; [split; [exact Hname|apply trim_tight, Hf]|].
        split; [intros t Ht; apply (split_teachers_clean _ t Ht)|].
        split; [apply trim_tight, Hf|]. split; [apply trim_tight, Hf|].
        split; [intros n Hc; apply (match_parseInt_nonneg _ n Hc)|].
        apply Hslots.
    + rewrite (parse_short text first others E (conj H4 H6)) in H.
      injection H as <-. cbn [ci_name ci_teachers ci_department ci_campus
                              ci_credits ci_timeSlots].
      split; [split; [exact Hname|apply trim_tight, Hf]|].
      split.
      { intros t Ht.
        destruct (nonempty (nth 1 (map trim (split_on 9 first)) [])).
        - apply (split_teachers_clean _ t Ht).
        - destruct Ht as [<-|[]]. apply default_teacher_clean. }
      split; [apply trim_tight, or_default_tight; [apply Hf|split; reflexivity]|].
      split; [apply trim_tight, or_default_tight; [apply Hf|split; reflexivity]|].
      split; [intros n Hc; discriminate Hc|].
      apply Hslots.
  - rewrite (parse_too_short text first others E H4) in H. discriminate.
Qed.

(** A record of one line: name, credits, exam, department, teachers, campus,
    time. *)
Definition sample_record : jsstring :=
  join [9] [js "高等数学"; js "4"; js "考试"; js "数学学院"; js "张三，李四";
            js "主校区"; js "1-6周，星期一第5-6节 (立人楼B411)"].

Definition sample_info : CourseInfo :=
  mkCourseInfo (js "高等数学") [js "张三"; js "李四"] (js "数学学院") (js "主校区")
    (Some 4)
    [mkFixedTimeSlot 1 [js "5"; js "6"] (Some [mkWeekRange 1 6]) (Some (js "立人楼B411"))].

Lemma parseCourseInfo_result_clean_witness :
  ci_name sample_info <> [] /\ trim (ci_name sample_info) = ci_name sample_info.
Proof.
  destruct (parseCourseInfo_result_clean sample_record sample_info) as [H _];
    [vm_compute; reflexivity|exact H].
Defined.

(** *** Records written field by field *)




Lemma not_in_b (x : Z) (l : jsstring) : existsb (Z.eqb x) l = false -> ~ In x l.
Proof.
  intros H Hin.
  assert (E : existsb (Z.eqb x) l = true).
  { apply existsb_exists. exists x. split; [exact Hin|apply Z.eqb_refl]. }
  congruence.
Qed.


Lemma tight_no_cr (l : jsstring) : tight l -> stops (Z.eqb 13) (rev l).
Proof.
  intros [_ H]. destruct (rev l) as [|c r]; [exact I|].
  change (isSpace c = false) in H. change ((13 =? c) = false).
  destruct (Z.eqb_spec 13 c) as [<-|_]; [discriminate H|reflexivity].
Qed.

























(** *** The line that ends a record *)

Lemma stops_rev_tail (p : Z -> bool) (c : Z) (a : jsstring) :
  stops p (rev (c :: a)) -> stops p (rev a).
Proof.
  cbn [rev]. destruct (rev a) as [|x r]; [intros _; exact I|]. intros H. exact H.
Qed.

Lemma split_lines_not_nil (s : jsstring) : split_lines s <> [].
Proof.
  destruct s as [|c s]; [discriminate|]. cbn [split_lines].
  destruct (c =? 10); [discriminate|].
  assert (H : forall l, cons_head c l <> []) by (intros [|w ws]; discriminate).
  destruct s as [|d s']; [apply H|].
  destruct ((c =? 13) && (d =? 10)); [discriminate|apply H].
Qed.

Lemma cons_head_app (c : Z) (l1 l2 : list jsstring) :
  l1 <> [] -> cons_head c (l1 ++ l2) = cons_head c l1 ++ l2.
Proof. destruct l1; [contradiction|reflexivity]. Qed.

Lemma split_lines_append_len (n : nat) :
  forall a b,
    (length a <= n)%nat -> stops (Z.eqb 13) (rev a) ->
    split_lines (a ++ 10 :: b) = split_lines a ++ split_lines b.
Proof.
  induction n as [|n IH]; intros a b Hn Hs.
  - destruct a; [reflexivity|simpl in Hn; lia].
  - destruct a as [|c a]; [reflexivity|]. simpl in Hn.
    pose proof (stops_rev_tail _ c a Hs) as Hs'.
    destruct (Z.eq_dec c 10) as [->|Hc].
    + cbn [app]. rewrite !split_lines_lf, IH by (lia || assumption). reflexivity.
    + destruct a as [|d a'].
      * cbn [app].
        rewrite (split_lines_other c (10 :: b));
          [|exact Hc|intros ->; discriminate Hs].
        rewrite (split_lines_other c []); [|exact Hc|intros _; exact I].
        rewrite split_lines_lf. reflexivity.
      * destruct (Z.eq_dec d 10) as [->|Hd].
        -- destruct (Z.eq_dec c 13) as [->|Hr].
           ++ cbn [app]. rewrite !split_lines_crlf.
              rewrite IH; [reflexivity|simpl in Hn; lia|].
              apply (stops_rev_tail _ 10 a' Hs').
           ++ cbn [app]. rewrite !(split_lines_other c); try assumption;
                try (intros E; contradiction).
              change (10 :: a' ++ 10 :: b) with ((10 :: a') ++ 10 :: b).
              rewrite IH by (lia || assumption).
              apply cons_head_app, split_lines_not_nil.
        -- cbn [app]. rewrite !(split_lines_other c); try assumption;
             try (intros _; apply stops_lf, Hd).
           change (d :: a' ++ 10 :: b) with ((d :: a') ++ 10 :: b).
           rewrite IH by (lia || assumption).
           apply cons_head_app, split_lines_not_nil.
Qed.

Lemma record_lines_append (a b : jsstring) :
  tight a ->
  filter nonempty (map trim (split_lines (a ++ 10 :: b)))
  = filter nonempty (map trim (split_lines a))
    ++ filter nonempty (map trim (split_lines b)).
Proof.
  intros T.
  rewrite (split_lines_append_len (length a) a b (le_n _) (tight_no_cr a T)).
  rewrite map_app, filter_app. reflexivity.
Qed.

Lemma continuation_stops (others : list jsstring) (tabbed : jsstring)
    (rest : list jsstring) :
  In 9 tabbed ->
  continuation_lines (others ++ tabbed :: rest)
  = continuation_lines (others ++ [tabbed])
  /\ (re_test re_timeHint tabbed = false ->
      continuation_lines (others ++ [tabbed]) = continuation_lines others).
Proof.
  intros H9.
  assert (Ht : existsb (Z.eqb 9) tabbed = true).
  { apply existsb_exists. exists 9. split; [exact H9|reflexivity]. }
  induction others as [|l others [IH1 IH2]]; cbn [app continuation_lines].
  - rewrite Ht. split; [reflexivity|]. intros ->. reflexivity.
  - destruct (existsb (Z.eqb 9) l); [split; reflexivity|].
    split; [rewrite IH1; reflexivity|]. intros Hh. rewrite (IH2 Hh). reflexivity.
Qed.

Lemma parse_by_lines (t1 t2 first : jsstring) (o1 o2 : list jsstring) :
  filter nonempty (map trim (split_lines t1)) = first :: o1 ->
  filter nonempty (map trim (split_lines t2)) = first :: o2 ->
  continuation_lines o1 = continuation_lines o2 ->
  parseCourseInfo t1 = parseCourseInfo t2.
Proof.
  intros E1 E2 Ec.
  destruct (le_lt_dec 4 (length (map trim (split_on 9 first)))) as [H4|H4].
  - destruct (le_lt_dec 6 (length (map trim (split_on 9 first)))) as [H6|H6].
    + destruct (test_whole (Plus isDigit) (nth 1 (map trim (split_on 9 first)) []))
        eqn:Hn.
      * rewrite (parse_credits_first t1 first o1 E1 H6 Hn),
                (parse_credits_first t2 first o2 E2 H6 Hn).
        unfold time_lines. rewrite Ec. reflexivity.
      * rewrite (parse_teachers_first t1 first o1 E1 H6 Hn),
                (parse_teachers_first t2 first o2 E2 H6 Hn).
        unfold time_lines. rewrite Ec. reflexivity.
    + rewrite (parse_short t1 first o1 E1 (conj H4 H6)),
              (parse_short t2 first o2 E2 (conj H4 H6)), Ec. reflexivity.
  - rewrite (parse_too_short t1 first o1 E1 H4), (parse_too_short t2 first o2 E2 H4).
    reflexivity.
Qed.

(** X27. A following line that holds a tab ends the record: for a text [head]
    that is trimmed and not empty, nothing that comes after such a line is
    read, and the line itself is read (as time text) only when it holds a
    week, weekday or period token. *)
Theorem parseCourseInfo_stops_at_tab :
  forall head tabbed tail : jsstring,
    trim head = head -> head <> [] ->
    trim tabbed = tabbed -> In 9 tabbed -> ~ In 10 tabbed ->
    parseCourseInfo (head ++ 10 :: tabbed ++ 10 :: tail)
    = parseCourseInfo (head ++ 10 :: tabbed)
    /\ (re_test re_timeHint tabbed = false ->
        parseCourseInfo (head ++ 10 :: tabbed) = parseCourseInfo head).
Proof.
  intros head tabbed tail Th Nh Tt H9 H10.
  assert (Hh : tight head) by (rewrite <- Th; apply trim_is_tight).
  assert (Htb : tight tabbed) by (rewrite <- Tt; apply trim_is_tight).
  assert (Ntb : tabbed <> []) by (intros ->; contradiction).
  destruct (filter nonempty (map trim (split_lines head))) as [|first others] eqn:E.
  { apply record_lines_nil, trim_nil_iff in E. rewrite Th in E. contradiction. }
  assert (E1 : filter nonempty (map trim (split_lines tabbed)) = [tabbed]).
  { rewrite (split_lines_single tabbed H10). cbn [map filter]. rewrite Tt.
    rewrite (proj2 (nonempty_true _) Ntb). reflexivity. }
  assert (E2 : filter nonempty (map trim (split_lines (head ++ 10 :: tabbed)))
               = first :: others ++ [tabbed]).
  { rewrite (record_lines_append head tabbed Hh), E, E1. reflexivity. }
  assert (E3 : filter nonempty
                 (map trim (split_lines (head ++ 10 :: tabbed ++ 10 :: tail)))
               = first :: others
                   ++ tabbed :: filter nonempty (map trim (split_lines tail))).
  { rewrite (record_lines_append head _ Hh), E.
    rewrite (record_lines_append tabbed tail Htb), E1. reflexivity. }
  destruct (continuation_stops others tabbed
              (filter nonempty (map trim (split_lines tail))) H9) as [C1 C2].
  split.
  - apply (parse_by_lines _ _ first _ _ E3 E2 C1).
  - intros Hh'. apply (parse_by_lines _ _ first _ _ E2 E (C2 Hh')).
Qed.

Lemma parseCourseInfo_stops_at_tab_witness :
  parseCourseInfo
    (sample_record ++ 10 :: (js "线性代数" ++ 9 :: js "3") ++ 10 :: js "星期二第1-2节")
  = parseCourseInfo (sample_record ++ 10 :: (js "线性代数" ++ 9 :: js "3")).
Proof.
  apply parseCourseInfo_stops_at_tab.
  - vm_compute. reflexivity.
  - vm_compute. discriminate.
  - vm_compute. reflexivity.
  - apply in_or_app. right. left. reflexivity.
  - apply not_in_b. vm_compute. reflexivity.
Defined.

End CourseInfoFacts.

(* ================================================================== *)
(** ** The text of a conflict *)
(* ================================================================== *)

Module MessageFacts.
Import Js JsFacts Types CourseTimeParser SchedulingAlgorithm.
Import ConflictFacts ConflictMore CourseInfoFacts.

Lemma digits_no_dash (d : Z) : 0 <= d -> ~ In (ch "-") (toString d).
Proof.
  intros Hd H. rewrite toString_nonneg in H by exact Hd.
  destruct (digits_spec d Hd) as [_ [D _]]. unfold all_digits in D.
  rewrite Forall_forall in D. specialize (D _ H). discriminate D.
Qed.

Lemma split_key (d : Z) (p1 rest : jsstring) :
  0 <= d -> ~ In (ch "-") p1 -> (rest = [] \/ exists r, rest = ch "-" :: r) ->
  exists more,
    split_on (ch "-") (toString d ++ js "-" ++ p1 ++ rest) = toString d :: p1 :: more.
Proof.
  intros Hd Hp Hr. change (js "-") with [ch "-"]. cbn [app].
  rewrite (split_on_app _ _ _ (digits_no_dash d Hd)).
  destruct Hr as [->|[r ->]].
  - exists []. rewrite app_nil_r, (split_on_plain _ _ Hp). reflexivity.
  - exists (split_on (ch "-") r). rewrite (split_on_app _ _ _ Hp). reflexivity.
Qed.

Lemma day_name (d : Z) :
  1 <= d <= 7 ->
  nth_error DAY_NAMES (Z.to_nat d) = Some (nth (Z.to_nat d) DAY_NAMES []).
Proof.
  intros Hd. apply nth_error_nth'. change (length DAY_NAMES) with 8%nat. lia.
Qed.

(** X28. The message of a reported conflict names the weekday and the period
    of its items: for items on weekday 1 to 7 it reads the target week (when
    one is set), the name of the weekday, then the name of the first time slot
    whose id is the period id (the id itself when there is none or its name is
    empty) and the closing words.  Of a period id that holds [-] only the part
    before the first [-] is looked up and shown. *)
Theorem detectTimeConflicts_message :
  forall (timeSlots : list TimeSlot) (sched : list ItemRef) (sw : option Z)
         (c : Conflict) (x : ItemRef) (p1 rest : jsstring),
    NoDup (map addr sched) ->
    In c (detectTimeConflicts timeSlots sched sw) -> In x (k_items c) ->
    1 <= i_dayOfWeek (obj x) <= 7 ->
    i_timeSlotId (obj x) = p1 ++ rest -> ~ In (ch "-") p1 ->
    (rest = [] \/ exists r, rest = ch "-" :: r) ->
    k_message c
    = match sw with
      | Some w => if w =? 0 then [] else js "第" ++ toString w ++ js "周 "
      | None => []
      end
      ++ nth (Z.to_nat (i_dayOfWeek (obj x))) DAY_NAMES [] ++ js " "
      ++ match find (fun t => str_eqb (ts_id t) p1) timeSlots with
         | Some t => if nonempty (ts_name t) then ts_name t else p1
         | None => p1
         end
      ++ js " 有多个课程安排".
Proof.
  intros timeSlots sched sw c x p1 rest Hnd Hc Hx Hd Hid Hp Hr.
  destruct (conflict_members timeSlots sched sw Hnd c Hc)
    as [k [g [_ [Ec [_ [_ Hm]]]]]].
  destruct (Hm x Hx) as [_ [_ Ek]]. rewrite Ec. cbn [k_message].
  rewrite <- Ek. unfold time_key. rewrite Hid.
  destruct (split_key (i_dayOfWeek (obj x)) p1 rest) as [more Es];
    [lia|exact Hp|exact Hr|].
  unfold conflict_message. rewrite Es. cbn [nth nth_error].
  rewrite parseInt_toString by lia. rewrite (day_name _ Hd). cbn [show].
  f_equal.
  - destruct sw as [w|]; [|reflexivity]. destruct (w =? 0); reflexivity.
  - f_equal. f_equal. f_equal.
    destruct (find (fun ts => str_eqb (ts_id ts) p1) timeSlots) as [t|]; [|reflexivity].
    unfold or_str. cbn [truthy_str]. destruct (ts_name t); reflexivity.
Qed.

Lemma detectTimeConflicts_message_witness :
  NoDup (map addr sample_items)
  /\ forall c x,
       In c (detectTimeConflicts [] sample_items None) -> In x (k_items c) ->
       1 <= i_dayOfWeek (obj x) <= 7 -> i_timeSlotId (obj x) = js "5" ++ [] ->
       k_message c
       = [] ++ nth (Z.to_nat (i_dayOfWeek (obj x))) DAY_NAMES [] ++ js " "
         ++ js "5" ++ js " 有多个课程安排".
Proof.
  assert (H : NoDup (map addr sample_items)).
  { simpl. repeat constructor; simpl; intuition discriminate. }
  split; [exact H|]. intros c x Hc Hx Hd Hid.
  apply (detectTimeConflicts_message [] sample_items None c x (js "5") [] H Hc Hx Hd Hid).
  - vm_compute. intuition discriminate.
  - left. reflexivity.
Defined.

End MessageFacts.
